(** * AVX-512 quicksort core (avx512-common-qsort.h): a shallow embedding

    The header is a set of function templates over a per-type capability
    struct [zmm_vector<T>].  The embedding keeps that shape: a type class
    [zmm_vector T] carries the constants and scalar facts of the pack, the
    register operations are list operations on [numlanes] lanes, the array is
    a [list T] whose every access is bounds-checked, and [arrsize_t]
    ([size_t], 64 bits, unsigned) is [Z] with the wrap-around written out. *)

From Stdlib Require Import ZArith Lia Bool.
From stdpp Require Import base tactics list sorting.

Local Open Scope Z_scope.

(** ** Outcomes of running a piece of the program *)

Inductive result (A : Type) : Type :=
  | Ok (a : A)
  | OutOfBounds
  | OutOfFuel.
Arguments Ok {A} a.
Arguments OutOfBounds {A}.
Arguments OutOfFuel {A}.

Global Instance result_bind : MBind result := λ A B f m,
  match m with
  | Ok a => f a
  | OutOfBounds => OutOfBounds
  | OutOfFuel => OutOfFuel
  end.

(** ** [arrsize_t] arithmetic *)

Definition wrap (z : Z) : Z := z mod 2 ^ 64.
Definition add64 (a b : Z) : Z := wrap (a + b).
Definition sub64 (a b : Z) : Z := wrap (a - b).

(** ** The capability pack [zmm_vector<T>]

    Modelled from the spec: the per-type structs live in the width-specific
    headers; this header only uses their members.  A value of [T] is ordered
    through [key] (the integer value of an integer type, the sign-magnitude
    rank of an IEEE bit pattern), [isnan] is [std::isnan], and [in_type]
    tells which inhabitants of the carrier are values of the C++ type. *)

Class zmm_vector (T : Type) := {
  numlanes : nat;
  network_sort_threshold : Z;
  partition_unroll_factor : nat;
  is_floating_point_v : bool;
  type_max : T;
  type_min : T;
  quiet_NaN : T;
  word_0xFFFF : T;
  isnan : T → bool;
  key : T → Z;
  in_type : T → bool;
}.

Class zmm_vector_ok (T : Type) `{zmm_vector T} := {
  numlanes_pos : (0 < numlanes)%nat;
  numlanes_le : (numlanes ≤ 32)%nat;
  int_no_nan : is_floating_point_v = false → ∀ x, isnan x = false;
  type_max_in : in_type type_max = true;
  type_max_num : isnan type_max = false;
  type_min_num : isnan type_min = false;
  quiet_NaN_in : in_type quiet_NaN = true;
  quiet_NaN_nan : is_floating_point_v = true → isnan quiet_NaN = true;
  key_le_max : ∀ x, in_type x = true → isnan x = false → key x ≤ key type_max;
  key_ge_min : ∀ x, in_type x = true → isnan x = false → key type_min ≤ key x;
  key_max_inj : ∀ x, in_type x = true → isnan x = false →
                key x = key type_max → x = type_max;
}.

(** A register is the list of its lanes, lane 0 first; an opmask is the list
    of its bits. *)
Abbreviation reg_t := (list _) (only parsing).
Abbreviation opmask_t := (list bool) (only parsing).

Section Memory.
Context {A : Type}.

(** ** Array accesses *)

Definition len (arr : list A) : Z := Z.of_nat (length arr).

Definition read (arr : list A) (i : Z) : result A :=
  if (0 <=? i) && (i <? len arr)
  then match arr !! Z.to_nat i with Some x => Ok x | None => OutOfBounds end
  else OutOfBounds.

Definition write (arr : list A) (i : Z) (x : A) : result (list A) :=
  if (0 <=? i) && (i <? len arr)
  then Ok (<[Z.to_nat i := x]> arr)
  else OutOfBounds.

(** [std::swap(arr[i], arr[j])]. *)
Definition swap (arr : list A) (i j : Z) : result (list A) :=
  x ← read arr i;
  y ← read arr j;
  arr ← write arr i y;
  write arr j x.

Definition read_block (arr : list A) (pos n : Z) : result (list A) :=
  if (0 <=? pos) && (0 <=? n) && (pos + n <=? len arr)
  then Ok (take (Z.to_nat n) (drop (Z.to_nat pos) arr))
  else OutOfBounds.

(** A store of no element touches no memory. *)
Definition write_block (arr : list A) (pos : Z) (xs : list A)
  : result (list A) :=
  match xs with
  | [] => Ok arr
  | _ =>
    if (0 <=? pos) && (pos + len xs <=? len arr)
    then Ok (take (Z.to_nat pos) arr ++ xs
             ++ drop (Z.to_nat pos + length xs) arr)
    else OutOfBounds
  end.

(** [std::memcpy(to + dst, from + src, n * sizeof(T))]. *)
Definition memcpy (to : list A) (dst : Z) (from : list A) (src : Z) (n : Z)
  : result (list A) :=
  blk ← read_block from src n;
  write_block to dst blk.

Fixpoint compress (m : list bool) (v : list A) : list A :=
  match m, v with
  | b :: m', x :: v' => if b then x :: compress m' v' else compress m' v'
  | _, _ => []
  end.

Definition mask_compressstoreu (arr : list A) (pos : Z) (m : list bool)
    (v : list A) : result (list A) :=
  write_block arr pos (compress m v).

(** [mask_mov(x, m, y)]: lane [i] of the result is lane [i] of [y] where [m]
    has its bit [i], and lane [i] of [x] elsewhere. *)
Fixpoint mask_mov (x : list A) (m : list bool) (y : list A) : list A :=
  match x, m, y with
  | xi :: x', b :: m', yi :: y' => (if b then yi else xi) :: mask_mov x' m' y'
  | _, _, _ => []
  end.

End Memory.

Section Kernel.
Context {T : Type} `{V : zmm_vector T}.

Definition nl : Z := Z.of_nat numlanes.

(** Scalar comparisons of [T]: [a < b], [a > b], [a >= b], [a != b] and
    [a <= b]; each is false on a NaN, but [!=], which is true. *)
Definition num (a : T) : bool := negb (isnan a).
Definition lt (a b : T) : bool := num a && num b && (key a <? key b).
Definition gt (a b : T) : bool := lt b a.
Definition ge_s (a b : T) : bool := num a && num b && (key b <=? key a).
Definition ne (a b : T) : bool := negb (num a && num b && (key a =? key b)).

Definition is_a_nan (elem : T) : bool := isnan elem.

Definition comparison_func (a b : T) : bool := lt a b.

(** [std::min(a, b, comp)] and [std::max(a, b, comp)]. *)
Definition std_min (a b : T) : T := if comparison_func b a then b else a.
Definition std_max (a b : T) : T := if comparison_func a b then b else a.

(** ** Register operations

    Modelled from the spec: §4.1 of the specification lists them. *)


Definition loadu (arr : list T) (pos : Z) : result reg_t :=
  read_block arr pos (Z.of_nat numlanes).

Definition set1 (x : T) : reg_t := replicate numlanes x.

Definition ge (a b : reg_t) : opmask_t := zip_with ge_s a b.
Definition knot_opmask (m : opmask_t) : opmask_t := map negb m.
Definition popcnt (m : opmask_t) : Z :=
  foldr (λ (b : bool) n, if b then n + 1 else n) 0 m.

(** [_mm_popcnt_u64(m)] counts a whole opmask, which has at most 64 bits;
    [_mm_popcnt_u32((int32_t)m)] counts the lanes 0 .. 31, which the cast
    keeps. *)
Definition popcnt_u64 (m : opmask_t) : Z := popcnt m.
Definition popcnt_u32 (m : opmask_t) : Z := popcnt (take 32 m).

Definition min_s (a b : T) : T := if lt a b then a else b.
Definition max_s (a b : T) : T := if gt a b then a else b.
Definition vmin (a b : reg_t) : reg_t := zip_with min_s a b.
Definition vmax (a b : reg_t) : reg_t := zip_with max_s a b.

Definition reducemin (v : reg_t) : T :=
  match v with
  | [] => type_max
  | x :: v' => fold_left min_s v' x
  end.

Definition reducemax (v : reg_t) : T :=
  match v with
  | [] => type_min
  | x :: v' => fold_left max_s v' x
  end.

(** ** Compare and exchange

    [eq] is the lane-wise [==] of the pack. *)
Definition eq_s (a b : T) : bool := num a && num b && (key a =? key b).
Definition eq (a b : reg_t) : opmask_t := zip_with eq_s a b.

(** [COEX(a, b)]: the two registers after the call. *)
Definition COEX (a b : reg_t) : reg_t * reg_t :=
  let temp := a in
  let a := vmin a b in
  let b := vmax temp b in
  (a, b).

Definition cmp_merge (in1 in2 : reg_t) (mask : opmask_t) : reg_t :=
  let min := vmin in2 in1 in
  let max := vmax in2 in1 in
  mask_mov min mask max.

(** ** [partition_vec] (single array) *)

Definition partition_vec (arr : list T) (left unpartitioned : Z)
    (curr_vec pivot_vec smallest_vec biggest_vec : reg_t)
  : result (list T * Z * Z * reg_t * reg_t) :=
  let ge_mask := ge curr_vec pivot_vec in
  let amount_ge_pivot := popcnt_u64 ge_mask in
  arr ← mask_compressstoreu arr left (knot_opmask ge_mask) curr_vec;
  let left := add64 left (sub64 nl amount_ge_pivot) in
  arr ← mask_compressstoreu arr (add64 left unpartitioned) ge_mask curr_vec;
  let unpartitioned := sub64 unpartitioned nl in
  Ok (arr, left, unpartitioned,
      vmin curr_vec smallest_vec, vmax curr_vec biggest_vec).

(** The scalar loop that shortens the range to a multiple of [numlanes];
    [i] counts the remaining iterations. *)
Fixpoint align_loop (i : nat) (arr : list T) (left right : Z) (pivot : T)
    (smallest biggest : T) : result (list T * Z * Z * T * T) :=
  match i with
  | O => Ok (arr, left, right, smallest, biggest)
  | S i' =>
    x ← read arr left;
    let smallest := std_min smallest x in
    let biggest := std_max biggest x in
    if negb (comparison_func x pivot) then
      let right := sub64 right 1 in
      arr ← swap arr left right;
      align_loop i' arr left right pivot smallest biggest
    else
      align_loop i' arr (add64 left 1) right pivot smallest biggest
  end.

(** The [while (right - left != 0)] loop of [partition_avx512]. *)
Fixpoint main_loop (fuel : nat) (arr : list T) (left right : Z)
    (l_store unpartitioned : Z) (pivot_vec min_vec max_vec : reg_t)
  : result (list T * Z * Z * reg_t * reg_t) :=
  if sub64 right left =? 0 then
    Ok (arr, l_store, unpartitioned, min_vec, max_vec)
  else
    match fuel with
    | O => OutOfFuel
    | S fuel' =>
      if sub64 (add64 (add64 l_store unpartitioned) nl) right
         <? sub64 left l_store
      then
        let right := sub64 right nl in
        curr_vec ← loadu arr right;
        '(arr, l_store, unpartitioned, min_vec, max_vec) ←
          partition_vec arr l_store unpartitioned curr_vec pivot_vec
                        min_vec max_vec;
        main_loop fuel' arr left right l_store unpartitioned
                  pivot_vec min_vec max_vec
      else
        curr_vec ← loadu arr left;
        let left := add64 left nl in
        '(arr, l_store, unpartitioned, min_vec, max_vec) ←
          partition_vec arr l_store unpartitioned curr_vec pivot_vec
                        min_vec max_vec;
        main_loop fuel' arr left right l_store unpartitioned
                  pivot_vec min_vec max_vec
    end.

(** Every iteration of a register loop loads [numlanes] fresh elements, so
    the array length bounds the number of iterations. *)
Definition loop_fuel (arr : list T) : nat := 2 * length arr + 2.

(** ** [partition_avx512] (single array)

    Returns the array, the partition index and the final [*smallest] and
    [*biggest]. *)
Definition partition_avx512 (arr : list T) (left right : Z) (pivot : T)
    (smallest biggest : T) : result (list T * Z * T * T) :=
  '(arr, left, right, smallest, biggest) ←
    align_loop (Z.to_nat (sub64 right left mod nl)) arr left right pivot
               smallest biggest;
  if left =? right then Ok (arr, left, smallest, biggest) else
  let pivot_vec := set1 pivot in
  let min_vec := set1 smallest in
  let max_vec := set1 biggest in
  if sub64 right left =? nl then
    vec ← loadu arr left;
    let unpartitioned := sub64 (sub64 right left) nl in
    let l_store := left in
    '(arr, l_store, unpartitioned, min_vec, max_vec) ←
      partition_vec arr l_store unpartitioned vec pivot_vec min_vec max_vec;
    Ok (arr, l_store, smallest, biggest)
  else
  vec_left ← loadu arr left;
  vec_right ← loadu arr (sub64 right nl);
  let unpartitioned := sub64 (sub64 right left) nl in
  let l_store := left in
  let left := add64 left nl in
  let right := sub64 right nl in
  '(arr, l_store, unpartitioned, min_vec, max_vec) ←
    main_loop (loop_fuel arr) arr left right l_store unpartitioned
              pivot_vec min_vec max_vec;
  '(arr, l_store, unpartitioned, min_vec, max_vec) ←
    partition_vec arr l_store unpartitioned vec_left pivot_vec
                  min_vec max_vec;
  '(arr, l_store, unpartitioned, min_vec, max_vec) ←
    partition_vec arr l_store unpartitioned vec_right pivot_vec
                  min_vec max_vec;
  Ok (arr, l_store, reducemin min_vec, reducemax max_vec).

(** ** [partition_avx512_unrolled] *)

(** [loads arr ps] loads one register at each position of [ps], in order. *)
Fixpoint loads (arr : list T) (ps : list Z) : result (list reg_t) :=
  match ps with
  | [] => Ok []
  | p :: ps' =>
    v ← loadu arr p;
    vs ← loads arr ps';
    Ok (v :: vs)
  end.

(** [partition_vec] on each register of [vecs], in order. *)
Fixpoint partition_vecs (arr : list T) (l_store unpartitioned : Z)
    (vecs : list reg_t) (pivot_vec min_vec max_vec : reg_t)
  : result (list T * Z * Z * reg_t * reg_t) :=
  match vecs with
  | [] => Ok (arr, l_store, unpartitioned, min_vec, max_vec)
  | v :: vecs' =>
    '(arr, l_store, unpartitioned, min_vec, max_vec) ←
      partition_vec arr l_store unpartitioned v pivot_vec min_vec max_vec;
    partition_vecs arr l_store unpartitioned vecs' pivot_vec min_vec max_vec
  end.

(** The loop over the [vecsToPartition] leftover registers; [todo] counts the
    remaining iterations and [i] is the loop variable. *)
Fixpoint leftover_loop (todo : nat) (i : Z) (arr buffer : list T)
    (left leftStore bufferStored : Z) (pivot_vec min_vec max_vec : reg_t)
  : result (list T * list T * Z * Z * reg_t * reg_t) :=
  match todo with
  | O => Ok (arr, buffer, leftStore, bufferStored, min_vec, max_vec)
  | S todo' =>
    curr_vec ← loadu arr (add64 left (i * nl));
    let ge_mask := ge curr_vec pivot_vec in
    let amount_ge_pivot := popcnt_u64 ge_mask in
    arr ← mask_compressstoreu arr leftStore (knot_opmask ge_mask) curr_vec;
    buffer ← mask_compressstoreu buffer bufferStored ge_mask curr_vec;
    let min_vec := vmin curr_vec min_vec in
    let max_vec := vmax curr_vec max_vec in
    let bufferStored := bufferStored + amount_ge_pivot in
    let leftStore := add64 leftStore (nl - amount_ge_pivot) in
    leftover_loop todo' (i + 1) arr buffer left leftStore bufferStored
                  pivot_vec min_vec max_vec
  end.

Fixpoint unrolled_loop (num_unroll : nat) (fuel : nat) (arr : list T)
    (left right : Z) (l_store unpartitioned : Z)
    (pivot_vec min_vec max_vec : reg_t)
  : result (list T * Z * Z * reg_t * reg_t) :=
  let U := Z.of_nat num_unroll in
  if sub64 right left =? 0 then
    Ok (arr, l_store, unpartitioned, min_vec, max_vec)
  else
    match fuel with
    | O => OutOfFuel
    | S fuel' =>
      if sub64 (add64 (add64 l_store unpartitioned) nl) right
         <? sub64 left l_store
      then
        let right := sub64 right (U * nl) in
        curr_vec ← loads arr (map (λ ii, add64 right (ii * nl)) (seqZ 0 U));
        '(arr, l_store, unpartitioned, min_vec, max_vec) ←
          partition_vecs arr l_store unpartitioned curr_vec pivot_vec
                         min_vec max_vec;
        unrolled_loop num_unroll fuel' arr left right l_store unpartitioned
                      pivot_vec min_vec max_vec
      else
        curr_vec ← loads arr (map (λ ii, add64 left (ii * nl)) (seqZ 0 U));
        let left := add64 left (U * nl) in
        '(arr, l_store, unpartitioned, min_vec, max_vec) ←
          partition_vecs arr l_store unpartitioned curr_vec pivot_vec
                         min_vec max_vec;
        unrolled_loop num_unroll fuel' arr left right l_store unpartitioned
                      pivot_vec min_vec max_vec
    end.

(** The scratch [buffer] is an uninitialised stack array of
    [num_unroll * numlanes] elements; it is filled with [type_max] here, and
    no cell of it is read before it is written. *)
Definition partition_avx512_unrolled (num_unroll : nat) (arr : list T)
    (left right : Z) (pivot : T) (smallest biggest : T)
  : result (list T * Z * T * T) :=
  if (num_unroll =? 0)%nat then
    partition_avx512 arr left right pivot smallest biggest
  else
  let U := Z.of_nat num_unroll in
  '(arr, left, right, smallest, biggest) ←
    align_loop (Z.to_nat (sub64 right left mod nl)) arr left right pivot
               smallest biggest;
  if left =? right then Ok (arr, left, smallest, biggest) else
  let pivot_vec := set1 pivot in
  let min_vec := set1 smallest in
  let max_vec := set1 biggest in
  let vecsToPartition := (sub64 right left / nl) mod U in
  let buffer := replicate (num_unroll * numlanes) type_max in
  let bufferStored := 0 in
  let leftStore := left in
  '(arr, buffer, leftStore, bufferStored, min_vec, max_vec) ←
    leftover_loop (Z.to_nat vecsToPartition) 0 arr buffer left leftStore
                  bufferStored pivot_vec min_vec max_vec;
  let smallest := reducemin min_vec in
  let biggest := reducemax max_vec in
  arr ← memcpy arr leftStore arr (sub64 right bufferStored) bufferStored;
  arr ← memcpy arr (sub64 right bufferStored) buffer 0 bufferStored;
  let left := add64 left (vecsToPartition * nl - bufferStored) in
  let right := sub64 right bufferStored in
  if left =? right then Ok (arr, left, smallest, biggest) else
  vec_left ← loads arr (map (λ ii, add64 left (nl * ii)) (seqZ 0 U));
  vec_right ← loads arr (map (λ ii, sub64 right (nl * (U - ii))) (seqZ 0 U));
  let unpartitioned := sub64 (sub64 right left) nl in
  let l_store := left in
  let left := add64 left (U * nl) in
  let right := sub64 right (U * nl) in
  '(arr, l_store, unpartitioned, min_vec, max_vec) ←
    unrolled_loop num_unroll (loop_fuel arr) arr left right l_store
                  unpartitioned pivot_vec min_vec max_vec;
  '(arr, l_store, unpartitioned, min_vec, max_vec) ←
    partition_vecs arr l_store unpartitioned vec_left pivot_vec
                   min_vec max_vec;
  '(arr, l_store, unpartitioned, min_vec, max_vec) ←
    partition_vecs arr l_store unpartitioned vec_right pivot_vec
                   min_vec max_vec;
  Ok (arr, l_store, reducemin min_vec, reducemax max_vec).

(** ** Key-value partition *)

Section KeyValue.
Context {I : Type}.

(** The [COEX] of the key-value sort: the two key registers and the two
    index registers after the call. *)
Definition COEX_kv (key1 key2 : reg_t) (index1 index2 : list I)
  : reg_t * reg_t * list I * list I :=
  let key_t1 := vmin key1 key2 in
  let key_t2 := vmax key1 key2 in
  let index_t1 := mask_mov index2 (eq key_t1 key1) index1 in
  let index_t2 := mask_mov index1 (eq key_t1 key1) index2 in
  (key_t1, key_t2, index_t1, index_t2).

(** The [cmp_merge] of the key-value sort: the keys returned and the new
    value of [indexes1]. *)
Definition cmp_merge_kv (in1 in2 : reg_t) (indexes1 indexes2 : list I)
    (mask : opmask_t) : reg_t * list I :=
  let tmp_keys := cmp_merge in1 in2 mask in
  let indexes1 := mask_mov indexes2 (eq tmp_keys in1) indexes1 in
  (tmp_keys, indexes1).

Definition partition_vec_kv (keys : list T) (indexes : list I)
    (left right : Z) (keys_vec : reg_t) (indexes_vec : list I)
    (pivot_vec smallest_vec biggest_vec : reg_t)
  : result (list T * list I * reg_t * reg_t * Z) :=
  let gt_mask := ge keys_vec pivot_vec in
  let amount_gt_pivot := popcnt_u32 gt_mask in
  keys ← mask_compressstoreu keys left (knot_opmask gt_mask) keys_vec;
  keys ← mask_compressstoreu keys (sub64 right amount_gt_pivot) gt_mask
                             keys_vec;
  indexes ← mask_compressstoreu indexes left (knot_opmask gt_mask)
                                indexes_vec;
  indexes ← mask_compressstoreu indexes (sub64 right amount_gt_pivot) gt_mask
                                indexes_vec;
  Ok (keys, indexes, vmin keys_vec smallest_vec, vmax keys_vec biggest_vec,
      amount_gt_pivot).

Fixpoint align_loop_kv (i : nat) (keys : list T) (indexes : list I)
    (left right : Z) (pivot : T) (smallest biggest : T)
  : result (list T * list I * Z * Z * T * T) :=
  match i with
  | O => Ok (keys, indexes, left, right, smallest, biggest)
  | S i' =>
    x ← read keys left;
    let smallest := std_min smallest x in
    let biggest := std_max biggest x in
    if gt x pivot then
      let right := sub64 right 1 in
      keys ← swap keys left right;
      indexes ← swap indexes left right;
      align_loop_kv i' keys indexes left right pivot smallest biggest
    else
      align_loop_kv i' keys indexes (add64 left 1) right pivot
                    smallest biggest
  end.

Fixpoint main_loop_kv (fuel : nat) (keys : list T) (indexes : list I)
    (left right : Z) (l_store r_store : Z) (pivot_vec min_vec max_vec : reg_t)
  : result (list T * list I * Z * Z * reg_t * reg_t) :=
  if sub64 right left =? 0 then
    Ok (keys, indexes, l_store, r_store, min_vec, max_vec)
  else
    match fuel with
    | O => OutOfFuel
    | S fuel' =>
      if sub64 (add64 r_store nl) right <? sub64 left l_store then
        let right := sub64 right nl in
        keys_vec ← read_block keys right nl;
        indexes_vec ← read_block indexes right nl;
        '(keys, indexes, min_vec, max_vec, amount_gt_pivot) ←
          partition_vec_kv keys indexes l_store (add64 r_store nl) keys_vec
                           indexes_vec pivot_vec min_vec max_vec;
        let r_store := sub64 r_store amount_gt_pivot in
        let l_store := add64 l_store (nl - amount_gt_pivot) in
        main_loop_kv fuel' keys indexes left right l_store r_store
                     pivot_vec min_vec max_vec
      else
        keys_vec ← read_block keys left nl;
        indexes_vec ← read_block indexes left nl;
        let left := add64 left nl in
        '(keys, indexes, min_vec, max_vec, amount_gt_pivot) ←
          partition_vec_kv keys indexes l_store (add64 r_store nl) keys_vec
                           indexes_vec pivot_vec min_vec max_vec;
        let r_store := sub64 r_store amount_gt_pivot in
        let l_store := add64 l_store (nl - amount_gt_pivot) in
        main_loop_kv fuel' keys indexes left right l_store r_store
                     pivot_vec min_vec max_vec
    end.

Definition partition_avx512_kv (keys : list T) (indexes : list I)
    (left right : Z) (pivot : T) (smallest biggest : T)
  : result (list T * list I * Z * T * T) :=
  '(keys, indexes, left, right, smallest, biggest) ←
    align_loop_kv (Z.to_nat (sub64 right left mod nl)) keys indexes left right
                  pivot smallest biggest;
  if left =? right then Ok (keys, indexes, left, smallest, biggest) else
  let pivot_vec := set1 pivot in
  let min_vec := set1 smallest in
  let max_vec := set1 biggest in
  if sub64 right left =? nl then
    keys_vec ← read_block keys left nl;
    indexes_vec ← read_block indexes left nl;
    '(keys, indexes, min_vec, max_vec, amount_gt_pivot) ←
      partition_vec_kv keys indexes left (add64 left nl) keys_vec indexes_vec
                       pivot_vec min_vec max_vec;
    Ok (keys, indexes, add64 left (nl - amount_gt_pivot),
        reducemin min_vec, reducemax max_vec)
  else
  keys_vec_left ← read_block keys left nl;
  keys_vec_right ← read_block keys (sub64 right nl) nl;
  indexes_vec_left ← read_block indexes left nl;
  indexes_vec_right ← read_block indexes (sub64 right nl) nl;
  let r_store := sub64 right nl in
  let l_store := left in
  let left := add64 left nl in
  let right := sub64 right nl in
  '(keys, indexes, l_store, r_store, min_vec, max_vec) ←
    main_loop_kv (loop_fuel keys) keys indexes left right l_store r_store
                 pivot_vec min_vec max_vec;
  '(keys, indexes, min_vec, max_vec, amount_gt_pivot) ←
    partition_vec_kv keys indexes l_store (add64 r_store nl) keys_vec_left
                     indexes_vec_left pivot_vec min_vec max_vec;
  let l_store := add64 l_store (nl - amount_gt_pivot) in
  '(keys, indexes, min_vec, max_vec, amount_gt_pivot) ←
    partition_vec_kv keys indexes l_store (add64 l_store nl) keys_vec_right
                     indexes_vec_right pivot_vec min_vec max_vec;
  let l_store := add64 l_store (nl - amount_gt_pivot) in
  Ok (keys, indexes, l_store, reducemin min_vec, reducemax max_vec).

End KeyValue.

End Kernel.

(** ** Functions this header declares or calls but does not define

    Modelled from the spec: [sort_n] (the bitonic networks, §4.2),
    [sort_vec] (the one-register network, §4.1) and [get_pivot_blocks] (§4.3)
    are defined in the width-specific headers; [std::sort] and [log2] come
    from the C++ library.  Each acts on the values it is given: [sort_n] and
    [std_sort] map the content of the range they are called on to its new
    content, [log2_sz x] is [(arrsize_t)log2(x)]. *)

Class externals (T : Type) := {
  sort_n : list T → list T;
  std_sort : list T → list T;
  sort_vec : list T → list T;
  get_pivot_blocks : list T → Z → Z → T;
  log2_sz : Z → Z;
}.

Section Drivers.
Context {T : Type} `{V : zmm_vector T} `{E : externals T}.

(** ** NaN passes *)

Definition get_partial_loadmask (n : Z) : opmask_t :=
  map (λ i, i <? n) (seqZ 0 nl).

(** Lanes outside the mask are not read; they are given [type_max]. *)
Fixpoint maskz_loadu_from (i : Z) (m : opmask_t) (arr : list T) (pos : Z)
  : result reg_t :=
  match m with
  | [] => Ok []
  | b :: m' =>
    x ← (if b then read arr (add64 pos i) else Ok type_max);
    v ← maskz_loadu_from (i + 1) m' arr pos;
    Ok (x :: v)
  end.

Definition maskz_loadu (m : opmask_t) (arr : list T) (pos : Z)
  : result reg_t :=
  maskz_loadu_from 0 m arr pos.

(** Only the lanes of the mask are written. *)
Fixpoint mask_storeu_from (i : Z) (arr : list T) (pos : Z) (m : opmask_t)
    (v : reg_t) {struct m} : result (list T) :=
  match m, v with
  | b :: m', x :: v' =>
    arr ← (if b then write arr (add64 pos i) x else Ok arr);
    mask_storeu_from (i + 1) arr pos m' v'
  | _, _ => Ok arr
  end.

Definition mask_storeu (arr : list T) (pos : Z) (m : opmask_t) (v : reg_t)
  : result (list T) :=
  mask_storeu_from 0 arr pos m v.

(** [fpclass<0x01 | 0x80>]: quiet or signalling NaN. *)
Definition fpclass_nan (v : reg_t) : opmask_t := map isnan v.

Definition zmm_max : reg_t := set1 type_max.

Fixpoint replace_nan_with_inf_loop (fuel : nat) (arr : list T) (size : Z)
    (ii nan_count : Z) : result (list T * Z) :=
  if ii <? size then
    match fuel with
    | O => OutOfFuel
    | S fuel' =>
      v ← (if sub64 size ii <? nl
           then maskz_loadu (get_partial_loadmask (sub64 size ii)) arr ii
           else loadu arr ii);
      let nanmask := fpclass_nan v in
      let nan_count := add64 nan_count (popcnt_u32 nanmask) in
      arr ← mask_storeu arr ii nanmask zmm_max;
      replace_nan_with_inf_loop fuel' arr size (add64 ii nl) nan_count
    end
  else Ok (arr, nan_count).

Definition replace_nan_with_inf (arr : list T) (size : Z)
  : result (list T * Z) :=
  replace_nan_with_inf_loop (length arr + 1) arr size 0 0.

(** [has_nan]: the loop leaves at the first register that holds a NaN. *)
Fixpoint has_nan_loop (fuel : nat) (arr : list T) (size ii : Z)
  : result bool :=
  if ii <? size then
    match fuel with
    | O => OutOfFuel
    | S fuel' =>
      v ← (if sub64 size ii <? nl
           then maskz_loadu (get_partial_loadmask (sub64 size ii)) arr ii
           else loadu arr ii);
      let nanmask := fpclass_nan v in
      if existsb (λ b : bool, b) nanmask then Ok true
      else has_nan_loop fuel' arr size (add64 ii nl)
    end
  else Ok false.

Definition has_nan (arr : list T) (size : Z) : result bool :=
  has_nan_loop (length arr + 1) arr size 0.

Fixpoint replace_inf_with_nan_loop (fuel : nat) (arr : list T)
    (ii nan_count : Z) : result (list T) :=
  if 0 <? nan_count then
    match fuel with
    | O => OutOfFuel
    | S fuel' =>
      arr ← write arr ii
              (if is_floating_point_v then quiet_NaN else word_0xFFFF);
      replace_inf_with_nan_loop fuel' arr (sub64 ii 1) (sub64 nan_count 1)
    end
  else Ok arr.

Definition replace_inf_with_nan (arr : list T) (size nan_count : Z)
  : result (list T) :=
  replace_inf_with_nan_loop (length arr + 1) arr (sub64 size 1) nan_count.

Fixpoint move_nans_loop (fuel : nat) (arr : list T) (ii jj count : Z)
  : result (list T * Z * Z) :=
  if ii <? jj then
    match fuel with
    | O => OutOfFuel
    | S fuel' =>
      x ← read arr ii;
      if is_a_nan x then
        arr ← swap arr ii jj;
        move_nans_loop fuel' arr ii (sub64 jj 1) (add64 count 1)
      else
        move_nans_loop fuel' arr (add64 ii 1) jj count
    end
  else Ok (arr, ii, count).

Definition move_nans_to_end_of_array (arr : list T) (size : Z)
  : result (list T * Z) :=
  let jj := sub64 size 1 in
  '(arr, ii, count) ← move_nans_loop (2 * length arr + 2) arr 0 jj 0;
  x ← read arr ii;
  let count := if is_a_nan x then add64 count 1 else count in
  Ok (arr, sub64 (sub64 size count) 1).

(** ** Pivot samplers *)

Fixpoint reads (arr : list T) (ps : list Z) : result (list T) :=
  match ps with
  | [] => Ok []
  | p :: ps' =>
    x ← read arr p;
    xs ← reads arr ps';
    Ok (x :: xs)
  end.

Definition lane (v : reg_t) (i : nat) : result T :=
  match v !! i with Some x => Ok x | None => OutOfBounds end.

Definition get_pivot_scalar (arr : list T) (left right : Z) : result T :=
  let numSamples := nl in
  let delta := sub64 right left / numSamples in
  samples ← reads arr (map (λ i, add64 left (wrap (i * delta)))
                           (seqZ 0 numSamples));
  vec ← loadu samples 0;
  lane (sort_vec vec) (Z.to_nat (numSamples / 2)).

Definition get_pivot_16bit (arr : list T) (left right : Z) : result T :=
  let size := sub64 right left / 32 in
  vec_arr ← reads arr (left ::
                       map (λ i, add64 left (wrap (i * size))) (seqZ 1 31));
  rand_vec ← loadu vec_arr 0;
  lane (sort_vec rand_vec) 16.

Definition get_pivot_32bit (arr : list T) (left right : Z) : result T :=
  let size := sub64 right left / 16 in
  vec_arr ← reads arr (map (λ i, add64 left (wrap (i * size))) (seqZ 1 16));
  rand_vec ← loadu vec_arr 0;
  lane (sort_vec rand_vec) 8.

(** [vtype::set] fills a register from its eight arguments; the lanes are
    listed here in the order of the arguments. *)
Definition get_pivot_64bit (arr : list T) (left right : Z) : result T :=
  let size := sub64 right left / 8 in
  rand_vec ← reads arr (map (λ i, add64 left (wrap (i * size))) (seqZ 1 8));
  lane (sort_vec rand_vec) 4.

Definition get_pivot (arr : list T) (left right : Z) : result T :=
  if (numlanes =? 8)%nat then get_pivot_64bit arr left right
  else if (numlanes =? 16)%nat then get_pivot_32bit arr left right
  else if (numlanes =? 32)%nat then get_pivot_16bit arr left right
  else get_pivot_scalar arr left right.

(** ** Drivers *)

(** A library sort on [arr + left .. arr + left + n). *)
Definition sort_range (f : list T → list T) (arr : list T) (left n : Z)
  : result (list T) :=
  seg ← read_block arr left n;
  write_block arr left (f seg).

(** [max_iters] only counts down to zero, so it is a [nat] here. *)
Fixpoint qsort_ (max_iters : nat) (arr : list T) (left right : Z)
  : result (list T) :=
  match max_iters with
  | O => sort_range std_sort arr left (sub64 (add64 right 1) left)
  | S max_iters' =>
    if sub64 (add64 right 1) left <=? network_sort_threshold then
      sort_range sort_n arr left (sub64 (add64 right 1) left)
    else
      let pivot := get_pivot_blocks arr left right in
      let smallest := type_max in
      let biggest := type_min in
      '(arr, pivot_index, smallest, biggest) ←
        partition_avx512_unrolled partition_unroll_factor arr left
                                  (add64 right 1) pivot smallest biggest;
      arr ← (if ne pivot smallest
             then qsort_ max_iters' arr left (sub64 pivot_index 1)
             else Ok arr);
      if ne pivot biggest
      then qsort_ max_iters' arr pivot_index right
      else Ok arr
  end.

Fixpoint qselect_ (max_iters : nat) (arr : list T) (pos left right : Z)
  : result (list T) :=
  match max_iters with
  | O => sort_range std_sort arr left (sub64 (add64 right 1) left)
  | S max_iters' =>
    if sub64 (add64 right 1) left <=? network_sort_threshold then
      sort_range sort_n arr left (sub64 (add64 right 1) left)
    else
      pivot ← get_pivot arr left right;
      let smallest := type_max in
      let biggest := type_min in
      '(arr, pivot_index, smallest, biggest) ←
        partition_avx512_unrolled partition_unroll_factor arr left
                                  (add64 right 1) pivot smallest biggest;
      if ne pivot smallest && (pos <? pivot_index) then
        qselect_ max_iters' arr pos left (sub64 pivot_index 1)
      else if ne pivot biggest && (pivot_index <=? pos) then
        qselect_ max_iters' arr pos pivot_index right
      else Ok arr
  end.

(** [2 * (arrsize_t)log2(n)]. *)
Definition depth_limit (n : Z) : nat := Z.to_nat (wrap (2 * log2_sz n)).

Definition avx512_qsort (arr : list T) (arrsize : Z) : result (list T) :=
  if 1 <? arrsize then
    if is_floating_point_v then
      '(arr, nan_count) ← replace_nan_with_inf arr arrsize;
      arr ← qsort_ (depth_limit arrsize) arr 0 (sub64 arrsize 1);
      replace_inf_with_nan arr arrsize nan_count
    else
      qsort_ (depth_limit arrsize) arr 0 (sub64 arrsize 1)
  else Ok arr.

Definition avx512_qselect (arr : list T) (k arrsize : Z) (hasnan : bool)
  : result (list T) :=
  let indx_last_elem := sub64 arrsize 1 in
  '(arr, indx_last_elem) ←
    (if is_floating_point_v && hasnan
     then move_nans_to_end_of_array arr arrsize
     else Ok (arr, indx_last_elem));
  if k <=? indx_last_elem then
    qselect_ (depth_limit indx_last_elem) arr k 0 indx_last_elem
  else Ok arr.

Definition avx512_partial_qsort (arr : list T) (k arrsize : Z)
    (hasnan : bool) : result (list T) :=
  arr ← avx512_qselect arr (sub64 k 1) arrsize hasnan;
  avx512_qsort arr (sub64 k 1).

End Drivers.

(** ** Concrete packs

    The constants of the packs are not part of this header.  The three packs
    below follow the header comment (network sort up to 128 elements) and the
    lane counts of 512-bit registers. *)

(** [int64_t]: a value is its integer. *)
Definition int64_pack : zmm_vector Z := {|
  numlanes := 8;
  network_sort_threshold := 128;
  partition_unroll_factor := 8;
  is_floating_point_v := false;
  type_max := 2 ^ 63 - 1;
  type_min := - 2 ^ 63;
  quiet_NaN := 0;
  word_0xFFFF := 65535;
  isnan := λ _, false;
  key := λ z, z;
  in_type := λ z, (- 2 ^ 63 <=? z) && (z <? 2 ^ 63);
|}.

(** [int16_t]: 32 lanes, the partition is not unrolled.  The constant
    [0xFFFF] converted to [int16_t] is -1. *)
Definition int16_pack : zmm_vector Z := {|
  numlanes := 32;
  network_sort_threshold := 128;
  partition_unroll_factor := 0;
  is_floating_point_v := false;
  type_max := 2 ^ 15 - 1;
  type_min := - 2 ^ 15;
  quiet_NaN := 0;
  word_0xFFFF := -1;
  isnan := λ _, false;
  key := λ z, z;
  in_type := λ z, (- 2 ^ 15 <=? z) && (z <? 2 ^ 15);
|}.

(** [float]: a value is its IEEE binary32 bit pattern.  The order of the
    values that are not NaN is the order of sign and magnitude, with
    [-0.0 == +0.0].  The constant [0xFFFF] converted to [float] is 65535.0,
    of bit pattern [0x477FFF00]; [replace_inf_with_nan] does not use it for
    a floating-point type. *)
Definition f32_mag (b : Z) : Z := b mod 2 ^ 31.
Definition f32_key (b : Z) : Z :=
  if b <? 2 ^ 31 then f32_mag b else - f32_mag b.
Definition f32_isnan (b : Z) : bool := 0x7F800000 <? f32_mag b.

Definition float_pack : zmm_vector Z := {|
  numlanes := 16;
  network_sort_threshold := 128;
  partition_unroll_factor := 2;
  is_floating_point_v := true;
  type_max := 0x7F800000;
  type_min := 0xFF800000;
  quiet_NaN := 0x7FC00000;
  word_0xFFFF := 0x477FFF00;
  isnan := f32_isnan;
  key := f32_key;
  in_type := λ b, (0 <=? b) && (b <? 2 ^ 32);
|}.

(** Two more choices of the constants that the specification allows
    (a network threshold that is a power of two between the lane count and
    128, any small unroll factor).  [int64_pack_least] has the least
    threshold for eight lanes and no unrolling; [int32_pack] has the
    threshold 128 and the unroll factor 8 with sixteen lanes, so that two
    groups of registers, 256 elements, are more than its threshold. *)
Definition int64_pack_least : zmm_vector Z := {|
  numlanes := 8;
  network_sort_threshold := 8;
  partition_unroll_factor := 0;
  is_floating_point_v := false;
  type_max := 2 ^ 63 - 1;
  type_min := - 2 ^ 63;
  quiet_NaN := 0;
  word_0xFFFF := 65535;
  isnan := λ _, false;
  key := λ z, z;
  in_type := λ z, (- 2 ^ 63 <=? z) && (z <? 2 ^ 63);
|}.

Definition int32_pack : zmm_vector Z := {|
  numlanes := 16;
  network_sort_threshold := 128;
  partition_unroll_factor := 8;
  is_floating_point_v := false;
  type_max := 2 ^ 31 - 1;
  type_min := - 2 ^ 31;
  quiet_NaN := 0;
  word_0xFFFF := 65535;
  isnan := λ _, false;
  key := λ z, z;
  in_type := λ z, (- 2 ^ 31 <=? z) && (z <? 2 ^ 31);
|}.

(** Reference implementations of the functions defined elsewhere: an
    insertion sort by [<] for the three sorts, the middle element for
    [get_pivot_blocks], the integer logarithm for [log2]. *)
Section Reference.
Context {T : Type} `{V : zmm_vector T}.

Fixpoint insert_sorted (x : T) (l : list T) : list T :=
  match l with
  | [] => [x]
  | y :: l' => if lt y x then y :: insert_sorted x l' else x :: l
  end.

Definition insertion_sort (l : list T) : list T :=
  foldr insert_sorted [] l.

Definition middle_pivot (arr : list T) (left right : Z) : T :=
  match read arr ((left + right) / 2) with
  | Ok x => x
  | _ => type_max
  end.

Definition reference_externals : externals T := {|
  sort_n := insertion_sort;
  std_sort := insertion_sort;
  sort_vec := insertion_sort;
  get_pivot_blocks := middle_pivot;
  log2_sz := Z.log2;
|}.

End Reference.

(** ** Vocabulary of the statements *)

Section Vocabulary.
Context {T : Type} `{V : zmm_vector T}.

(** No NaN in [l]. *)
Definition numeric (l : list T) : Prop := Forall (λ x, isnan x = false) l.

(** Every element of [l] is a value of the C++ type. *)
Definition typed (l : list T) : Prop := Forall (λ x, in_type x = true) l.

(** The least and the greatest key of [l], starting from [s]. *)
Definition kmin (s : Z) (l : list T) : Z :=
  foldr (λ x a, Z.min (key x) a) s l.
Definition kmax (s : Z) (l : list T) : Z :=
  foldr (λ x a, Z.max (key x) a) s l.

(** The NaNs of [l], the other elements of [l], and [l] with [type_max] in
    the place of each NaN. *)
Definition nans (l : list T) : list T := List.filter isnan l.
Definition nums (l : list T) : list T :=
  List.filter (λ x, negb (isnan x)) l.
Definition san (x : T) : T := if isnan x then type_max else x.

(** [l] is in non-decreasing order. *)
Definition key_sorted (l : list T) : Prop :=
  StronglySorted (λ x y, key x ≤ key y) l.

(** The elements of [arr] at the positions [a .. b). *)
Definition seg (arr : list T) (a b : Z) : list T :=
  take (Z.to_nat (b - a)) (drop (Z.to_nat a) arr).

(** The lanes of [v] below the pivot and the lanes not below it, as the
    two compressed stores of [partition_vec] write them; over a sequence of
    registers the low parts pile up from the left and the high parts from
    the right. *)
Definition lo_of (P : T) (v : reg_t) : list T :=
  compress (knot_opmask (ge v (set1 P))) v.
Definition hi_of (P : T) (v : reg_t) : list T :=
  compress (ge v (set1 P)) v.

Fixpoint los (P : T) (vs : list reg_t) : list T :=
  match vs with
  | [] => []
  | v :: vs' => lo_of P v ++ los P vs'
  end.

Fixpoint his (P : T) (vs : list reg_t) : list T :=
  match vs with
  | [] => []
  | v :: vs' => his P vs' ++ hi_of P v
  end.

(** The high parts in the order in which the scratch buffer receives them. *)
Fixpoint hif (P : T) (vs : list reg_t) : list T :=
  match vs with
  | [] => []
  | v :: vs' => hi_of P v ++ hif P vs'
  end.

(** The running minimum and maximum registers after the registers [vs]. *)
Definition vmins (vs : list reg_t) (mn : reg_t) : reg_t :=
  fold_left (λ acc v, vmin v acc) vs mn.
Definition vmaxs (vs : list reg_t) (mx : reg_t) : reg_t :=
  fold_left (λ acc v, vmax v acc) vs mx.

(** The [k] registers stored one after the other in [G]. *)
Fixpoint regs_of (k : nat) (G : list T) : list reg_t :=
  match k with
  | O => []
  | S k' => take numlanes G :: regs_of k' (drop numlanes G)
  end.

(** The postcondition of a partition of [arr] on [left .. right) around
    [P]: [arr'] is the array afterwards and [p] the index returned. *)
Definition partitioned (arr arr' : list T) (left right p : Z) (P : T)
  : Prop :=
  left ≤ p ≤ right ∧
  length arr' = length arr ∧
  Forall (λ x, lt x P = true) (seg arr' left p) ∧
  Forall (λ x, ge_s x P = true) (seg arr' p right) ∧
  seg arr' left right ≡ₚ seg arr left right ∧
  take (Z.to_nat left) arr' = take (Z.to_nat left) arr ∧
  drop (Z.to_nat right) arr' = drop (Z.to_nat right) arr.


(** The 32 elements of [arr] at [left + size * i] for
    [i = first .. first + 31], where [size = (right - left) / 32]. *)
Definition samples_16bit (arr : list T) (left right first : Z) : list T :=
  let size := (right - left) / 32 in
  map (λ i, default type_max (arr !! Z.to_nat (left + i * size)))
      (seqZ first 32).

(** [r] is the index of the last element of [arr] on [0 .. size) that is
    not a NaN. *)
Definition last_non_nan (arr : list T) (size r : Z) : Prop :=
  0 ≤ r < size ∧
  (∃ x, arr !! Z.to_nat r = Some x ∧ isnan x = false) ∧
  Forall (λ x, isnan x = true) (seg arr (r + 1) size).

End Vocabulary.

(** ** What the drivers assume of the rest of the library

    Modelled from the spec: §4.2 asks of the network sort that its output be
    a sorted permutation of any input of at most [network_sort_threshold]
    elements, §4.3 that the sampler return an element of the range, of which
    only "not a NaN on a range without NaN" is used; [std::sort] sorts.  The
    comparisons of all three are those of the pack, hence the ranges without
    NaN. *)

Section Contracts.
Context {T : Type} `{V : zmm_vector T} `{E : externals T}.

Class externals_ok : Prop := {
  sort_n_ok : ∀ l, numeric l → len l ≤ network_sort_threshold →
              sort_n l ≡ₚ l ∧ key_sorted (sort_n l);
  std_sort_ok : ∀ l, numeric l → std_sort l ≡ₚ l ∧ key_sorted (std_sort l);
  get_pivot_blocks_ok : ∀ A M B, M ≠ [] → numeric M →
    len (A ++ M ++ B) < 2 ^ 64 →
    isnan (get_pivot_blocks (A ++ M ++ B) (len A) (sub64 (len A + len M) 1))
    = false;
}.

(** The drivers call the partition kernel on more than
    [network_sort_threshold] elements only; the unrolled kernel needs two
    groups of [partition_unroll_factor] registers, the plain one two
    registers. *)
Definition threshold_ok : Prop :=
  2 * Z.max 1 (Z.of_nat partition_unroll_factor) * nl
  ≤ network_sort_threshold.

End Contracts.

(** ** Vocabulary of the selection *)

Section Selection.
Context {T : Type} `{V : zmm_vector T} `{E : externals T}.

(** Modelled from the spec: §4.1 has [sort_vec] sort one register; the
    samplers only need its output to hold the lanes of its input. *)
Definition sort_vec_ok : Prop := ∀ v : list T, sort_vec v ≡ₚ v.

(** The element at index [k] of [M] is in its place: no element before it
    is greater, no element behind it is smaller. *)
Definition selected (M : list T) (k : nat) : Prop :=
  ∃ L x R, M = L ++ x :: R ∧ length L = k
           ∧ Forall (λ y, key y ≤ key x) L
           ∧ Forall (λ y, key x ≤ key y) R.

End Selection.

(** ** Keys with their indexes

    The key-value kernel moves a key and its index by the same masks and the
    same exchanges, so it acts on the array of the pairs (key, index) as a
    single-array kernel whose elements are ordered by their key.  [pair_pack]
    is the pack of that kernel; [d] fills the index of its constants. *)
Definition pair_pack {T I : Type} `{V : zmm_vector T} (d : I)
  : zmm_vector (T * I) := {|
  numlanes := numlanes;
  network_sort_threshold := network_sort_threshold;
  partition_unroll_factor := partition_unroll_factor;
  is_floating_point_v := is_floating_point_v;
  type_max := (type_max, d);
  type_min := (type_min, d);
  quiet_NaN := (quiet_NaN, d);
  word_0xFFFF := (word_0xFFFF, d);
  isnan := λ p, isnan p.1;
  key := λ p, key p.1;
  in_type := λ p, in_type p.1;
|}.

(** * Facts *)

(** ** Arithmetic of [arrsize_t] *)

Lemma wrap_small z : 0 ≤ z < 2 ^ 64 → wrap z = z.
Proof. intros. unfold wrap. apply Z.mod_small. lia. Qed.

Lemma wrap_range z : 0 ≤ wrap z < 2 ^ 64.
Proof. unfold wrap. apply Z.mod_pos_bound. lia. Qed.

Ltac unwrap :=
  unfold add64, sub64 in *;
  repeat match goal with
         | |- context [wrap ?z] => rewrite (wrap_small z) by lia
         end.

Ltac tuple_eq :=
  repeat match goal with
         | |- Ok _ = Ok _ => f_equal
         | |- (_, _) = (_, _) => f_equal
         end.

Ltac lens :=
  unfold len in *;
  repeat rewrite ?length_app, ?length_cons, ?length_nil, ?length_take,
    ?length_drop, ?Nat2Z.inj_add, ?Nat2Z.inj_succ in *;
  cbn [length] in *.

(** Side conditions on positions and lengths. *)
Ltac side :=
  first [ done
        | lia
        | solve [lens; unwrap; lia]
        | solve [f_equal; lens; lia]
        | solve [lens; nia] ].

Lemma wrap_wrap z : wrap (wrap z) = wrap z.
Proof. apply wrap_small, wrap_range. Qed.

(** ** Array accesses on a split array *)

Lemma bind_Ok {A B} (a : A) (f : A → result B) : (Ok a ≫= f) = f a.
Proof. reflexivity. Qed.

Section MemoryFacts.
Context {A : Type}.
Implicit Types X Y F xs arr : list A.

Lemma len_app X Y : len (X ++ Y) = len X + len Y.
Proof. lens. lia. Qed.

Lemma len_nonneg X : 0 ≤ len X.
Proof. lens. lia. Qed.

Lemma read_app pos X x Y :
  pos = len X → read (X ++ x :: Y) pos = Ok x.
Proof.
  intros ->. unfold read.
  replace ((0 <=? len X) && (len X <? len (X ++ x :: Y))) with true
    by (symmetry; apply andb_true_iff; split;
        [apply Z.leb_le | apply Z.ltb_lt]; lens; lia).
  unfold len. rewrite Nat2Z.id, list_lookup_middle by done. done.
Qed.

Lemma write_app pos X x y Y :
  pos = len X → write (X ++ x :: Y) pos y = Ok (X ++ y :: Y).
Proof.
  intros ->. unfold write.
  replace ((0 <=? len X) && (len X <? len (X ++ x :: Y))) with true
    by (symmetry; apply andb_true_iff; split;
        [apply Z.leb_le | apply Z.ltb_lt]; lens; lia).
  unfold len. rewrite Nat2Z.id.
  rewrite insert_app_r_alt by lia.
  by rewrite Nat.sub_diag.
Qed.

Lemma read_block_app pos n X F Y :
  pos = len X → n = len F → read_block (X ++ F ++ Y) pos n = Ok F.
Proof.
  intros -> ->. unfold read_block.
  replace ((0 <=? len X) && (0 <=? len F)
           && (len X + len F <=? len (X ++ F ++ Y))) with true
    by (symmetry; rewrite !andb_true_iff, !Z.leb_le; lens; lia).
  unfold len. rewrite !Nat2Z.id.
  by rewrite drop_app_length, take_app_length.
Qed.

Lemma write_block_app pos X F Y xs :
  pos = len X → length xs = length F →
  write_block (X ++ F ++ Y) pos xs = Ok (X ++ xs ++ Y).
Proof.
  intros -> Hl. unfold write_block.
  destruct xs as [|x xs'] eqn:Hxs.
  { destruct F; [done | discriminate]. }
  rewrite <- Hxs in *. clear Hxs.
  replace ((0 <=? len X) && (len X + len xs <=? len (X ++ F ++ Y))) with true
    by (symmetry; rewrite !andb_true_iff, !Z.leb_le; lens; lia).
  unfold len. rewrite Nat2Z.id, take_app_length.
  rewrite Hl, <- length_app, (assoc_L (++) X F Y), drop_app_length.
  done.
Qed.

(** A store at the start of a free gap [F]. *)
Lemma write_block_gap_l pos X F Y xs :
  pos = len X → (length xs ≤ length F)%nat →
  write_block (X ++ F ++ Y) pos xs
  = Ok (X ++ xs ++ drop (length xs) F ++ Y).
Proof.
  intros Hp Hl.
  rewrite <- (take_drop (length xs) F) at 1.
  rewrite <- (assoc_L (++) (take _ F)).
  apply write_block_app; [done |].
  rewrite length_take. lia.
Qed.

(** A store at the end of a free gap [F]. *)
Lemma write_block_gap_r pos X F Y xs :
  pos = len X + len F - len xs → (length xs ≤ length F)%nat →
  write_block (X ++ F ++ Y) pos xs
  = Ok (X ++ take (length F - length xs) F ++ xs ++ Y).
Proof.
  intros Hp Hl.
  rewrite <- (take_drop (length F - length xs) F) at 1.
  rewrite <- (assoc_L (++) (take _ F)), (assoc_L (++) X).
  rewrite write_block_app with (xs := xs).
  - by rewrite <- (assoc_L (++) X).
  - subst pos. lens. lia.
  - rewrite length_drop. lia.
Qed.

Lemma swap_far X x F y Y pos1 pos2 :
  pos1 = len X → pos2 = len X + 1 + len F →
  swap (X ++ x :: F ++ y :: Y) pos1 pos2 = Ok (X ++ y :: F ++ x :: Y).
Proof.
  intros -> ->. unfold swap.
  rewrite (read_app (len X) X x) by done. rewrite bind_Ok.
  replace (X ++ x :: F ++ y :: Y) with ((X ++ x :: F) ++ y :: Y)
    by (by rewrite <- (assoc_L (++))).
  rewrite (read_app _ (X ++ x :: F)) by (lens; lia). rewrite bind_Ok.
  rewrite <- (assoc_L (++)). simpl.
  rewrite (write_app (len X) X) by done. rewrite bind_Ok.
  replace (X ++ y :: F ++ y :: Y) with ((X ++ y :: F) ++ y :: Y)
    by (by rewrite <- (assoc_L (++))).
  rewrite (write_app _ (X ++ y :: F)) by (lens; lia).
  by rewrite <- (assoc_L (++)).
Qed.

Lemma swap_same X x Y pos :
  pos = len X → swap (X ++ x :: Y) pos pos = Ok (X ++ x :: Y).
Proof.
  intros ->. unfold swap.
  rewrite !(read_app (len X) X x) by done. rewrite !bind_Ok.
  rewrite (write_app (len X) X) by done. rewrite bind_Ok.
  by rewrite write_app.
Qed.

Lemma snoc_case X : X = [] ∨ ∃ X' x, X = X' ++ [x].
Proof.
  induction X as [|a X IH] using rev_ind; [by left | right; eauto].
Qed.

Lemma memcpy_app (to from : list A) dst src n X F Y X' F' Y' :
  to = X ++ F ++ Y → from = X' ++ F' ++ Y' →
  dst = len X → src = len X' → n = len F' → length F = length F' →
  memcpy to dst from src n = Ok (X ++ F' ++ Y).
Proof.
  intros -> -> -> -> -> Hl. unfold memcpy.
  rewrite read_block_app by done. rewrite bind_Ok.
  by apply write_block_app.
Qed.

End MemoryFacts.

(** ** Registers *)

Section RegisterFacts.
Context {T : Type} `{V : zmm_vector T}.
Implicit Types v a b : list T.

Lemma lt_numeric x y :
  isnan x = false → isnan y = false → lt x y = (key x <? key y).
Proof. intros Hx Hy. unfold lt, num. by rewrite Hx, Hy. Qed.

Lemma ge_s_numeric x y :
  isnan x = false → isnan y = false → ge_s x y = (key y <=? key x).
Proof. intros Hx Hy. unfold ge_s, num. by rewrite Hx, Hy. Qed.

Lemma ge_set1 v P :
  length v = numlanes → ge v (set1 P) = map (λ x, ge_s x P) v.
Proof.
  unfold ge, set1. generalize numlanes as n. intros n <-.
  induction v as [|x v IH]; simpl; [done | by rewrite IH].
Qed.

Lemma compress_length_le {A} (m : list bool) (u : list A) :
  (length (compress m u) ≤ length u)%nat.
Proof.
  revert u. induction m as [|c m IH]; intros [|x u]; simpl; try lia.
  destruct c; simpl; specialize (IH u); lia.
Qed.

Lemma compress_knot_length {A} (m : list bool) (u : list A) :
  length m = length u →
  (length (compress (knot_opmask m) u) + length (compress m u)
   = length u)%nat.
Proof.
  revert u. induction m as [|c m IH]; intros [|x u]; simpl; try done.
  intros [= Hl]. specialize (IH u Hl). destruct c; simpl; lia.
Qed.

Lemma popcnt_compress {A} (m : list bool) (u : list A) :
  length m = length u → popcnt m = len (compress m u).
Proof.
  unfold popcnt, len.
  revert u. induction m as [|c m IH]; intros [|x u]; simpl; try done.
  intros [= Hl]. specialize (IH u Hl).
  destruct c; simpl; lia.
Qed.

Lemma compress_perm {A} (m : list bool) (u : list A) :
  length m = length u →
  compress (knot_opmask m) u ++ compress m u ≡ₚ u.
Proof.
  revert u. induction m as [|c m IH]; intros [|x u]; simpl; try done.
  intros [= Hl]. specialize (IH u Hl). destruct c; simpl.
  - by rewrite <- Permutation_middle, IH.
  - by rewrite IH.
Qed.

Lemma compress_map_true (f : T → bool) v :
  Forall (λ x, f x = true) (compress (map f v) v).
Proof.
  induction v as [|x v IH]; simpl; [constructor |].
  destruct (f x) eqn:Hf; [by constructor | done].
Qed.

Lemma compress_map_false (f : T → bool) v :
  Forall (λ x, f x = false) (compress (knot_opmask (map f v)) v).
Proof.
  induction v as [|x v IH]; simpl; [constructor |].
  destruct (f x) eqn:Hf; simpl; [done | by constructor].
Qed.

Lemma compress_sub {A} (Q : A → Prop) (m : list bool) (u : list A) :
  Forall Q u → Forall Q (compress m u).
Proof.
  revert u. induction m as [|c m IH]; intros [|x u] Hu; simpl;
    try constructor.
  inversion Hu; subst. destruct c; [constructor |]; auto.
Qed.

(** The two halves a register is split into by a pivot. *)
Lemma compress_ge_below v P :
  length v = numlanes → numeric v → isnan P = false →
  Forall (λ x, key x < key P) (compress (knot_opmask (ge v (set1 P))) v).
Proof.
  intros Hl Hv HP. rewrite ge_set1 by done.
  pose proof (compress_map_false (λ x, ge_s x P) v) as Hf.
  pose proof (compress_sub _ (knot_opmask (map (λ x, ge_s x P) v)) v Hv)
    as Hn.
  rewrite Forall_forall in *. intros x Hx.
  specialize (Hf x Hx). specialize (Hn x Hx). simpl in *.
  rewrite ge_s_numeric in Hf by done. lia.
Qed.

Lemma compress_ge_above v P :
  length v = numlanes → numeric v → isnan P = false →
  Forall (λ x, key P ≤ key x) (compress (ge v (set1 P)) v).
Proof.
  intros Hl Hv HP. rewrite ge_set1 by done.
  pose proof (compress_map_true (λ x, ge_s x P) v) as Hf.
  pose proof (compress_sub _ (map (λ x, ge_s x P) v) v Hv) as Hn.
  rewrite Forall_forall in *. intros x Hx.
  specialize (Hf x Hx). specialize (Hn x Hx). simpl in *.
  rewrite ge_s_numeric in Hf by done. lia.
Qed.

Lemma ge_length v P :
  length v = numlanes → length (ge v (set1 P)) = length v.
Proof. intros. rewrite ge_set1 by done. apply length_map. Qed.

(** *** Lane-wise minimum and maximum *)

Lemma min_s_key x y :
  isnan x = false → isnan y = false →
  key (min_s x y) = Z.min (key x) (key y) ∧ isnan (min_s x y) = false.
Proof.
  intros Hx Hy. unfold min_s. rewrite lt_numeric by done.
  destruct (Z.ltb_spec (key x) (key y)); split; try done; lia.
Qed.

Lemma max_s_key x y :
  isnan x = false → isnan y = false →
  key (max_s x y) = Z.max (key x) (key y) ∧ isnan (max_s x y) = false.
Proof.
  intros Hx Hy. unfold max_s, gt. rewrite lt_numeric by done.
  destruct (Z.ltb_spec (key y) (key x)); split; try done; lia.
Qed.

Lemma std_min_key x y :
  isnan x = false → isnan y = false →
  key (std_min x y) = Z.min (key x) (key y) ∧ isnan (std_min x y) = false.
Proof.
  intros Hx Hy. unfold std_min, comparison_func. rewrite lt_numeric by done.
  destruct (Z.ltb_spec (key y) (key x)); split; try done; lia.
Qed.

Lemma std_max_key x y :
  isnan x = false → isnan y = false →
  key (std_max x y) = Z.max (key x) (key y) ∧ isnan (std_max x y) = false.
Proof.
  intros Hx Hy. unfold std_max, comparison_func. rewrite lt_numeric by done.
  destruct (Z.ltb_spec (key x) (key y)); split; try done; lia.
Qed.

Lemma vmin_length a b : length a = length b → length (vmin a b) = length a.
Proof. intros. unfold vmin. rewrite length_zip_with. lia. Qed.

Lemma vmax_length a b : length a = length b → length (vmax a b) = length a.
Proof. intros. unfold vmax. rewrite length_zip_with. lia. Qed.

Lemma vmin_numeric a b : numeric a → numeric b → numeric (vmin a b).
Proof.
  unfold numeric, vmin. intros Ha. revert b.
  induction Ha as [|x a Hx Ha IH]; intros b Hb; simpl; [constructor |].
  destruct Hb as [|y b Hy Hb]; constructor; [| by apply IH].
  by apply min_s_key.
Qed.

Lemma vmax_numeric a b : numeric a → numeric b → numeric (vmax a b).
Proof.
  unfold numeric, vmax. intros Ha. revert b.
  induction Ha as [|x a Hx Ha IH]; intros b Hb; simpl; [constructor |].
  destruct Hb as [|y b Hy Hb]; constructor; [| by apply IH].
  by apply max_s_key.
Qed.

Lemma kmin_app s l1 l2 : kmin s (l1 ++ l2) = kmin (kmin s l2) l1.
Proof. unfold kmin. apply foldr_app. Qed.

Lemma kmax_app s l1 l2 : kmax s (l1 ++ l2) = kmax (kmax s l2) l1.
Proof. unfold kmax. apply foldr_app. Qed.

Lemma kmin_seed s t l : kmin (Z.min s t) l = Z.min s (kmin t l).
Proof. induction l as [|x l IH]; simpl; [done | rewrite IH; lia]. Qed.

Lemma kmax_seed s t l : kmax (Z.max s t) l = Z.max s (kmax t l).
Proof. induction l as [|x l IH]; simpl; [done | rewrite IH; lia]. Qed.

Lemma kmin_perm s l1 l2 : l1 ≡ₚ l2 → kmin s l1 = kmin s l2.
Proof. induction 1; simpl; lia. Qed.

Lemma kmax_perm s l1 l2 : l1 ≡ₚ l2 → kmax s l1 = kmax s l2.
Proof. induction 1; simpl; lia. Qed.

Lemma kmin_spec s l :
  kmin s l ≤ s ∧ Forall (λ x, kmin s l ≤ key x) l
  ∧ (kmin s l = s ∨ ∃ x, x ∈ l ∧ key x = kmin s l).
Proof.
  induction l as [|x l (IH1 & IH2 & IH3)]; simpl.
  { split; [lia |]. split; [constructor | by left]. }
  split; [lia |]. split.
  - constructor; [lia |]. eapply Forall_impl; [exact IH2 |].
    simpl. intros; lia.
  - destruct (Z.min_spec (key x) (kmin s l)) as [[? ->]|[? ->]].
    + right. exists x. split; [left | done].
    + destruct IH3 as [->|(y & Hy & <-)]; [by left |].
      right. exists y. split; [by right | done].
Qed.

Lemma kmax_spec s l :
  s ≤ kmax s l ∧ Forall (λ x, key x ≤ kmax s l) l
  ∧ (kmax s l = s ∨ ∃ x, x ∈ l ∧ key x = kmax s l).
Proof.
  induction l as [|x l (IH1 & IH2 & IH3)]; simpl.
  { split; [lia |]. split; [constructor | by left]. }
  split; [lia |]. split.
  - constructor; [lia |]. eapply Forall_impl; [exact IH2 |].
    simpl. intros; lia.
  - destruct (Z.max_spec (key x) (kmax s l)) as [[? ->]|[? ->]].
    + destruct IH3 as [->|(y & Hy & <-)]; [by left |].
      right. exists y. split; [by right | done].
    + right. exists x. split; [left | done].
Qed.

Lemma fold_min_key l x :
  numeric (x :: l) →
  (∀ s, Z.min s (key (fold_left min_s l x)) = kmin s (x :: l))
  ∧ isnan (fold_left min_s l x) = false.
Proof.
  revert x. induction l as [|y l IH]; intros x Hn.
  { inversion Hn; subst. simpl. split; [intros; lia | done]. }
  inversion Hn as [|? ? Hx Hn']; subst.
  inversion Hn' as [|? ? Hy Hl]; subst.
  destruct (min_s_key x y Hx Hy) as [Hk Hm].
  destruct (IH (min_s x y)) as [IH1 IH2]; [by constructor |].
  split; [| done]. intros s. simpl. rewrite IH1. simpl. rewrite Hk.
  fold (kmin s l). lia.
Qed.

Lemma fold_max_key l x :
  numeric (x :: l) →
  (∀ s, Z.max s (key (fold_left max_s l x)) = kmax s (x :: l))
  ∧ isnan (fold_left max_s l x) = false.
Proof.
  revert x. induction l as [|y l IH]; intros x Hn.
  { inversion Hn; subst. simpl. split; [intros; lia | done]. }
  inversion Hn as [|? ? Hx Hn']; subst.
  inversion Hn' as [|? ? Hy Hl]; subst.
  destruct (max_s_key x y Hx Hy) as [Hk Hm].
  destruct (IH (max_s x y)) as [IH1 IH2]; [by constructor |].
  split; [| done]. intros s. simpl. rewrite IH1. simpl. rewrite Hk.
  fold (kmax s l). lia.
Qed.

Lemma reducemin_key v :
  numeric v → v ≠ [] →
  (∀ s, Z.min s (key (reducemin v)) = kmin s v)
  ∧ isnan (reducemin v) = false.
Proof. intros Hn Hv. destruct v; [done |]. by apply fold_min_key. Qed.

Lemma reducemax_key v :
  numeric v → v ≠ [] →
  (∀ s, Z.max s (key (reducemax v)) = kmax s v)
  ∧ isnan (reducemax v) = false.
Proof. intros Hn Hv. destruct v; [done |]. by apply fold_max_key. Qed.

Lemma kmin_vmin s a b :
  length a = length b → numeric a → numeric b →
  kmin s (vmin a b) = Z.min (kmin s a) (kmin s b).
Proof.
  unfold vmin. revert b. induction a as [|x a IH]; intros [|y b] Hl Ha Hb;
    simpl in *; try done; [lia |].
  inversion Ha; inversion Hb; subst. injection Hl as Hl.
  destruct (min_s_key x y) as [-> _]; [done.. |].
  fold (kmin s (zip_with min_s a b)). rewrite IH by done.
  fold (kmin s a) (kmin s b). lia.
Qed.

Lemma kmax_vmax s a b :
  length a = length b → numeric a → numeric b →
  kmax s (vmax a b) = Z.max (kmax s a) (kmax s b).
Proof.
  unfold vmax. revert b. induction a as [|x a IH]; intros [|y b] Hl Ha Hb;
    simpl in *; try done; [lia |].
  inversion Ha; inversion Hb; subst. injection Hl as Hl.
  destruct (max_s_key x y) as [-> _]; [done.. |].
  fold (kmax s (zip_with max_s a b)). rewrite IH by done.
  fold (kmax s a) (kmax s b). lia.
Qed.

Lemma reducemin_vmin a b :
  length a = length b → a ≠ [] → numeric a → numeric b →
  key (reducemin (vmin a b)) = Z.min (key (reducemin a)) (key (reducemin b)).
Proof.
  intros Hl Ha Hna Hnb.
  assert (Hb : b ≠ []) by (destruct a, b; done).
  assert (Hab : vmin a b ≠ []) by (destruct a, b; done).
  destruct (reducemin_key a Hna Ha) as [H1 _].
  destruct (reducemin_key b Hnb Hb) as [H2 _].
  destruct (reducemin_key (vmin a b) (vmin_numeric a b Hna Hnb) Hab)
    as [H3 _].
  set (s := Z.max (key (reducemin (vmin a b)))
              (Z.max (key (reducemin a)) (key (reducemin b)))).
  specialize (H1 s). specialize (H2 s). specialize (H3 s).
  rewrite kmin_vmin in H3 by done. lia.
Qed.

Lemma reducemax_vmax a b :
  length a = length b → a ≠ [] → numeric a → numeric b →
  key (reducemax (vmax a b)) = Z.max (key (reducemax a)) (key (reducemax b)).
Proof.
  intros Hl Ha Hna Hnb.
  assert (Hb : b ≠ []) by (destruct a, b; done).
  assert (Hab : vmax a b ≠ []) by (destruct a, b; done).
  destruct (reducemax_key a Hna Ha) as [H1 _].
  destruct (reducemax_key b Hnb Hb) as [H2 _].
  destruct (reducemax_key (vmax a b) (vmax_numeric a b Hna Hnb) Hab)
    as [H3 _].
  set (s := Z.min (key (reducemax (vmax a b)))
              (Z.min (key (reducemax a)) (key (reducemax b)))).
  specialize (H1 s). specialize (H2 s). specialize (H3 s).
  rewrite kmax_vmax in H3 by done. lia.
Qed.

Lemma set1_length x : length (set1 x) = numlanes.
Proof. apply length_replicate. Qed.

Lemma set1_numeric x : isnan x = false → numeric (set1 x).
Proof. intros. by apply Forall_replicate. Qed.

Lemma set1_reducemin x :
  (0 < numlanes)%nat → isnan x = false → key (reducemin (set1 x)) = key x.
Proof.
  intros Hn Hx.
  assert (Hne : set1 x ≠ []).
  { intros He. pose proof (set1_length x) as Hl. rewrite He in Hl.
    simpl in Hl. lia. }
  destruct (reducemin_key (set1 x) (set1_numeric x Hx) Hne) as [H _].
  specialize (H (Z.max (key (reducemin (set1 x))) (key x))).
  assert (Hk : ∀ s n, (0 < n)%nat → kmin s (replicate n x) = Z.min s (key x)).
  { intros s n. induction n as [|[|n] IH]; intros Hp; simpl in *; lia. }
  unfold set1 in *. rewrite Hk in H by done. lia.
Qed.

Lemma set1_reducemax x :
  (0 < numlanes)%nat → isnan x = false → key (reducemax (set1 x)) = key x.
Proof.
  intros Hn Hx.
  assert (Hne : set1 x ≠ []).
  { intros He. pose proof (set1_length x) as Hl. rewrite He in Hl.
    simpl in Hl. lia. }
  destruct (reducemax_key (set1 x) (set1_numeric x Hx) Hne) as [H _].
  specialize (H (Z.min (key (reducemax (set1 x))) (key x))).
  assert (Hk : ∀ s n, (0 < n)%nat → kmax s (replicate n x) = Z.max s (key x)).
  { intros s n. induction n as [|[|n] IH]; intros Hp; simpl in *; lia. }
  unfold set1 in *. rewrite Hk in H by done. lia.
Qed.

(** The running extremes after a sequence of registers. *)
Lemma vmins_spec vs : ∀ mn,
  (0 < numlanes)%nat →
  Forall (λ v, length v = numlanes) vs → Forall numeric vs →
  length mn = numlanes → numeric mn →
  length (vmins vs mn) = numlanes ∧ numeric (vmins vs mn)
  ∧ key (reducemin (vmins vs mn)) = kmin (key (reducemin mn)) (concat vs).
Proof.
  induction vs as [|v vs IH]; intros mn Hn Hl Hnum Hm Hnm; [done |].
  inversion Hl as [|? ? Hv Hl']; inversion Hnum as [|? ? Hnv Hnum']; subst.
  assert (Hl1 : length (vmin v mn) = numlanes)
    by (rewrite vmin_length; congruence).
  destruct (IH (vmin v mn) Hn Hl' Hnum' Hl1 (vmin_numeric _ _ Hnv Hnm))
    as (H1 & H2 & H3).
  cbn [vmins fold_left concat]. fold (vmins vs (vmin v mn)).
  split; [done |]. split; [done |].
  rewrite H3, reducemin_vmin; try done; [| congruence | ].
  2:{ intros ->. simpl in Hv. lia. }
  assert (Hv0 : v ≠ []) by (intros ->; simpl in Hv; lia).
  destruct (reducemin_key v Hnv Hv0) as [Hk _].
  rewrite (kmin_perm _ (v ++ concat vs) (concat vs ++ v))
    by apply Permutation_app_comm.
  rewrite kmin_app, <- Hk. rewrite Z.min_comm. done.
Qed.

Lemma vmaxs_spec vs : ∀ mx,
  (0 < numlanes)%nat →
  Forall (λ v, length v = numlanes) vs → Forall numeric vs →
  length mx = numlanes → numeric mx →
  length (vmaxs vs mx) = numlanes ∧ numeric (vmaxs vs mx)
  ∧ key (reducemax (vmaxs vs mx)) = kmax (key (reducemax mx)) (concat vs).
Proof.
  induction vs as [|v vs IH]; intros mx Hn Hl Hnum Hm Hnm; [done |].
  inversion Hl as [|? ? Hv Hl']; inversion Hnum as [|? ? Hnv Hnum']; subst.
  assert (Hl1 : length (vmax v mx) = numlanes)
    by (rewrite vmax_length; congruence).
  destruct (IH (vmax v mx) Hn Hl' Hnum' Hl1 (vmax_numeric _ _ Hnv Hnm))
    as (H1 & H2 & H3).
  cbn [vmaxs fold_left concat]. fold (vmaxs vs (vmax v mx)).
  split; [done |]. split; [done |].
  rewrite H3, reducemax_vmax; try done; [| congruence | ].
  2:{ intros ->. simpl in Hv. lia. }
  assert (Hv0 : v ≠ []) by (intros ->; simpl in Hv; lia).
  destruct (reducemax_key v Hnv Hv0) as [Hk _].
  rewrite (kmax_perm _ (v ++ concat vs) (concat vs ++ v))
    by apply Permutation_app_comm.
  rewrite kmax_app, <- Hk. rewrite Z.max_comm. done.
Qed.

(** *** Registers laid out in memory *)

Lemma regs_of_length k G : length (regs_of k G) = k.
Proof. revert G. induction k as [|k IH]; intros G; simpl; [done | by rewrite IH]. Qed.

Lemma regs_of_concat k : ∀ G,
  length G = (k * numlanes)%nat → concat (regs_of k G) = G.
Proof.
  induction k as [|k IH]; intros G HG; simpl.
  { destruct G; [done | simpl in HG; lia]. }
  rewrite IH by (rewrite length_drop; lia). apply take_drop.
Qed.

Lemma regs_of_lanes k : ∀ G,
  length G = (k * numlanes)%nat →
  Forall (λ v, length v = numlanes) (regs_of k G).
Proof.
  induction k as [|k IH]; intros G HG; simpl; constructor.
  - rewrite length_take. lia.
  - apply IH. rewrite length_drop. lia.
Qed.

Lemma regs_of_numeric k : ∀ G, numeric G → Forall numeric (regs_of k G).
Proof.
  induction k as [|k IH]; intros G HG; simpl; constructor.
  - by apply Forall_take.
  - apply IH. by apply Forall_drop.
Qed.

Lemma loads_seq k : ∀ X G Y base,
  base = len X → length G = (k * numlanes)%nat →
  loads (X ++ G ++ Y) (map (λ j, base + Z.of_nat j * nl) (seq 0 k))
  = Ok (regs_of k G).
Proof.
  induction k as [|k IH]; intros X G Y base -> HG; [done |].
  cbn [seq map loads regs_of]. unfold loadu.
  rewrite <- (take_drop numlanes G) at 1.
  rewrite <- (assoc_L (++) (take numlanes G)).
  rewrite read_block_app; [| lia |].
  2:{ unfold nl. lens. lia. }
  rewrite bind_Ok.
  rewrite <- seq_shift, map_map.
  replace (X ++ G ++ Y)
    with ((X ++ take numlanes G) ++ drop numlanes G ++ Y).
  2:{ rewrite <- (assoc_L (++)), (assoc_L (++) (take _ _)), take_drop.
      done. }
  rewrite (map_ext _ (λ j, len (X ++ take numlanes G) + Z.of_nat j * nl)).
  - rewrite IH; [done | done |]. rewrite length_drop. lia.
  - intros j. unfold nl. lens. lia.
Qed.

Lemma loads_spec k X G Y (f : Z → Z) :
  length G = (k * numlanes)%nat →
  (∀ j, 0 ≤ j < Z.of_nat k → f j = len X + j * nl) →
  loads (X ++ G ++ Y) (map f (seqZ 0 (Z.of_nat k))) = Ok (regs_of k G).
Proof.
  intros HG Hf. rewrite <- (loads_seq k X G Y (len X)) by done.
  f_equal. unfold seqZ. rewrite Nat2Z.id.
  change (map f ((λ i : nat, Z.of_nat i + 0) <$> seq 0 k))
    with (map f (map (λ i : nat, Z.of_nat i + 0) (seq 0 k))).
  rewrite map_map. apply map_ext_in. intros j Hj.
  apply in_seq in Hj. rewrite Z.add_0_r. apply Hf. lia.
Qed.

End RegisterFacts.

(** ** The partition kernels *)

Section PartitionFacts.
Context {T : Type} `{V : zmm_vector T}.
Implicit Types A B L R M fl fr Um v : list T.

(** One register is split into the free cells at both ends of the window
    [fl ++ Um ++ fr]; the unread part [Um] is not touched. *)
Lemma partition_vec_spec A fl Um fr B v P mn mx unp :
  length v = numlanes →
  len fl + len Um + len fr = unp + nl →
  let lo := compress (knot_opmask (ge v (set1 P))) v in
  let hi := compress (ge v (set1 P)) v in
  (length lo ≤ length fl)%nat → (length hi ≤ length fr)%nat →
  len (A ++ fl ++ Um ++ fr ++ B) < 2 ^ 64 →
  partition_vec (A ++ fl ++ Um ++ fr ++ B) (len A) unp v (set1 P) mn mx
  = Ok (A ++ lo ++ drop (length lo) fl ++ Um
          ++ take (length fr - length hi) fr ++ hi ++ B,
        len A + len lo, sub64 unp nl, vmin v mn, vmax v mx).
Proof.
  intros Hv Hw lo hi Hlo Hhi Hlen.
  assert (Hm : length (ge v (set1 P)) = length v) by by apply ge_length.
  pose proof (compress_knot_length _ _ Hm) as Hsum.
  fold lo hi in Hsum.
  unfold partition_vec, mask_compressstoreu. fold lo hi.
  rewrite (write_block_gap_l (len A) A fl) by done.
  rewrite bind_Ok.
  unfold popcnt_u64. rewrite (popcnt_compress _ v Hm). fold hi.
  assert (Hpos : add64 (len A) (sub64 nl (len hi)) = len A + len lo).
  { unfold nl. lens. unwrap. lia. }
  rewrite Hpos.
  assert (Hre : A ++ lo ++ drop (length lo) fl ++ Um ++ fr ++ B
                = (A ++ lo ++ drop (length lo) fl ++ Um) ++ fr ++ B).
  { by rewrite <- !(assoc_L (++)). }
  rewrite Hre.
  rewrite (write_block_gap_r _ _ fr B hi); [| | done].
  - rewrite bind_Ok. by rewrite <- !(assoc_L (++)).
  - unfold nl in *. lens. unwrap. lia.
Qed.

Lemma lo_hi_length P v :
  length v = numlanes →
  (length (lo_of P v) + length (hi_of P v) = numlanes)%nat.
Proof.
  intros Hv. unfold lo_of, hi_of.
  rewrite compress_knot_length by (by apply ge_length). done.
Qed.

Lemma los_his_length P vs :
  Forall (λ v, length v = numlanes) vs →
  (length (los P vs) + length (his P vs) = length vs * numlanes)%nat.
Proof.
  induction 1 as [|v vs Hv _ IH]; simpl; [done |].
  rewrite !length_app. pose proof (lo_hi_length P v Hv). lia.
Qed.

Lemma los_his_perm P vs :
  Forall (λ v, length v = numlanes) vs →
  los P vs ++ his P vs ≡ₚ concat vs.
Proof.
  induction 1 as [|v vs Hv _ IH]; simpl; [done |].
  etrans; [| apply Permutation_app;
             [apply (compress_perm (ge v (set1 P)) v); by apply ge_length
             | exact IH]].
  fold (lo_of P v) (hi_of P v).
  rewrite <- !(assoc_L (++)). apply Permutation_app_head.
  rewrite (assoc_L (++) (los P vs)). apply Permutation_app_comm.
Qed.

Lemma los_below P vs :
  Forall (λ v, length v = numlanes) vs → Forall numeric vs →
  isnan P = false → Forall (λ x, key x < key P) (los P vs).
Proof.
  intros Hl Hn HP. induction Hl as [|v vs Hv _ IH]; simpl; [constructor |].
  inversion Hn; subst. apply Forall_app. split; [| by apply IH].
  by apply compress_ge_below.
Qed.

Lemma his_above P vs :
  Forall (λ v, length v = numlanes) vs → Forall numeric vs →
  isnan P = false → Forall (λ x, key P ≤ key x) (his P vs).
Proof.
  intros Hl Hn HP. induction Hl as [|v vs Hv _ IH]; simpl; [constructor |].
  inversion Hn; subst. apply Forall_app. split; [by apply IH |].
  by apply compress_ge_above.
Qed.

(** A sequence of registers is split into the free cells at both ends of
    the window [fl ++ Um ++ fr]. *)
Lemma partition_vecs_spec P vs : ∀ A fl Um fr B mn mx,
  Forall (λ v, length v = numlanes) vs →
  (length (los P vs) ≤ length fl)%nat →
  (length (his P vs) ≤ length fr)%nat →
  len (A ++ fl ++ Um ++ fr ++ B) < 2 ^ 64 →
  partition_vecs (A ++ fl ++ Um ++ fr ++ B) (len A)
                 (wrap (len fl + len Um + len fr - nl)) vs (set1 P) mn mx
  = Ok (A ++ los P vs ++ drop (length (los P vs)) fl ++ Um
          ++ take (length fr - length (his P vs)) fr ++ his P vs ++ B,
        len A + len (los P vs),
        wrap (len fl + len Um + len fr - nl - Z.of_nat (length vs) * nl),
        vmins vs mn, vmaxs vs mx).
Proof.
  induction vs as [|v vs IH]; intros A fl Um fr B mn mx Hvs Hlo Hhi Hlen.
  { simpl. rewrite Nat.sub_0_r, take_ge by lia.
    tuple_eq; [lens; lia | f_equal; lia]. }
  inversion Hvs as [|? ? Hv Hvs']; subst.
  pose proof (lo_hi_length P v Hv) as Hsum.
  cbn [los his] in Hlo, Hhi. rewrite length_app in Hlo, Hhi.
  cbn [partition_vecs].
  assert (Hw : wrap (len fl + len Um + len fr - nl)
               = len fl + len Um + len fr - nl).
  { revert Hlen. unfold nl. lens. intros. unwrap. lia. }
  rewrite Hw.
  rewrite partition_vec_spec; [| done | lia | fold (lo_of P v); lia
                               | fold (hi_of P v); lia | done].
  fold (lo_of P v) (hi_of P v). rewrite bind_Ok. cbn iota beta.
  set (fl' := drop (length (lo_of P v)) fl).
  set (fr' := take (length fr - length (hi_of P v)) fr).
  assert (Hfl' : length fl' = (length fl - length (lo_of P v))%nat)
    by (unfold fl'; by rewrite length_drop).
  assert (Hfr' : length fr' = (length fr - length (hi_of P v))%nat)
    by (unfold fr'; rewrite length_take; lia).
  replace (A ++ lo_of P v ++ fl' ++ Um ++ fr' ++ hi_of P v ++ B)
    with ((A ++ lo_of P v) ++ fl' ++ Um ++ fr' ++ (hi_of P v ++ B))
    by (by rewrite <- !(assoc_L (++))).
  replace (len A + len (lo_of P v)) with (len (A ++ lo_of P v))
    by (lens; lia).
  replace (sub64 (len fl + len Um + len fr - nl) nl)
    with (wrap (len fl' + len Um + len fr' - nl)).
  2:{ unfold sub64. f_equal. unfold nl in *. lens. lia. }
  rewrite IH; [| done | lia | lia |].
  2:{ revert Hlen. unfold nl in *. lens. lia. }
  cbn [los his vmins vmaxs fold_left length].
  unfold fl', fr'. rewrite drop_drop, take_take.
  tuple_eq; try reflexivity.
  - rewrite <- !(assoc_L (++)), !length_app, length_take.
    repeat (f_equal; try lia).
  - lens. lia.
  - f_equal. unfold nl in *. lens. lia.
Qed.

Lemma los_app P vs1 vs2 : los P (vs1 ++ vs2) = los P vs1 ++ los P vs2.
Proof.
  induction vs1 as [|v vs1 IH]; simpl; [done |].
  by rewrite IH, (assoc_L (++)).
Qed.

Lemma his_app P vs1 vs2 : his P (vs1 ++ vs2) = his P vs2 ++ his P vs1.
Proof.
  induction vs1 as [|v vs1 IH]; simpl; [by rewrite app_nil_r |].
  by rewrite IH, (assoc_L (++)).
Qed.

Lemma vmins_app vs1 vs2 mn : vmins (vs1 ++ vs2) mn = vmins vs2 (vmins vs1 mn).
Proof. unfold vmins. apply fold_left_app. Qed.

Lemma vmaxs_app vs1 vs2 mx : vmaxs (vs1 ++ vs2) mx = vmaxs vs2 (vmaxs vs1 mx).
Proof. unfold vmaxs. apply fold_left_app. Qed.

Lemma split_first_block (M : list T) (g k : nat) :
  length M = (S k * g)%nat →
  ∃ G M', M = G ++ M' ∧ length G = g ∧ length M' = (k * g)%nat.
Proof.
  intros HM. exists (take g M), (drop g M).
  rewrite take_drop, length_take, length_drop. repeat split; lia.
Qed.

Lemma split_first_block_gen (M : list T) (a b : nat) :
  length M = (a + b)%nat →
  ∃ G M', M = G ++ M' ∧ length G = a ∧ length M' = b.
Proof.
  intros HM. exists (take a M), (drop a M).
  rewrite take_drop, length_take, length_drop. repeat split; lia.
Qed.

Lemma split_last_block_gen (M : list T) (a b : nat) :
  length M = (a + b)%nat →
  ∃ M' G, M = M' ++ G ∧ length M' = a ∧ length G = b.
Proof.
  intros HM. exists (take a M), (drop a M).
  rewrite take_drop, length_take, length_drop. repeat split; lia.
Qed.

Lemma split_last_block (M : list T) (g k : nat) :
  length M = (S k * g)%nat →
  ∃ M' G, M = M' ++ G ∧ length G = g ∧ length M' = (k * g)%nat.
Proof.
  intros HM. exists (take (k * g) M), (drop (k * g) M).
  rewrite take_drop, length_take, length_drop. repeat split; lia.
Qed.

(** The register loop: [Um] is the part of the range not yet loaded, [fl]
    and [fr] the cells already loaded and not yet overwritten. *)
Lemma unrolled_loop_spec P U (HU : (0 < U)%nat) (HN : (0 < numlanes)%nat) :
  ∀ k fuel A fl Um fr B mn mx
    left right l_store unp,
  (k ≤ fuel)%nat →
  length Um = (k * (U * numlanes))%nat →
  (length fl + length fr = 2 * (U * numlanes))%nat →
  len (A ++ fl ++ Um ++ fr ++ B) < 2 ^ 64 →
  left = len A + len fl → right = len A + len fl + len Um →
  l_store = len A → unp = wrap (len fl + len Um + len fr - nl) →
  ∃ W vs,
    unrolled_loop U fuel (A ++ fl ++ Um ++ fr ++ B) left right l_store unp
                  (set1 P) mn mx
    = Ok (A ++ los P vs ++ W ++ his P vs ++ B, len A + len (los P vs),
          wrap (len W - nl), vmins vs mn, vmaxs vs mx)
    ∧ length W = (2 * (U * numlanes))%nat
    ∧ concat vs ≡ₚ Um
    ∧ Forall (λ v, length v = numlanes) vs.
Proof.
  remember (U * numlanes)%nat as g eqn:Hg.
  assert (HgZ : Z.of_nat U * nl = Z.of_nat g) by (unfold nl; lia).
  induction k as [|k IH];
    intros fuel A fl Um fr B mn mx left right l_store unp
           Hfuel HUm Hfree Hlen -> -> -> ->.
  { destruct Um; [| simpl in HUm; lia].
    exists (fl ++ fr), [].
    assert (Hz : sub64 (len A + len fl + @len T []) (len A + len fl) = 0).
    { unfold sub64. replace (len A + len fl + @len T [] - (len A + len fl))
        with 0 by (lens; lia). done. }
    split; [| split; [rewrite length_app; lia | split; [done | constructor]]].
    destruct fuel; cbn [unrolled_loop]; rewrite Hz; cbn [Z.eqb].
    all: simpl; rewrite <- !(assoc_L (++)); tuple_eq; try (lens; lia).
    all: f_equal; lens; lia. }
  destruct fuel as [|fuel]; [lia |].
  cbn [unrolled_loop].
  assert (Hgpos : (0 < g)%nat) by (subst g; lia).
  assert (Hgn : (numlanes ≤ g)%nat) by (subst g; nia).
  assert (Hnz : (sub64 (len A + len fl + len Um) (len A + len fl) =? 0)
                = false).
  { apply Z.eqb_neq. revert Hlen. lens. intros. unwrap. lia. }
  rewrite Hnz.
  assert (Hc1 : sub64 (add64 (add64 (len A)
                         (wrap (len fl + len Um + len fr - nl))) nl)
                      (len A + len fl + len Um) = len fr).
  { revert Hlen. unfold nl in *. lens. intros. unwrap. lia. }
  assert (Hc2 : sub64 (len A + len fl) (len A) = len fl).
  { revert Hlen. lens. intros. unwrap. lia. }
  rewrite Hc1, Hc2.
  destruct (Z.ltb_spec (len fr) (len fl)) as [Hside|Hside].
  - (* fewer free cells on the right: load the last group of [Um] *)
    destruct (split_last_block Um g k HUm) as (Um' & G & -> & HG & HUm').
    assert (Hvs : Forall (λ v, length v = numlanes) (regs_of U G))
      by (apply regs_of_lanes; lia).
    assert (Hcat : concat (regs_of U G) = G) by (apply regs_of_concat; lia).
    assert (Hvl : length (regs_of U G) = U) by apply regs_of_length.
    remember (regs_of U G) as vs eqn:Evs.
    pose proof (los_his_length P vs Hvs) as Hlh. rewrite Hvl, <- Hg in Hlh.
    replace (A ++ fl ++ (Um' ++ G) ++ fr ++ B)
      with ((A ++ fl ++ Um') ++ G ++ (fr ++ B))
      by (by rewrite <- !(assoc_L (++))).
    rewrite (loads_spec U (A ++ fl ++ Um') G (fr ++ B)); [| lia |].
    2:{ intros j Hj.
        assert (Hj1 : 0 ≤ j * nl ≤ Z.of_nat g - nl) by (unfold nl in *; nia).
        revert Hlen. unfold nl in *. lens. intros. unwrap. lia. }
    rewrite bind_Ok, <- Evs.
    replace ((A ++ fl ++ Um') ++ G ++ (fr ++ B))
      with (A ++ fl ++ Um' ++ (G ++ fr) ++ B)
      by (by rewrite <- !(assoc_L (++))).
    replace (wrap (len fl + len (Um' ++ G) + len fr - nl))
      with (wrap (len fl + len Um' + len (G ++ fr) - nl))
      by (f_equal; lens; lia).
    rewrite partition_vecs_spec; [| done | | |].
    2:{ revert Hside. lens. lia. }
    2:{ rewrite length_app. lia. }
    2:{ revert Hlen. lens. lia. }
    rewrite bind_Ok. cbn iota beta.
    set (fl' := drop (length (los P vs)) fl).
    set (fr' := take (length (G ++ fr) - length (his P vs)) (G ++ fr)).
    assert (Hfl' : length fl' = (length fl - length (los P vs))%nat)
      by (unfold fl'; by rewrite length_drop).
    assert (Hfr' : length fr'
                   = (length G + length fr - length (his P vs))%nat).
    { unfold fr'. rewrite length_take, length_app. lia. }
    replace (A ++ los P vs ++ fl' ++ Um' ++ fr' ++ his P vs ++ B)
      with ((A ++ los P vs) ++ fl' ++ Um' ++ fr' ++ (his P vs ++ B))
      by (by rewrite <- !(assoc_L (++))).
    edestruct (IH fuel (A ++ los P vs) fl' Um' fr' (his P vs ++ B)
                 (vmins vs mn) (vmaxs vs mx))
      as (W & vs' & Heq & HW & Hperm & Hvs'); cycle -1.
    + exists W, (vs ++ vs').
      rewrite Heq, los_app, his_app, vmins_app, vmaxs_app.
      split; [rewrite <- !(assoc_L (++)); tuple_eq; lens; lia |].
      split; [done |]. split; [| by apply Forall_app].
      rewrite concat_app, Hperm, Hcat. apply Permutation_app_comm.
    + unfold nl in *; side.
    + unfold nl in *; side.
    + unfold nl in *; side.
    + unfold nl in *; side.
    + unfold nl in *; side.
    + unfold nl in *; side.
    + unfold nl in *; side.
    + unfold nl in *; side.
  - (* otherwise: load the first group of [Um] *)
    destruct (split_first_block Um g k HUm) as (G & Um' & -> & HG & HUm').
    assert (Hvs : Forall (λ v, length v = numlanes) (regs_of U G))
      by (apply regs_of_lanes; lia).
    assert (Hcat : concat (regs_of U G) = G) by (apply regs_of_concat; lia).
    assert (Hvl : length (regs_of U G) = U) by apply regs_of_length.
    remember (regs_of U G) as vs eqn:Evs.
    pose proof (los_his_length P vs Hvs) as Hlh. rewrite Hvl, <- Hg in Hlh.
    replace (A ++ fl ++ (G ++ Um') ++ fr ++ B)
      with ((A ++ fl) ++ G ++ (Um' ++ fr ++ B))
      by (by rewrite <- !(assoc_L (++))).
    rewrite (loads_spec U (A ++ fl) G (Um' ++ fr ++ B)); [| lia |].
    2:{ intros j Hj.
        assert (Hj1 : 0 ≤ j * nl ≤ Z.of_nat g - nl) by (unfold nl in *; nia).
        revert Hlen. unfold nl in *. lens. intros. unwrap. lia. }
    rewrite bind_Ok, <- Evs.
    replace ((A ++ fl) ++ G ++ (Um' ++ fr ++ B))
      with (A ++ (fl ++ G) ++ Um' ++ fr ++ B)
      by (by rewrite <- !(assoc_L (++))).
    replace (wrap (len fl + len (G ++ Um') + len fr - nl))
      with (wrap (len (fl ++ G) + len Um' + len fr - nl))
      by (f_equal; lens; lia).
    rewrite partition_vecs_spec; [| done | | |].
    2:{ rewrite length_app. lia. }
    2:{ revert Hside. lens. lia. }
    2:{ revert Hlen. lens. lia. }
    rewrite bind_Ok. cbn iota beta.
    set (fl' := drop (length (los P vs)) (fl ++ G)).
    set (fr' := take (length fr - length (his P vs)) fr).
    assert (Hfl' : length fl'
                   = (length fl + length G - length (los P vs))%nat).
    { unfold fl'. rewrite length_drop, length_app. lia. }
    assert (Hfr' : length fr' = (length fr - length (his P vs))%nat).
    { unfold fr'. rewrite length_take. lia. }
    replace (A ++ los P vs ++ fl' ++ Um' ++ fr' ++ his P vs ++ B)
      with ((A ++ los P vs) ++ fl' ++ Um' ++ fr' ++ (his P vs ++ B))
      by (by rewrite <- !(assoc_L (++))).
    edestruct (IH fuel (A ++ los P vs) fl' Um' fr' (his P vs ++ B)
                 (vmins vs mn) (vmaxs vs mx))
      as (W & vs' & Heq & HW & Hperm & Hvs'); cycle -1.
    + exists W, (vs ++ vs').
      rewrite Heq, los_app, his_app, vmins_app, vmaxs_app.
      split; [rewrite <- !(assoc_L (++)); tuple_eq; lens; lia |].
      split; [done |]. split; [| by apply Forall_app].
      by rewrite concat_app, Hperm, Hcat.
    + unfold nl in *; side.
    + unfold nl in *; side.
    + unfold nl in *; side.
    + unfold nl in *; side.
    + unfold nl in *; side.
    + unfold nl in *; side.
    + unfold nl in *; side.
    + unfold nl in *; side.
Qed.

Lemma hif_his P vs : hif P vs ≡ₚ his P vs.
Proof.
  induction vs as [|v vs IH]; simpl; [done |].
  rewrite IH. apply Permutation_app_comm.
Qed.

Lemma hif_app P vs1 vs2 : hif P (vs1 ++ vs2) = hif P vs1 ++ hif P vs2.
Proof.
  induction vs1 as [|v vs1 IH]; simpl; [done |].
  by rewrite IH, (assoc_L (++)).
Qed.

(** The leftover registers: low parts go to the array from [leftStore] on,
    high parts to the scratch buffer; [J] is the part of the array already
    loaded and not yet overwritten. *)
Lemma leftover_loop_spec P : ∀ vs A' J B' Hb Fb i left mn mx,
  Forall (λ v, length v = numlanes) vs →
  left + i * nl = len A' + len J → 0 ≤ left → 0 ≤ i →
  (length (hif P vs) ≤ length Fb)%nat →
  len (A' ++ J ++ concat vs ++ B') < 2 ^ 64 →
  ∃ J',
    leftover_loop (length vs) i (A' ++ J ++ concat vs ++ B') (Hb ++ Fb) left
                  (len A') (len Hb) (set1 P) mn mx
    = Ok (A' ++ los P vs ++ J' ++ B',
          Hb ++ hif P vs ++ drop (length (hif P vs)) Fb,
          len A' + len (los P vs), len Hb + len (hif P vs),
          vmins vs mn, vmaxs vs mx)
    ∧ length J' = (length J + length (hif P vs))%nat.
Proof.
  induction vs as [|v vs IH];
    intros A' J B' Hb Fb i left mn mx Hvs Hpos Hl0 Hi0 Hcap Hlen.
  { exists J. simpl. split; [| lia]. tuple_eq; lens; lia. }
  inversion Hvs as [|? ? Hv Hvs']; subst.
  pose proof (lo_hi_length P v Hv) as Hsum.
  cbn [hif] in Hcap. rewrite length_app in Hcap. cbn [concat] in Hlen.
  assert (Hm : length (ge v (set1 P)) = length v) by by apply ge_length.
  cbn [length leftover_loop concat]. unfold loadu.
  replace (A' ++ J ++ (v ++ concat vs) ++ B')
    with ((A' ++ J) ++ v ++ (concat vs ++ B'))
    by (by rewrite <- !(assoc_L (++))).
  rewrite read_block_app.
  2:{ revert Hlen. unfold nl in *. lens. intros. unwrap. lia. }
  2:{ lens. lia. }
  rewrite bind_Ok. unfold mask_compressstoreu.
  fold (lo_of P v) (hi_of P v).
  replace ((A' ++ J) ++ v ++ (concat vs ++ B'))
    with (A' ++ (J ++ v) ++ (concat vs ++ B'))
    by (by rewrite <- !(assoc_L (++))).
  rewrite (write_block_gap_l (len A') A' (J ++ v)); [| done |].
  2:{ rewrite length_app. lia. }
  rewrite bind_Ok.
  replace (Hb ++ Fb) with (Hb ++ Fb ++ []) by (by rewrite app_nil_r).
  rewrite (write_block_gap_l (len Hb) Hb Fb []); [| done | lia].
  rewrite bind_Ok, app_nil_r.
  unfold popcnt_u64. rewrite (popcnt_compress _ v Hm). fold (hi_of P v).
  set (J1 := drop (length (lo_of P v)) (J ++ v)).
  assert (HJ1 : length J1 = (length J + length (hi_of P v))%nat).
  { unfold J1. rewrite length_drop, length_app. lia. }
  destruct (IH (A' ++ lo_of P v) J1 B' (Hb ++ hi_of P v)
              (drop (length (hi_of P v)) Fb) (i + 1) left
              (vmin v mn) (vmax v mx))
    as (J' & Heq & HJ'); try done.
  { revert Hpos. unfold nl in *. lens. lia. }
  { lia. }
  { rewrite length_drop. lia. }
  { revert Hlen. lens. lia. }
  exists J'. split; [| cbn [hif]; rewrite length_app; lia].
  replace (A' ++ lo_of P v ++ J1 ++ concat vs ++ B')
    with ((A' ++ lo_of P v) ++ J1 ++ concat vs ++ B')
    by (by rewrite <- !(assoc_L (++))).
  replace (add64 (len A') (nl - len (hi_of P v)))
    with (len (A' ++ lo_of P v)).
  2:{ revert Hlen. unfold nl in *. lens. intros. unwrap. lia. }
  replace (len Hb + len (hi_of P v)) with (len (Hb ++ hi_of P v))
    by (lens; lia).
  rewrite (assoc_L (++) Hb (hi_of P v)).
  rewrite Heq. cbn [los hif vmins vmaxs fold_left].
  rewrite drop_drop, <- !(assoc_L (++)).
  tuple_eq; try reflexivity; try (lens; lia).
  do 3 f_equal. rewrite length_app. done.
Qed.

(** With one register per iteration the two register loops coincide. *)
Lemma main_loop_unrolled pv fuel : ∀ arr left right l_store unp mn mx,
  0 ≤ left < 2 ^ 64 →
  main_loop fuel arr left right l_store unp pv mn mx
  = unrolled_loop 1 fuel arr left right l_store unp pv mn mx.
Proof.
  induction fuel as [|fuel IH]; intros arr left right l_store unp mn mx Hl;
    cbn [main_loop unrolled_loop]; [done |].
  change (Z.of_nat 1) with 1. rewrite Z.mul_1_l.
  change (seqZ 0 1) with [0]. cbn [map loads].
  destruct (sub64 right left =? 0); [done |].
  destruct (_ <? _).
  - replace (add64 (sub64 right nl) (0 * nl)) with (sub64 right nl).
    2:{ unfold add64. rewrite Z.mul_0_l, Z.add_0_r.
        symmetry. apply wrap_small, wrap_range. }
    destruct (loadu arr (sub64 right nl)) as [v| |]; try done.
    rewrite !bind_Ok. cbn [partition_vecs].
    destruct (partition_vec _ _ _ _ _ _ _) as [[[[[a l] u] m1] m2]| |];
      try done.
    rewrite !bind_Ok. by apply IH.
  - replace (add64 left (0 * nl)) with left.
    2:{ unfold add64. rewrite Z.mul_0_l, Z.add_0_r.
        symmetry. by apply wrap_small. }
    destruct (loadu arr left) as [v| |]; try done.
    rewrite !bind_Ok. cbn [partition_vecs].
    destruct (partition_vec _ _ _ _ _ _ _) as [[[[[a l] u] m1] m2]| |];
      try done.
    rewrite !bind_Ok. apply IH. apply wrap_range.
Qed.

(** The registers kept for the end fill the window exactly. *)
Lemma flush_spec P vs A W B mn mx :
  Forall (λ v, length v = numlanes) vs →
  length W = (length vs * numlanes)%nat →
  len (A ++ W ++ B) < 2 ^ 64 →
  partition_vecs (A ++ W ++ B) (len A) (wrap (len W - nl)) vs (set1 P) mn mx
  = Ok (A ++ los P vs ++ his P vs ++ B, len A + len (los P vs),
        wrap (len W - nl - Z.of_nat (length vs) * nl),
        vmins vs mn, vmaxs vs mx).
Proof.
  intros Hvs HW Hlen.
  pose proof (los_his_length P vs Hvs) as Hlh.
  set (c := length (los P vs)).
  replace (A ++ W ++ B) with (A ++ take c W ++ [] ++ drop c W ++ B).
  2:{ simpl. by rewrite (assoc_L (++) (take c W)), take_drop. }
  replace (wrap (len W - nl))
    with (wrap (len (take c W) + @len T [] + len (drop c W) - nl))
    by (f_equal; lens; lia).
  rewrite partition_vecs_spec; [| done | | |].
  - rewrite drop_ge by (rewrite length_take; lia).
    replace (length (drop c W) - length (his P vs))%nat with 0%nat
      by (rewrite length_drop; lia).
    simpl. tuple_eq. f_equal. lens. lia.
  - rewrite length_take. lia.
  - rewrite length_drop. lia.
  - simpl. rewrite (assoc_L (++) (take c W)), take_drop. done.
Qed.

(** The scalar loop moves [i] elements of the range to its two ends. *)
Lemma align_loop_spec P i : ∀ A M B s b,
  (i ≤ length M)%nat → numeric M → isnan P = false →
  isnan s = false → isnan b = false →
  len (A ++ M ++ B) < 2 ^ 64 →
  ∃ L M' R s' b',
    align_loop i (A ++ M ++ B) (len A) (len A + len M) P s b
    = Ok (A ++ L ++ M' ++ R ++ B, len A + len L, len A + len L + len M',
          s', b')
    ∧ L ++ M' ++ R ≡ₚ M
    ∧ (length M' + i = length M)%nat
    ∧ Forall (λ x, key x < key P) L
    ∧ Forall (λ x, key P ≤ key x) R
    ∧ key s' = kmin (key s) (L ++ R) ∧ isnan s' = false
    ∧ key b' = kmax (key b) (L ++ R) ∧ isnan b' = false.
Proof.
  induction i as [|i IH]; intros A M B s b Hi HM HP Hs Hb Hlen.
  { exists [], M, [], s, b. simpl. rewrite app_nil_r.
    repeat split; try done; try constructor; try lia.
    tuple_eq; lens; lia. }
  destruct M as [|x M1]; [simpl in Hi; lia |].
  inversion HM as [|? ? Hx HM1]; subst.
  destruct (std_min_key s x Hs Hx) as [Hks Hns].
  destruct (std_max_key b x Hb Hx) as [Hkb Hnb].
  change ((x :: M1) ++ B) with (x :: M1 ++ B) in *.
  cbn [align_loop]. rewrite (read_app (len A) A x) by done. rewrite bind_Ok.
  unfold comparison_func at 1. rewrite (lt_numeric x P) by done.
  destruct (Z.ltb_spec (key x) (key P)) as [Hlt|Hge]; cbn [negb].
  - (* x < pivot: it stays, left moves on *)
    assert (Hi' : (i ≤ length M1)%nat) by (simpl in Hi; lia).
    assert (Hlen' : len ((A ++ [x]) ++ M1 ++ B) < 2 ^ 64)
      by (by rewrite <- (assoc_L (++))).
    destruct (IH (A ++ [x]) M1 B _ _ Hi' HM1 HP Hns Hnb Hlen')
      as (L & M' & R & s' & b' & Heq & Hperm & Hl & HL & HR & Hs' & Hns'
          & Hb' & Hnb').
    exists (x :: L), M', R, s', b'.
    assert (Hl1 : add64 (len A) 1 = len (A ++ [x])).
    { revert Hlen. lens. intros. unwrap. lia. }
    rewrite Hl1.
    replace (len A + len (x :: M1)) with (len (A ++ [x]) + len M1)
      by (lens; lia).
    rewrite <- (assoc_L (++)) in Heq. simpl in Heq. rewrite Heq.
    rewrite <- (assoc_L (++)). simpl.
    split; [tuple_eq; lens; lia |].
    split; [by constructor |].
    split; [simpl; lia |].
    split; [by constructor |].
    split; [done |].
    split; [| split; [done |]; split; [| done]].
    + rewrite Hs', Hks. simpl. fold (kmin (key s) (L ++ R)).
      rewrite Z.min_comm, kmin_seed. done.
    + rewrite Hb', Hkb. simpl. fold (kmax (key b) (L ++ R)).
      rewrite Z.max_comm, kmax_seed. done.
  - (* x >= pivot: it is exchanged with the last element of the range *)
    assert (Hr1 : sub64 (len A + len (x :: M1)) 1 = len A + len M1).
    { revert Hlen. lens. intros. unwrap. lia. }
    rewrite Hr1.
    destruct (snoc_case M1) as [-> | (M2 & y & ->)].
    + change ([] ++ B) with B in *.
      replace (len A + len []) with (len A) by (lens; lia).
      rewrite (swap_same A x B) by done. rewrite bind_Ok.
      simpl in Hi. assert (i = 0%nat) by lia. subst i.
      exists [], [], [x], (std_min s x), (std_max b x).
      cbn [align_loop app]. rewrite Hks, Hkb. simpl.
      split; [tuple_eq; lens; lia |].
      split; [done |]. split; [done |].
      split; [constructor |].
      split; [by repeat constructor |].
      repeat split; try done; lia.
    + rewrite <- (assoc_L (++) M2 [y] B) in *.
      change ([y] ++ B) with (y :: B) in *.
      rewrite (swap_far A x M2 y B) by (lens; lia). rewrite bind_Ok.
      assert (HM2 : numeric (y :: M2)).
      { apply Forall_app in HM1 as [H1 H2]. inversion H2; subst.
        by constructor. }
      assert (Hi' : (i ≤ length (y :: M2))%nat).
      { simpl in Hi |- *. rewrite length_app in Hi. simpl in Hi. lia. }
      assert (Hlen' : len (A ++ (y :: M2) ++ x :: B) < 2 ^ 64).
      { revert Hlen. lens. simpl. lia. }
      destruct (IH A (y :: M2) (x :: B) _ _ Hi' HM2 HP Hns Hnb Hlen')
        as (L & M' & R & s' & b' & Heq & Hperm & Hl & HL & HR & Hs' & Hns'
            & Hb' & Hnb').
      exists L, M', (R ++ [x]), s', b'.
      replace (len A + len (M2 ++ [y])) with (len A + len (y :: M2))
        by (lens; lia).
      simpl in Heq |- *. rewrite Heq.
      rewrite <- !(assoc_L (++)). simpl.
      split; [done |].
      split.
      { rewrite !(assoc_L (++)), <- Permutation_cons_append.
        rewrite <- !(assoc_L (++)), Hperm.
        by rewrite <- Permutation_cons_append. }
      split; [revert Hl; rewrite length_app; simpl; lia |].
      split; [done |].
      split; [apply Forall_app; split; [done | by repeat constructor] |].
      split; [| split; [done |]; split; [| done]].
      * rewrite Hs', Hks, (kmin_perm _ (L ++ R ++ [x]) (x :: L ++ R)).
        -- simpl. fold (kmin (key s) (L ++ R)).
           rewrite Z.min_comm, kmin_seed. done.
        -- rewrite !(assoc_L (++)). by rewrite <- Permutation_cons_append.
      * rewrite Hb', Hkb, (kmax_perm _ (L ++ R ++ [x]) (x :: L ++ R)).
        -- simpl. fold (kmax (key b) (L ++ R)).
           rewrite Z.max_comm, kmax_seed. done.
        -- rewrite !(assoc_L (++)). by rewrite <- Permutation_cons_append.
Qed.

Lemma split_ends (M : list T) (g k : nat) :
  length M = (S (S k) * g)%nat →
  ∃ G1 M' G2, M = G1 ++ M' ++ G2 ∧ length G1 = g ∧ length G2 = g
              ∧ length M' = (k * g)%nat.
Proof.
  intros HM.
  destruct (split_first_block M g (S k) HM) as (G1 & M1 & -> & H1 & HM1).
  destruct (split_last_block M1 g k HM1) as (M' & G2 & -> & H2 & HM').
  by exists G1, M', G2.
Qed.

Lemma partition_vecs_two {C} arr l u a b pv mn mx
    (k : list T * Z * Z * list T * list T → result C) :
  (partition_vec arr l u a pv mn mx
   ≫= λ '(arr, l, u, mn, mx), partition_vec arr l u b pv mn mx ≫= k)
  = partition_vecs arr l u [a; b] pv mn mx ≫= k.
Proof.
  cbn [partition_vecs].
  destruct (partition_vec arr l u a pv mn mx) as [[[[[a1 l1] u1] m1] x1]| |];
    try done.
  rewrite !bind_Ok.
  by destruct (partition_vec a1 l1 u1 b pv m1 x1)
    as [[[[[a2 l2] u2] m2] x2]| |].
Qed.

Lemma partition_vecs_app {C} pv vs1 vs2
    (k : list T * Z * Z * list T * list T → result C) : ∀ arr l u mn mx,
  (partition_vecs arr l u vs1 pv mn mx
   ≫= λ '(arr, l, u, mn, mx), partition_vecs arr l u vs2 pv mn mx ≫= k)
  = partition_vecs arr l u (vs1 ++ vs2) pv mn mx ≫= k.
Proof.
  induction vs1 as [|v vs1 IH]; intros arr l u mn mx; [done |].
  cbn [partition_vecs app].
  destruct (partition_vec arr l u v pv mn mx) as [[[[[a1 l1] u1] m1] x1]| |];
    try done.
  rewrite !bind_Ok. apply IH.
Qed.

Lemma partition_vec_flush P v A W B mn mx :
  length v = numlanes → length W = numlanes →
  len (A ++ W ++ B) < 2 ^ 64 →
  ∃ u, partition_vec (A ++ W ++ B) (len A) (wrap (len W - nl)) v (set1 P)
                     mn mx
       = Ok (A ++ lo_of P v ++ hi_of P v ++ B, len A + len (lo_of P v), u,
             vmin v mn, vmax v mx).
Proof.
  intros Hv HW Hlen.
  assert (H := flush_spec P [v] A W B mn mx).
  cbn [partition_vecs] in H.
  specialize (H ltac:(by repeat constructor) ltac:(simpl; lia) Hlen).
  destruct (partition_vec _ _ _ _ _ _ _) as [[[[[a l] u] m1] m2]| |];
    simpl in H; [| discriminate..].
  injection H as -> -> _ -> ->.
  eexists. simpl. rewrite !app_nil_r. reflexivity.
Qed.

Lemma align_count (M : list T) (A : list T) :
  (0 < numlanes)%nat → len A + len M < 2 ^ 64 →
  Z.to_nat (sub64 (len A + len M) (len A) mod nl)
  = (length M mod numlanes)%nat.
Proof.
  intros Hn Hlen. unfold sub64.
  replace (len A + len M - len A) with (len M) by lia.
  rewrite wrap_small by (lens; lia).
  unfold nl, len. rewrite <- Nat2Z.inj_mod. apply Nat2Z.id.
Qed.

(** The single-array kernel on the range [M] of the array [A ++ M ++ B]. *)
Lemma partition_avx512_spec A M B P s b :
  (0 < numlanes)%nat → numeric M → isnan P = false →
  isnan s = false → isnan b = false →
  len (A ++ M ++ B) < 2 ^ 64 →
  ∃ L R s' b',
    partition_avx512 (A ++ M ++ B) (len A) (len A + len M) P s b
    = Ok (A ++ L ++ R ++ B, len A + len L, s', b')
    ∧ L ++ R ≡ₚ M
    ∧ Forall (λ x, key x < key P) L
    ∧ Forall (λ x, key P ≤ key x) R
    ∧ ((length M / numlanes)%nat ≠ 1%nat →
       key s' = kmin (key s) M ∧ isnan s' = false
       ∧ key b' = kmax (key b) M ∧ isnan b' = false).
Proof.
  intros Hn HM HP Hs Hb Hlen.
  unfold partition_avx512.
  rewrite align_count by (revert Hlen; lens; lia).
  pose proof (Nat.div_mod_eq (length M) numlanes) as Hdm.
  pose proof (Nat.mod_upper_bound (length M) numlanes ltac:(lia)) as Hmod.
  set (q := (length M / numlanes)%nat) in *.
  set (i := (length M mod numlanes)%nat) in *.
  destruct (align_loop_spec P i A M B s b)
    as (L0 & M' & R0 & s1 & b1 & Heq & Hperm & HlM' & HL0 & HR0 & Hs1 & Hns1
        & Hb1 & Hnb1); try done;
    [unfold i; apply Nat.Div0.mod_le |].
  rewrite Heq, bind_Ok. cbn iota beta.
  assert (HM'n : numeric M').
  { unfold numeric in *. rewrite <- Hperm in HM.
    by apply Forall_app in HM as (_ & [? _]%Forall_app). }
  assert (Hlen' : len (A ++ L0 ++ M' ++ R0 ++ B) < 2 ^ 64).
  { revert Hlen. apply Permutation_length in Hperm. revert Hperm. lens.
    lia. }
  assert (HlM : length M' = (numlanes * q)%nat) by lia.
  assert (Hext : key s1 = kmin (key s) (L0 ++ R0) → L0 ++ M' ++ R0 ≡ₚ M →
                 M' = [] → key s1 = kmin (key s) M) by
    (intros H1 H2 ->; by rewrite <- (kmin_perm _ _ _ H2)).
  destruct q as [|[|q]].
  - (* nothing is left for the registers *)
    destruct M'; [| simpl in HlM; lia].
    replace (len A + len L0 + @len T []) with (len A + len L0) by (lens; lia).
    rewrite Z.eqb_refl. simpl in Hperm |- *.
    exists L0, R0, s1, b1. repeat split; try done.
    + by rewrite <- (kmin_perm _ _ _ Hperm).
    + by rewrite <- (kmax_perm _ _ _ Hperm).
  - (* exactly one register *)
    assert (HM'1 : length M' = numlanes) by lia.
    replace (len A + len L0 =? len A + len L0 + len M') with false
      by (symmetry; apply Z.eqb_neq; lens; lia).
    replace (sub64 (len A + len L0 + len M') (len A + len L0) =? nl)
      with true
      by (symmetry; apply Z.eqb_eq; unfold nl; lens; unwrap; lia).
    unfold loadu.
    replace (A ++ L0 ++ M' ++ R0 ++ B) with ((A ++ L0) ++ M' ++ (R0 ++ B))
      by (by rewrite <- !(assoc_L (++))).
    rewrite read_block_app by (unfold nl; lens; lia).
    rewrite bind_Ok.
    destruct (partition_vec_flush P M' (A ++ L0) M' (R0 ++ B)
                (set1 s1) (set1 b1)) as [u Hpv]; try done.
    { by rewrite <- !(assoc_L (++)). }
    replace (len A + len L0) with (len (A ++ L0)) by (lens; lia).
    replace (sub64 (sub64 (len (A ++ L0) + len M') (len (A ++ L0))) nl)
      with (wrap (len M' - nl))
      by (unfold nl; lens; unwrap; f_equal; lia).
    rewrite Hpv, bind_Ok. cbn iota beta.
    exists (L0 ++ lo_of P M'), (hi_of P M' ++ R0), s1, b1.
    split; [rewrite <- !(assoc_L (++)); tuple_eq; lens; lia |].
    split.
    { rewrite <- Hperm, <- !(assoc_L (++)). apply Permutation_app_head.
      rewrite !(assoc_L (++)). apply Permutation_app_tail.
      apply compress_perm. by apply ge_length. }
    split; [apply Forall_app; split; [done | by apply compress_ge_below] |].
    split; [apply Forall_app; split; [by apply compress_ge_above | done] |].
    done.
  - (* at least two registers *)
    destruct (split_ends M' numlanes q) as (vl & Um & vr & -> & Hvl & Hvr & HUm);
      [lia |].
    replace (len A + len L0 =? len A + len L0 + len (vl ++ Um ++ vr))
      with false by (symmetry; apply Z.eqb_neq; lens; lia).
    replace (sub64 (len A + len L0 + len (vl ++ Um ++ vr)) (len A + len L0)
             =? nl) with false.
    2:{ symmetry; apply Z.eqb_neq. revert Hlen'. unfold nl. lens. intros.
        unwrap. lia. }
    unfold loadu.
    replace (A ++ L0 ++ (vl ++ Um ++ vr) ++ R0 ++ B)
      with ((A ++ L0) ++ vl ++ (Um ++ vr ++ R0 ++ B))
      by (by rewrite <- !(assoc_L (++))).
    rewrite (read_block_app (len A + len L0) (Z.of_nat numlanes) (A ++ L0) vl)
      by (lens; lia).
    rewrite bind_Ok.
    replace ((A ++ L0) ++ vl ++ (Um ++ vr ++ R0 ++ B))
      with ((A ++ L0 ++ vl ++ Um) ++ vr ++ (R0 ++ B))
      by (by rewrite <- !(assoc_L (++))).
    rewrite read_block_app.
    2:{ revert Hlen'. unfold nl. lens. intros. unwrap. lia. }
    2:{ unfold nl. lens. lia. }
    rewrite bind_Ok.
    replace ((A ++ L0 ++ vl ++ Um) ++ vr ++ (R0 ++ B))
      with ((A ++ L0) ++ vl ++ Um ++ vr ++ (R0 ++ B))
      by (by rewrite <- !(assoc_L (++))).
    rewrite main_loop_unrolled by (apply wrap_range).
    edestruct (unrolled_loop_spec P 1 ltac:(lia) Hn q
                 (loop_fuel ((A ++ L0) ++ vl ++ Um ++ vr ++ R0 ++ B))
                 (A ++ L0) vl Um vr (R0 ++ B) (set1 s1) (set1 b1))
      as (W & vs & Hloop & HW & Hcat & Hvs); cycle -1.
    + rewrite Hloop, bind_Ok. cbn iota beta.
      assert (Hnum : Forall numeric (vs ++ [vl; vr])).
      { apply Forall_app. split.
        - apply Forall_concat. unfold numeric in HM'n.
          rewrite Hcat. by apply Forall_app in HM'n as (_ & [? _]%Forall_app).
        - unfold numeric in HM'n.
          apply Forall_app in HM'n as (? & (_ & ?)%Forall_app).
          by repeat constructor. }
      assert (Hlanes : Forall (λ v, length v = numlanes) (vs ++ [vl; vr])).
      { apply Forall_app. split; [done | by repeat constructor]. }
      replace ((A ++ L0) ++ los P vs ++ W ++ his P vs ++ R0 ++ B)
        with (((A ++ L0) ++ los P vs) ++ W ++ his P vs ++ R0 ++ B)
        by (by rewrite <- !(assoc_L (++))).
      replace (len (A ++ L0) + len (los P vs))
        with (len ((A ++ L0) ++ los P vs)) by (lens; lia).
      assert (Hlos : (length (los P vs) + length (his P vs)
                      = length Um)%nat).
      { rewrite <- length_app, (los_his_perm P vs Hvs). by rewrite Hcat. }
      rewrite partition_vecs_two, flush_spec, bind_Ok.
      * exists (L0 ++ los P (vs ++ [vl; vr])),
               (his P (vs ++ [vl; vr]) ++ R0),
               (reducemin (vmins (vs ++ [vl; vr]) (set1 s1))),
               (reducemax (vmaxs (vs ++ [vl; vr]) (set1 b1))).
        assert (Hall : los P (vs ++ [vl; vr]) ++ his P (vs ++ [vl; vr])
                       ≡ₚ vl ++ Um ++ vr).
        { rewrite los_his_perm by done. rewrite concat_app, Hcat. simpl.
          rewrite app_nil_r, (assoc_L (++) Um), (Permutation_app_comm Um vl).
          by rewrite <- (assoc_L (++)). }
        assert (HallM : concat (vs ++ [vl; vr]) ++ L0 ++ R0 ≡ₚ M).
        { etrans; [| exact Hperm].
          rewrite <- (los_his_perm P _ Hlanes), Hall.
          rewrite (assoc_L (++) L0), (assoc_L (++) (vl ++ Um ++ vr)).
          apply Permutation_app_tail, Permutation_app_comm. }
        split.
        { rewrite los_app, his_app, vmins_app, vmaxs_app.
          rewrite <- !(assoc_L (++)). tuple_eq. lens. lia. }
        split.
        { etrans; [| exact Hperm]. rewrite <- Hall.
          by rewrite <- !(assoc_L (++)). }
        split; [apply Forall_app; split; [done | by apply los_below] |].
        split; [apply Forall_app; split; [by apply his_above | done] |].
        intros _.
        destruct (vmins_spec (vs ++ [vl; vr]) (set1 s1))
          as (Hm1 & Hm2 & Hm3); try done;
          [apply set1_length | by apply set1_numeric |].
        destruct (vmaxs_spec (vs ++ [vl; vr]) (set1 b1))
          as (Hx1 & Hx2 & Hx3); try done;
          [apply set1_length | by apply set1_numeric |].
        rewrite Hm3, Hx3, set1_reducemin, set1_reducemax, Hs1, Hb1 by done.
        rewrite <- kmin_app, <- kmax_app.
        rewrite (kmin_perm _ _ _ HallM), (kmax_perm _ _ _ HallM).
        split; [done |].
        split; [apply reducemin_key; [done |];
                intros He; rewrite He in Hm1; simpl in Hm1; lia |].
        split; [done |].
        apply reducemax_key; [done |].
        intros He; rewrite He in Hx1; simpl in Hx1; lia.
      * by repeat constructor.
      * simpl. lia.
      * revert Hlen'. lens. lia.
    + unfold nl, loop_fuel in *; side.
    + unfold nl in *; side.
    + unfold nl in *; side.
    + unfold nl in *; side.
    + unfold nl in *; side.
    + unfold nl in *; side.
    + unfold nl in *; side.
    + unfold nl in *; side.
Qed.

Lemma leftover_count (U q : nat) :
  (0 < numlanes)%nat → (0 < U)%nat →
  Z.to_nat ((Z.of_nat (numlanes * q) / nl) mod Z.of_nat U) = (q mod U)%nat.
Proof.
  intros Hn HU. unfold nl.
  rewrite <- Nat2Z.inj_div, <- Nat2Z.inj_mod, Nat2Z.id.
  by rewrite Nat.mul_comm, Nat.div_mul by lia.
Qed.

(** The unrolled kernel on a range [M] of at least [2 * U] registers. *)
Lemma partition_avx512_unrolled_spec U A M B P s b :
  (0 < U)%nat → (0 < numlanes)%nat → numeric M → isnan P = false →
  isnan s = false → isnan b = false →
  (2 * U * numlanes ≤ length M)%nat →
  len (A ++ M ++ B) < 2 ^ 64 →
  ∃ L R s' b',
    partition_avx512_unrolled U (A ++ M ++ B) (len A) (len A + len M) P s b
    = Ok (A ++ L ++ R ++ B, len A + len L, s', b')
    ∧ L ++ R ≡ₚ M
    ∧ Forall (λ x, key x < key P) L
    ∧ Forall (λ x, key P ≤ key x) R
    ∧ key s' = kmin (key s) M ∧ isnan s' = false
    ∧ key b' = kmax (key b) M ∧ isnan b' = false.
Proof.
  intros HU Hn HM HP Hs Hb Hbig Hlen.
  unfold partition_avx512_unrolled.
  replace (U =? 0)%nat with false by (symmetry; apply Nat.eqb_neq; lia).
  rewrite align_count by (revert Hlen; lens; lia).
  pose proof (Nat.div_mod_eq (length M) numlanes) as Hdm.
  pose proof (Nat.mod_upper_bound (length M) numlanes ltac:(lia)) as Hmod.
  set (q := (length M / numlanes)%nat) in *.
  set (i := (length M mod numlanes)%nat) in *.
  destruct (align_loop_spec P i A M B s b)
    as (L0 & M' & R0 & s1 & b1 & Heq & Hperm & HlM' & HL0 & HR0 & Hs1 & Hns1
        & Hb1 & Hnb1); try done;
    [unfold i; apply Nat.Div0.mod_le |].
  rewrite Heq, bind_Ok. cbn iota beta.
  assert (HM'n : numeric M').
  { unfold numeric in *. rewrite <- Hperm in HM.
    by apply Forall_app in HM as (_ & [? _]%Forall_app). }
  assert (Hlen' : len (A ++ L0 ++ M' ++ R0 ++ B) < 2 ^ 64).
  { revert Hlen. apply Permutation_length in Hperm. revert Hperm. lens.
    lia. }
  assert (HlM : length M' = (numlanes * q)%nat) by lia.
  pose proof (Nat.div_mod_eq q U) as Hqr.
  pose proof (Nat.mod_upper_bound q U ltac:(lia)) as Hr.
  set (c := (q / U)%nat) in *.
  set (r := (q mod U)%nat) in *.
  assert (Hq : (2 * U ≤ q)%nat) by nia.
  assert (Hc : (2 ≤ c)%nat) by nia.
  replace (len A + len L0 =? len A + len L0 + len M') with false
    by (symmetry; apply Z.eqb_neq; lens; nia).
  replace (sub64 (len A + len L0 + len M') (len A + len L0))
    with (Z.of_nat (numlanes * q)).
  2:{ symmetry. revert Hlen'. lens. intros. unwrap. lia. }
  assert (Hvecs : (Z.of_nat (numlanes * q) / nl) mod Z.of_nat U
                  = Z.of_nat r).
  { unfold r. rewrite <- (leftover_count U q Hn HU).
    rewrite Z2Nat.id; [done |].
    apply Z.mod_pos_bound. lia. }
  rewrite Hvecs, Nat2Z.id.
  (* the leftover registers *)
  destruct (split_first_block_gen M' (r * numlanes) (c * (U * numlanes)))
    as (G & M2 & -> & HG & HM2); [nia |].
  assert (Hcat : concat (regs_of r G) = G) by (by apply regs_of_concat).
  assert (HvG : Forall (λ v, length v = numlanes) (regs_of r G))
    by (by apply regs_of_lanes).
  assert (HlG : length (regs_of r G) = r) by apply regs_of_length.
  remember (regs_of r G) as vsG eqn:EvG.
  pose proof (los_his_length P vsG HvG) as HlhG.
  rewrite <- (Permutation_length (hif_his P vsG)), HlG in HlhG.
  destruct (leftover_loop_spec P vsG (A ++ L0) [] (M2 ++ R0 ++ B) []
              (replicate (U * numlanes) type_max) 0 (len A + len L0)
              (set1 s1) (set1 b1))
    as (J & Hleft & HJ); try done.
  { lens. lia. }
  { lens. lia. }
  { rewrite length_replicate. nia. }
  { rewrite Hcat. simpl. revert Hlen'. rewrite <- !(assoc_L (++)). done. }
  rewrite Hcat, HlG in Hleft. cbn [app] in Hleft.
  replace (@len T []) with 0 in Hleft by done.
  rewrite Z.add_0_l in Hleft. simpl in HJ.
  replace (len (A ++ L0)) with (len A + len L0) in Hleft by (lens; lia).
  rewrite <- !(assoc_L (++)) in Hleft. rewrite <- !(assoc_L (++)).
  rewrite Hleft, bind_Ok. cbn iota beta. clear Hleft.
  set (buf := drop (length (hif P vsG)) (replicate (U * numlanes) type_max)).
  (* the two copies *)
  destruct (split_last_block_gen M2 (length M2 - length J) (length J))
    as (M3 & Tl & -> & HM3 & HTl); [nia |].
  assert (Hsrc : sub64 (len A + len L0 + len (G ++ M3 ++ Tl))
                       (len (hif P vsG))
                 = len (A ++ L0 ++ los P vsG ++ J ++ M3)).
  { revert Hlen'. lens. intros. unwrap. lia. }
  rewrite Hsrc.
  erewrite (memcpy_app _ _ _ _ _ (A ++ L0 ++ los P vsG) J
              (M3 ++ Tl ++ R0 ++ B) (A ++ L0 ++ los P vsG ++ J ++ M3) Tl
              (R0 ++ B));
    [| by rewrite <- !(assoc_L (++)) | by rewrite <- !(assoc_L (++))
     | lens; lia | done | lens; lia | lia].
  rewrite bind_Ok.
  erewrite (memcpy_app _ _ _ _ _ (A ++ L0 ++ los P vsG ++ Tl ++ M3) Tl
              (R0 ++ B) [] (hif P vsG) buf);
    [| by rewrite <- !(assoc_L (++)) | done
     | lens; lia | done | done | lia].
  rewrite bind_Ok.
  (* the range left for the register loop *)
  assert (HN : ∃ N, N = Tl ++ M3) by eauto.
  destruct HN as [N EN].
  assert (HNl : length N = (c * (U * numlanes))%nat).
  { subst N. revert HM2 HTl. rewrite !length_app. lia. }
  assert (HNp : N ≡ₚ M3 ++ Tl) by (subst N; apply Permutation_app_comm).
  replace ((A ++ L0 ++ los P vsG ++ Tl ++ M3) ++ hif P vsG ++ R0 ++ B)
    with ((A ++ L0 ++ los P vsG) ++ N ++ (hif P vsG ++ R0 ++ B))
    by (subst N; by rewrite <- !(assoc_L (++))).
  set (A1 := A ++ L0 ++ los P vsG).
  set (B1 := hif P vsG ++ R0 ++ B).
  assert (Hlen1 : len (A1 ++ N ++ B1) < 2 ^ 64).
  { revert Hlen'. subst A1 B1. apply Permutation_length in HNp.
    revert HNp. lens. lia. }
  replace (add64 (len A + len L0) (Z.of_nat r * nl - len (hif P vsG)))
    with (len A1).
  2:{ symmetry. revert Hlen1. subst A1. unfold nl. lens. intros.
      unwrap. lia. }
  replace (len (A ++ L0 ++ los P vsG ++ J ++ M3)) with (len A1 + len N).
  2:{ apply Permutation_length in HNp. revert HNp. subst A1. lens. lia. }
  clear Hsrc EN.
  destruct (split_ends N (U * numlanes) (c - 2))
    as (GL & Um & GR & -> & HGL & HGR & HUm); [nia |].
  replace (len A1 =? len A1 + len (GL ++ Um ++ GR)) with false
    by (symmetry; apply Z.eqb_neq; lens; nia).
  assert (HcL : concat (regs_of U GL) = GL) by (by apply regs_of_concat).
  assert (HcR : concat (regs_of U GR) = GR) by (by apply regs_of_concat).
  assert (HvL : Forall (λ v, length v = numlanes) (regs_of U GL))
    by (by apply regs_of_lanes).
  assert (HvR : Forall (λ v, length v = numlanes) (regs_of U GR))
    by (by apply regs_of_lanes).
  assert (HlL : length (regs_of U GL) = U) by apply regs_of_length.
  assert (HlR : length (regs_of U GR) = U) by apply regs_of_length.
  assert (HgZ : Z.of_nat U * nl = Z.of_nat (U * numlanes))
    by (unfold nl; lia).
  replace (A1 ++ (GL ++ Um ++ GR) ++ B1) with (A1 ++ GL ++ (Um ++ GR) ++ B1)
    by (by rewrite <- !(assoc_L (++))).
  rewrite (loads_spec U A1 GL ((Um ++ GR) ++ B1)
             (λ ii, add64 (len A1) (nl * ii))); [| done |].
  2:{ intros j Hj.
      assert (Hj1 : 0 ≤ nl * j ≤ Z.of_nat (U * numlanes) - nl)
        by (unfold nl in *; nia).
      revert Hlen1. unfold nl in *. lens. intros. unwrap. lia. }
  rewrite bind_Ok.
  replace (A1 ++ GL ++ (Um ++ GR) ++ B1) with ((A1 ++ GL ++ Um) ++ GR ++ B1)
    by (by rewrite <- !(assoc_L (++))).
  rewrite (loads_spec U (A1 ++ GL ++ Um) GR B1); [| done |].
  2:{ intros j Hj.
      assert (Hj1 : nl ≤ nl * (Z.of_nat U - j) ≤ Z.of_nat (U * numlanes)
                    ∧ nl * (Z.of_nat U - j) + j * nl
                      = Z.of_nat (U * numlanes))
        by (unfold nl in *; nia).
      revert Hlen1. unfold nl in *. lens. intros. unwrap. lia. }
  rewrite bind_Ok.
  remember (regs_of U GL) as vl eqn:Evl.
  remember (regs_of U GR) as vr eqn:Evr.
  replace ((A1 ++ GL ++ Um) ++ GR ++ B1) with (A1 ++ GL ++ Um ++ GR ++ B1)
    by (by rewrite <- !(assoc_L (++))).
  edestruct (unrolled_loop_spec P U HU Hn (c - 2)
               (loop_fuel (A1 ++ GL ++ Um ++ GR ++ B1))
               A1 GL Um GR B1 (vmins vsG (set1 s1)) (vmaxs vsG (set1 b1)))
    as (W & vs & Hloop & HW & Hcvs & Hvs); cycle -1.
  - rewrite Hloop, bind_Ok. cbn iota beta.
    assert (Hlos : (length (los P vs) + length (his P vs)
                    = length Um)%nat).
    { rewrite <- length_app, (los_his_perm P vs Hvs). by rewrite Hcvs. }
    replace (A1 ++ los P vs ++ W ++ his P vs ++ B1)
      with ((A1 ++ los P vs) ++ W ++ (his P vs ++ B1))
      by (by rewrite <- !(assoc_L (++))).
    replace (len A1 + len (los P vs)) with (len (A1 ++ los P vs))
      by (lens; lia).
    rewrite partition_vecs_app, flush_spec, bind_Ok.
    2:{ by apply Forall_app. }
    2:{ rewrite length_app. lia. }
    2:{ revert Hlen1. clear -Hlos HW HGL HGR. lens. lia. }
    set (all := vsG ++ vs ++ vl ++ vr).
    assert (Hlanes : Forall (λ v, length v = numlanes) all).
    { unfold all. by rewrite !Forall_app. }
    assert (Hcall : concat all ≡ₚ G ++ M3 ++ Tl).
    { unfold all. rewrite !concat_app, Hcat, Hcvs, HcL, HcR.
      apply Permutation_app_head. rewrite <- HNp.
      rewrite (assoc_L (++) Um), (Permutation_app_comm Um GL).
      by rewrite <- (assoc_L (++)). }
    assert (Hnum : Forall numeric all).
    { apply Forall_concat. unfold numeric in HM'n. by rewrite Hcall. }
    assert (Hhis : his P (vl ++ vr) ++ his P vs ++ hif P vsG ≡ₚ his P all).
    { unfold all. rewrite !his_app, (hif_his P vsG).
      by rewrite <- !(assoc_L (++)). }
    assert (HallM : concat all ++ L0 ++ R0 ≡ₚ M).
    { etrans; [| exact Hperm]. rewrite Hcall.
      rewrite (assoc_L (++) L0), (assoc_L (++) (G ++ M3 ++ Tl)).
      apply Permutation_app_tail, Permutation_app_comm. }
    exists (L0 ++ los P all),
           ((his P (vl ++ vr) ++ his P vs ++ hif P vsG) ++ R0),
           (reducemin (vmins all (set1 s1))),
           (reducemax (vmaxs all (set1 b1))).
    split.
    { unfold all, A1, B1.
      rewrite !los_app, !vmins_app, !vmaxs_app.
      rewrite <- !(assoc_L (++)). tuple_eq. lens. lia. }
    split.
    { etrans; [| exact Hperm]. rewrite Hhis.
      rewrite <- !(assoc_L (++)). apply Permutation_app_head.
      rewrite !(assoc_L (++)). apply Permutation_app_tail.
      rewrite (los_his_perm P all Hlanes), Hcall.
      by rewrite <- !(assoc_L (++)). }
    split; [apply Forall_app; split; [done | by apply los_below] |].
    split.
    { apply Forall_app; split; [| done]. rewrite Hhis.
      by apply his_above. }
    destruct (vmins_spec all (set1 s1))
      as (Hm1 & Hm2 & Hm3); try done;
      [apply set1_length | by apply set1_numeric |].
    destruct (vmaxs_spec all (set1 b1))
      as (Hx1 & Hx2 & Hx3); try done;
      [apply set1_length | by apply set1_numeric |].
    rewrite Hm3, Hx3, set1_reducemin, set1_reducemax, Hs1, Hb1 by done.
    rewrite <- kmin_app, <- kmax_app.
    rewrite (kmin_perm _ _ _ HallM), (kmax_perm _ _ _ HallM).
    split; [done |].
    split; [apply reducemin_key; [done |];
            intros He; rewrite He in Hm1; simpl in Hm1; lia |].
    split; [done |].
    apply reducemax_key; [done |].
    intros He; rewrite He in Hx1; simpl in Hx1; lia.
  - unfold loop_fuel. rewrite !length_app.
    assert (c - 2 ≤ length Um)%nat.
    { rewrite HUm. clear -HU Hn. generalize (c - 2)%nat. intros k.
      assert (1 ≤ U * numlanes)%nat by nia. nia. }
    lia.
  - done.
  - lia.
  - revert Hlen1. by rewrite <- !(assoc_L (++)).
  - clear -Hlen1 HGL HGR HUm HgZ. unfold nl in *. lens. unwrap. lia.
  - clear -Hlen1 HGL HGR HUm HgZ. unfold nl in *. lens. unwrap. lia.
  - done.
  - clear -Hlen1 HGL HGR HUm HgZ Hn HU.
    assert (numlanes ≤ U * numlanes)%nat by nia.
    unfold nl in *. lens. unwrap. f_equal. lia.
Qed.

End PartitionFacts.

(** ** The quicksort driver *)

Section DriverFacts.
Context {T : Type} `{V : zmm_vector T} `{E : externals T}.
Implicit Types A B L R M : list T.

(** The kernel as the drivers call it. *)
Lemma partition_driver_spec A M B P s b :
  (0 < numlanes)%nat → threshold_ok →
  network_sort_threshold < len M →
  numeric M → isnan P = false → isnan s = false → isnan b = false →
  len (A ++ M ++ B) < 2 ^ 64 →
  ∃ L R s' b',
    partition_avx512_unrolled partition_unroll_factor (A ++ M ++ B) (len A)
                              (len A + len M) P s b
    = Ok (A ++ L ++ R ++ B, len A + len L, s', b')
    ∧ L ++ R ≡ₚ M
    ∧ Forall (λ x, key x < key P) L
    ∧ Forall (λ x, key P ≤ key x) R
    ∧ key s' = kmin (key s) M ∧ isnan s' = false
    ∧ key b' = kmax (key b) M ∧ isnan b' = false.
Proof.
  intros Hn Hthr Hbig HM HP Hs Hb Hlen. unfold threshold_ok in Hthr.
  destruct partition_unroll_factor as [|U'] eqn:HU.
  - assert (H2 : (2 * numlanes ≤ length M)%nat) by (unfold nl, len in *; lia).
    destruct (partition_avx512_spec A M B P s b)
      as (L & R & s' & b' & Heq & Hp & HL & HR & Hext); try done.
    exists L, R, s', b'. repeat split; try done; apply Hext.
    all: intros Hq; pose proof (Nat.div_mod_eq (length M) numlanes) as Hdm;
      pose proof (Nat.mod_upper_bound (length M) numlanes ltac:(lia));
      rewrite Hq in Hdm; lia.
  - apply partition_avx512_unrolled_spec; try done; [lia |].
    unfold nl, len in *. lia.
Qed.

Lemma range_length A M :
  len A + len M < 2 ^ 64 →
  sub64 (add64 (sub64 (len A + len M) 1) 1) (len A) = len M.
Proof.
  intros Hlen. unfold sub64, add64, wrap.
  rewrite Z.add_mod_idemp_l by lia.
  replace (len A + len M - 1 + 1) with (len A + len M) by lia.
  rewrite (Z.mod_small (len A + len M)) by (lens; lia).
  replace (len A + len M - len A) with (len M) by lia.
  apply Z.mod_small. lens. lia.
Qed.

Lemma range_end A M :
  len A + len M < 2 ^ 64 →
  add64 (sub64 (len A + len M) 1) 1 = len A + len M.
Proof.
  intros Hlen. unfold sub64, add64, wrap.
  rewrite Z.add_mod_idemp_l by lia.
  replace (len A + len M - 1 + 1) with (len A + len M) by lia.
  apply Z.mod_small. lens. lia.
Qed.

Lemma sort_range_spec (f : list T → list T) A M B n :
  n = len M → f M ≡ₚ M →
  sort_range f (A ++ M ++ B) (len A) n = Ok (A ++ f M ++ B).
Proof.
  intros -> Hp. unfold sort_range.
  rewrite read_block_app by done. rewrite bind_Ok.
  apply write_block_app; [done |]. by apply Permutation_length.
Qed.

Lemma key_sorted_const (l : list T) k :
  Forall (λ x, key x = k) l → key_sorted l.
Proof.
  induction 1 as [|x l Hx Hl IH]; constructor; [done |].
  eapply Forall_impl; [exact Hl |]. simpl. intros. lia.
Qed.

(** [qsort_] sorts the range [M] and leaves the rest of the array alone,
    whatever the depth budget. *)
Lemma qsort_spec `{!zmm_vector_ok T} `{!externals_ok}
    (Hthr : threshold_ok) (d : nat) : ∀ A M B,
  numeric M → len (A ++ M ++ B) < 2 ^ 64 →
  ∃ M', qsort_ d (A ++ M ++ B) (len A) (sub64 (len A + len M) 1)
        = Ok (A ++ M' ++ B)
        ∧ M' ≡ₚ M ∧ key_sorted M'.
Proof.
  pose proof numlanes_pos as Hn.
  induction d as [|d IH]; intros A M B HM Hlen.
  { cbn [qsort_]. rewrite range_length by (revert Hlen; lens; lia).
    destruct (std_sort_ok M HM) as [Hp Hs].
    exists (std_sort M). by rewrite sort_range_spec. }
  cbn [qsort_]. rewrite range_length by (revert Hlen; lens; lia).
  destruct (Z.leb_spec (len M) network_sort_threshold) as [Hsmall|Hbig].
  { destruct (sort_n_ok M HM Hsmall) as [Hp Hs].
    exists (sort_n M). by rewrite sort_range_spec. }
  rewrite range_end by (revert Hlen; lens; lia).
  set (P := get_pivot_blocks _ _ _).
  assert (HP : isnan P = false).
  { apply get_pivot_blocks_ok; [| done | done]. intros ->.
    unfold threshold_ok, nl in Hthr. revert Hbig. lens. lia. }
  destruct (partition_driver_spec A M B P type_max type_min)
    as (L & R & s' & b' & Heq & Hperm & HL & HR & Hs' & Hns' & Hb' & Hnb');
    try done; [apply type_max_num | apply type_min_num |].
  rewrite Heq, bind_Ok. cbn iota beta.
  assert (HLR : numeric L ∧ numeric R).
  { unfold numeric in *. rewrite <- Hperm in HM. by apply Forall_app. }
  destruct HLR as [HLn HRn].
  assert (HlenLR : len (A ++ L ++ R ++ B) < 2 ^ 64).
  { revert Hlen. apply Permutation_length in Hperm. revert Hperm. lens.
    lia. }
  (* the left side *)
  assert (Hleft : ∃ L',
    (if ne P s'
     then qsort_ d (A ++ L ++ R ++ B) (len A) (sub64 (len A + len L) 1)
     else Ok (A ++ L ++ R ++ B)) = Ok (A ++ L' ++ R ++ B)
    ∧ L' ≡ₚ L ∧ key_sorted L').
  { destruct (ne P s') eqn:Hne.
    - destruct (IH A L (R ++ B) HLn HlenLR) as (L' & HeqL & HpL & HsL).
      by exists L'.
    - exists L. split; [done |]. split; [done |].
      assert (L = []) as ->; [| constructor].
      unfold ne, num in Hne. rewrite HP, Hns' in Hne. simpl in Hne.
      apply negb_false_iff, Z.eqb_eq in Hne.
      destruct L as [|x L]; [done | exfalso].
      inversion HL as [|? ? Hx _]; subst.
      destruct (kmin_spec (key type_max) M) as (_ & Hall & _).
      rewrite Forall_forall in Hall.
      assert (Hin : x ∈ M) by (rewrite <- Hperm; left).
      specialize (Hall x Hin). lia. }
  destruct Hleft as (L' & -> & HpL & HsL).
  rewrite bind_Ok.
  assert (HlenL : len L' = len L) by (unfold len; by rewrite HpL).
  (* the right side *)
  assert (Hright : ∃ R',
    (if ne P b'
     then qsort_ d (A ++ L' ++ R ++ B) (len A + len L)
                 (sub64 (len A + len M) 1)
     else Ok (A ++ L' ++ R ++ B)) = Ok (A ++ L' ++ R' ++ B)
    ∧ R' ≡ₚ R ∧ key_sorted R').
  { destruct (ne P b') eqn:Hne.
    - destruct (IH (A ++ L') R B HRn) as (R' & HeqR & HpR & HsR).
      { revert HlenLR. rewrite <- (assoc_L (++)). lens. lia. }
      exists R'. split; [| done].
      rewrite <- !(assoc_L (++)) in HeqR. rewrite <- HeqR.
      f_equal; [lens; lia |]. f_equal.
      apply Permutation_length in Hperm. revert Hperm. lens. lia.
    - exists R. split; [done |]. split; [done |].
      unfold ne, num in Hne. rewrite HP, Hnb' in Hne. simpl in Hne.
      apply negb_false_iff, Z.eqb_eq in Hne.
      apply (key_sorted_const R (key P)).
      destruct (kmax_spec (key type_min) M) as (_ & Hall & _).
      rewrite Forall_forall in Hall, HR |- *. intros x Hx.
      assert (Hin : x ∈ M) by (rewrite <- Hperm, elem_of_app; by right).
      specialize (Hall x Hin). specialize (HR x Hx). lia. }
  destruct Hright as (R' & -> & HpR & HsR).
  exists (L' ++ R'). rewrite <- (assoc_L (++)).
  split; [done |]. split; [by rewrite HpL, HpR |].
  apply StronglySorted_app_2; [| done | done].
  intros x y Hx Hy. rewrite HpL in Hx. rewrite HpR in Hy.
  rewrite Forall_forall in HL, HR.
  specialize (HL x Hx). specialize (HR y Hy). lia.
Qed.

End DriverFacts.

(** ** The NaN passes *)

Section NanFacts.
Context {T : Type} `{V : zmm_vector T} `{E : externals T}.
Implicit Types A B C M X Y : list T.

Lemma popcnt_app (m1 m2 : list bool) : popcnt (m1 ++ m2) = popcnt m1 + popcnt m2.
Proof.
  unfold popcnt. induction m1 as [|c m1 IH]; simpl; [lia |].
  destruct c; lia.
Qed.

Lemma popcnt_false k : popcnt (replicate k false) = 0.
Proof. unfold popcnt. induction k; simpl; lia. Qed.

Lemma popcnt_u32_small (m : list bool) :
  (length m ≤ 32)%nat → popcnt_u32 m = popcnt m.
Proof. intros Hm. unfold popcnt_u32. by rewrite take_ge. Qed.

Lemma popcnt_nans C : popcnt (map isnan C) = len (nans C).
Proof.
  unfold popcnt, nans, len. induction C as [|x C IH]; simpl; [done |].
  destruct (isnan x); simpl; lia.
Qed.

Lemma nans_app M1 M2 : nans (M1 ++ M2) = nans M1 ++ nans M2.
Proof. unfold nans. apply List.filter_app. Qed.

Lemma nums_app M1 M2 : nums (M1 ++ M2) = nums M1 ++ nums M2.
Proof. unfold nums. apply List.filter_app. Qed.

Lemma get_partial_loadmask_shape (m : nat) :
  (m ≤ numlanes)%nat →
  get_partial_loadmask (Z.of_nat m)
  = replicate m true ++ replicate (numlanes - m) false.
Proof.
  intros Hm. unfold get_partial_loadmask, nl.
  replace (Z.of_nat numlanes) with (Z.of_nat m + Z.of_nat (numlanes - m))
    by lia.
  rewrite seqZ_app, map_app by lia. f_equal.
  - apply list_eq. intros j. rewrite list_lookup_fmap.
    destruct (decide (j < m)%nat) as [Hj|Hj].
    + rewrite lookup_seqZ_lt, lookup_replicate_2 by lia. simpl.
      f_equal. apply Z.ltb_lt. lia.
    + rewrite lookup_seqZ_ge by lia. simpl. symmetry.
      apply lookup_replicate_None. lia.
  - apply list_eq. intros j. rewrite list_lookup_fmap.
    destruct (decide (j < numlanes - m)%nat) as [Hj|Hj].
    + rewrite lookup_seqZ_lt, lookup_replicate_2 by lia. simpl.
      f_equal. apply Z.ltb_ge. lia.
    + rewrite lookup_seqZ_ge by lia. simpl. symmetry.
      apply lookup_replicate_None. lia.
Qed.

Lemma maskz_loadu_from_spec k : ∀ C X Y i pos,
  pos + i = len X → 0 ≤ pos → 0 ≤ i → len (X ++ C ++ Y) < 2 ^ 64 →
  maskz_loadu_from i (replicate (length C) true ++ replicate k false)
                   (X ++ C ++ Y) pos
  = Ok (C ++ replicate k type_max).
Proof.
  induction C as [|x C IH]; intros X Y i pos Hpos Hp Hi Hlen.
  { simpl. clear Hlen Hpos. revert i Hi.
    induction k as [|k IHk]; intros i Hi; simpl; [done |].
    rewrite IHk by lia. done. }
  cbn [length replicate app maskz_loadu_from].
  rewrite (read_app _ X x (C ++ Y)).
  2:{ revert Hlen. lens. intros. unwrap. lia. }
  rewrite bind_Ok.
  replace (X ++ x :: C ++ Y) with ((X ++ [x]) ++ C ++ Y)
    by (by rewrite <- (assoc_L (++))).
  rewrite IH; [done | | done | lia |].
  - lens. lia.
  - revert Hlen. rewrite <- (assoc_L (++)). done.
Qed.

Lemma mask_storeu_from_spec k : ∀ C X Y i pos,
  pos + i = len X → 0 ≤ pos → 0 ≤ i → len (X ++ C ++ Y) < 2 ^ 64 →
  mask_storeu_from i (X ++ C ++ Y) pos
                   (map isnan C ++ replicate k false)
                   (replicate (length C + k) type_max)
  = Ok (X ++ map san C ++ Y).
Proof.
  induction C as [|x C IH]; intros X Y i pos Hpos Hp Hi Hlen.
  { simpl. clear Hlen Hpos. revert i Hi.
    induction k as [|k IHk]; intros i Hi; simpl; [done |].
    rewrite IHk by lia. done. }
  cbn [length Nat.add replicate app map mask_storeu_from].
  assert (Hstep : (if isnan x
                   then write (X ++ x :: C ++ Y) (add64 pos i) type_max
                   else Ok (X ++ x :: C ++ Y))
                  = Ok ((X ++ [san x]) ++ C ++ Y)).
  { unfold san. destruct (isnan x).
    - rewrite (write_app _ X x type_max (C ++ Y)).
      + by rewrite <- (assoc_L (++)).
      + revert Hlen. lens. intros. unwrap. lia.
    - by rewrite <- (assoc_L (++)). }
  rewrite Hstep, bind_Ok, IH; [by rewrite <- (assoc_L (++)) | | done | lia |].
  - lens. lia.
  - revert Hlen. rewrite <- !(assoc_L (++)). lens. simpl. lia.
Qed.

Lemma replace_nan_loop_spec `{!zmm_vector_ok T} : ∀ fuel Md Mr B cnt,
  (length Mr ≤ fuel)%nat → len (Md ++ Mr ++ B) < 2 ^ 63 →
  0 ≤ cnt → cnt + len Mr < 2 ^ 64 →
  replace_nan_with_inf_loop fuel (Md ++ Mr ++ B) (len Md + len Mr) (len Md)
                            cnt
  = Ok (Md ++ map san Mr ++ B, cnt + len (nans Mr)).
Proof.
  pose proof numlanes_pos as Hn. pose proof numlanes_le as Hn64.
  pose proof type_max_num as Htm.
  induction fuel as [|fuel IH]; intros Md Mr B cnt Hfuel Hlen Hc Hcnt.
  { destruct Mr; [| simpl in Hfuel; lia]. cbn [replace_nan_with_inf_loop].
    replace (len Md <? len Md + @len T []) with false
      by (symmetry; apply Z.ltb_ge; lens; lia).
    simpl. tuple_eq. lens. lia. }
  cbn [replace_nan_with_inf_loop].
  destruct (Z.ltb_spec (len Md) (len Md + len Mr)) as [Hlt|Hge].
  2:{ destruct Mr; [| revert Hge; lens; lia]. simpl. tuple_eq. lens. lia. }
  replace (sub64 (len Md + len Mr) (len Md)) with (len Mr)
    by (revert Hlen; lens; intros; unwrap; lia).
  assert (Hnn : len (nans Mr) ≤ len Mr).
  { unfold nans, len. pose proof (List.filter_length_le isnan Mr). lia. }
  destruct (Z.ltb_spec (len Mr) nl) as [Hpart|Hfull].
  - (* the last, partial register *)
    unfold maskz_loadu.
    replace (len Mr) with (Z.of_nat (length Mr)) at 1 by done.
    rewrite get_partial_loadmask_shape by (unfold nl, len in *; lia).
    rewrite (maskz_loadu_from_spec _ Mr Md B 0 (len Md));
      [| revert Hlen; lens; lia ..].
    rewrite bind_Ok. unfold fpclass_nan, mask_storeu, zmm_max, set1.
    rewrite map_app.
    replace (map isnan (replicate (numlanes - length Mr) type_max))
      with (replicate (numlanes - length Mr) false).
    2:{ generalize (numlanes - length Mr)%nat. intros k.
        induction k as [|k IHk]; simpl; [done | by rewrite Htm, IHk]. }
    replace (replicate numlanes type_max)
      with (replicate (length Mr + (numlanes - length Mr)) type_max)
      by (f_equal; unfold nl, len in *; lia).
    rewrite (mask_storeu_from_spec _ Mr Md B 0 (len Md));
      [| revert Hlen; lens; lia ..].
    rewrite popcnt_u32_small
      by (rewrite length_app, length_map, length_replicate;
          unfold nl, len in *; lia).
    rewrite bind_Ok, popcnt_app, popcnt_false, popcnt_nans, Z.add_0_r.
    destruct fuel; cbn [replace_nan_with_inf_loop].
    all: replace (add64 (len Md) nl <? len Md + len Mr) with false.
    all: try (tuple_eq; revert Hcnt; lens; intros; unwrap; lia).
    all: symmetry; apply Z.ltb_ge; revert Hlen; unfold nl in *; lens;
      intros; unwrap; lia.
  - (* a whole register *)
    destruct (split_first_block_gen Mr numlanes (length Mr - numlanes))
      as (C & Mr' & -> & HC & HMr'); [unfold nl, len in *; lia |].
    unfold loadu. rewrite <- (assoc_L (++) C Mr' B).
    rewrite (read_block_app (len Md) (Z.of_nat numlanes) Md C (Mr' ++ B));
      [| done | lens; lia].
    rewrite bind_Ok. unfold fpclass_nan, mask_storeu, zmm_max, set1.
    replace (map isnan C) with (map isnan C ++ replicate 0 false)
      by (simpl; apply app_nil_r).
    replace (replicate numlanes type_max)
      with (replicate (length C + 0) type_max) by (f_equal; lia).
    rewrite (mask_storeu_from_spec 0 C Md (Mr' ++ B) 0 (len Md));
      [| revert Hlen; lens; lia ..].
    rewrite popcnt_u32_small
      by (rewrite length_app, length_map, length_replicate; simpl; lia).
    rewrite bind_Ok, popcnt_app, popcnt_false, popcnt_nans, Z.add_0_r.
    assert (HnC : len (nans C) ≤ len C).
    { unfold nans, len. pose proof (List.filter_length_le isnan C). lia. }
    rewrite nans_app in Hnn |- *. rewrite map_app.
    replace (Md ++ map san C ++ Mr' ++ B)
      with ((Md ++ map san C) ++ Mr' ++ B)
      by (by rewrite <- (assoc_L (++))).
    replace (len Md + len (C ++ Mr')) with (len (Md ++ map san C) + len Mr')
      by (lens; rewrite length_map; lia).
    replace (add64 (len Md) nl) with (len (Md ++ map san C)).
    2:{ revert Hlen. unfold nl. lens. rewrite length_map. intros.
        unwrap. lia. }
    replace (add64 cnt (len (nans C))) with (cnt + len (nans C))
      by (revert Hcnt HnC; lens; intros; unwrap; lia).
    rewrite IH.
    + rewrite <- !(assoc_L (++)). tuple_eq. lens. lia.
    + revert Hfuel. rewrite length_app. lia.
    + revert Hlen. lens. rewrite length_map. lia.
    + lens. lia.
    + revert Hcnt HnC. lens. lia.
Qed.

Lemma replace_nan_with_inf_spec `{!zmm_vector_ok T} M B :
  len (M ++ B) < 2 ^ 63 →
  replace_nan_with_inf (M ++ B) (len M)
  = Ok (map san M ++ B, len (nans M)).
Proof.
  intros Hlen. unfold replace_nan_with_inf.
  pose proof (replace_nan_loop_spec (length (M ++ B) + 1) [] M B 0) as H.
  cbn [app] in H. replace (@len T []) with 0 in H by done.
  rewrite !Z.add_0_l in H.
  rewrite H; [done | rewrite length_app; lia | done | done |].
  revert Hlen. lens. lia.
Qed.

Lemma replace_inf_loop_spec : ∀ Zs fuel Y D,
  is_floating_point_v = true →
  (length Zs ≤ fuel)%nat → len (Y ++ Zs ++ D) < 2 ^ 64 →
  replace_inf_with_nan_loop fuel (Y ++ Zs ++ D)
                            (sub64 (len Y + len Zs) 1) (len Zs)
  = Ok (Y ++ replicate (length Zs) quiet_NaN ++ D).
Proof.
  induction Zs as [|z Zs IH] using rev_ind; intros fuel Y D Hfp Hfuel Hlen.
  { by destruct fuel. }
  rewrite length_app in Hfuel. simpl in Hfuel.
  destruct fuel as [|fuel]; [lia |].
  cbn [replace_inf_with_nan_loop].
  replace (0 <? len (Zs ++ [z])) with true
    by (symmetry; apply Z.ltb_lt; lens; lia).
  rewrite Hfp.
  replace (Y ++ (Zs ++ [z]) ++ D) with ((Y ++ Zs) ++ z :: D)
    by (by rewrite <- !(assoc_L (++))).
  rewrite write_app.
  2:{ revert Hlen. lens. intros. unwrap. lia. }
  rewrite bind_Ok.
  replace (sub64 (sub64 (len Y + len (Zs ++ [z])) 1) 1)
    with (sub64 (len Y + len Zs) 1).
  2:{ unfold sub64, wrap. rewrite Zminus_mod_idemp_l. f_equal. lens. lia. }
  replace (sub64 (len (Zs ++ [z])) 1) with (len Zs)
    by (revert Hlen; lens; intros; unwrap; lia).
  rewrite <- (assoc_L (++)). rewrite IH; [| done | lia |].
  - rewrite length_app. simpl. rewrite Nat.add_1_r.
    rewrite replicate_S_end. by rewrite <- !(assoc_L (++)).
  - revert Hlen. lens. simpl. lia.
Qed.

Lemma replace_inf_with_nan_spec Y Zs D :
  is_floating_point_v = true → len (Y ++ Zs ++ D) < 2 ^ 64 →
  replace_inf_with_nan (Y ++ Zs ++ D) (len Y + len Zs) (len Zs)
  = Ok (Y ++ replicate (length Zs) quiet_NaN ++ D).
Proof.
  intros Hfp Hlen. unfold replace_inf_with_nan.
  apply replace_inf_loop_spec; [done | | done].
  rewrite !length_app. lia.
Qed.

Lemma san_perm `{!zmm_vector_ok T} M :
  map san M ≡ₚ nums M ++ replicate (length (nans M)) type_max.
Proof.
  unfold nums, nans, san. induction M as [|x M IH]; simpl; [done |].
  destruct (isnan x); simpl.
  - rewrite IH. apply Permutation_middle.
  - by rewrite IH.
Qed.

Lemma san_numeric `{!zmm_vector_ok T} M : numeric (map san M).
Proof.
  unfold numeric, san. apply Forall_fmap, Forall_forall. intros x _. simpl.
  destruct (isnan x) eqn:Hx; [apply type_max_num | done].
Qed.

Lemma san_typed `{!zmm_vector_ok T} M : typed M → typed (map san M).
Proof.
  unfold typed, san. intros HM. apply Forall_fmap.
  eapply Forall_impl; [exact HM |]. simpl. intros x Hx.
  destruct (isnan x); [apply type_max_in | done].
Qed.

Lemma nums_numeric M : numeric (nums M).
Proof.
  unfold numeric, nums. apply Forall_forall. intros x Hx.
  apply list_elem_of_In, List.filter_In in Hx as [_ Hx].
  by apply negb_true_iff.
Qed.

Lemma nums_id M : numeric M → nums M = M.
Proof.
  unfold nums. induction 1 as [|x M Hx _ IH]; simpl; [done |].
  by rewrite Hx, IH.
Qed.

Lemma nans_none M : numeric M → nans M = [].
Proof.
  unfold nans. induction 1 as [|x M Hx _ IH]; simpl; [done |].
  by rewrite Hx, IH.
Qed.

Lemma nums_none M : Forall (λ x, isnan x = true) M → nums M = [].
Proof.
  unfold nums. induction 1 as [|x M Hx _ IH]; simpl; [done |].
  by rewrite Hx, IH.
Qed.


(** In a sorted array the copies of [type_max] that stand for the NaNs are
    at the end. *)
Lemma sorted_top `{!zmm_vector_ok T} c : ∀ l X,
  key_sorted l → numeric l → typed l →
  l ≡ₚ X ++ replicate c type_max →
  ∃ Y, l = Y ++ replicate c type_max ∧ Y ≡ₚ X.
Proof.
  induction c as [|c IH]; intros l X Hs Hn Ht Hp.
  { exists l. simpl in *. by rewrite app_nil_r in *. }
  assert (Hin : type_max ∈ l).
  { rewrite Hp, elem_of_app. right. simpl. left. }
  destruct (snoc_case l) as [-> | (l0 & z & ->)].
  { by apply elem_of_nil in Hin. }
  assert (Hz : z = type_max).
  { apply Forall_app in Hn as [_ Hnz]. apply Forall_app in Ht as [_ Htz].
    inversion Hnz as [|? ? Hnz' _]; inversion Htz as [|? ? Htz' _]; subst.
    apply key_max_inj; [done | done |].
    pose proof (key_le_max z Htz' Hnz') as Hle.
    apply elem_of_app in Hin as [Hin|Hin].
    - pose proof (StronglySorted_app_1_elem_of _ l0 [z] type_max z Hs Hin
                    ltac:(left)) as Hge.
      simpl in Hge. lia.
    - apply list_elem_of_singleton in Hin. by subst. }
  subst z.
  assert (Hp0 : l0 ≡ₚ X ++ replicate c type_max).
  { apply (Permutation_app_inv_r [type_max]).
    rewrite Hp. rewrite <- (assoc_L (++)). apply Permutation_app_head.
    rewrite replicate_S_end. done. }
  destruct (IH l0 X) as (Y & -> & HY); try done.
  - by apply StronglySorted_app_1_l in Hs.
  - by apply Forall_app in Hn as [? _].
  - by apply Forall_app in Ht as [? _].
  - exists Y. split; [| done].
    by rewrite replicate_S_end, !(assoc_L (++)).
Qed.

End NanFacts.

Section MoveNanFacts.
Context {T : Type} `{V : zmm_vector T} `{E : externals T}.
Implicit Types A B M Y Z Nd Mr Zs : list T.

(** The two-pointer loop: [Nd] is known to hold no NaN, [Zs] holds only
    NaNs, [Mr] (never empty) is the part between the two pointers. *)
Lemma move_nans_loop_spec : ∀ fuel Nd Mr Zs B count,
  Mr ≠ [] → (length Mr ≤ fuel + 1)%nat →
  len (Nd ++ Mr ++ Zs ++ B) < 2 ^ 64 → 0 ≤ count →
  count + len Mr < 2 ^ 64 →
  ∃ Nd' x Zs',
    move_nans_loop fuel (Nd ++ Mr ++ Zs ++ B) (len Nd)
                   (len Nd + len Mr - 1) count
    = Ok (Nd ++ Nd' ++ [x] ++ Zs' ++ Zs ++ B, len Nd + len Nd',
          count + len Zs')
    ∧ numeric Nd' ∧ Forall (λ x, isnan x = true) Zs'
    ∧ Nd' ++ [x] ++ Zs' ≡ₚ Mr.
Proof.
  induction fuel as [|fuel IH];
    intros Nd Mr Zs B count Hne Hfuel Hlen Hc Hcnt.
  { destruct Mr as [|x [|y Mr]]; [done | | simpl in Hfuel; lia].
    exists [], x, []. cbn [move_nans_loop].
    replace (len Nd <? len Nd + len [x] - 1) with false
      by (symmetry; apply Z.ltb_ge; lens; lia).
    split; [simpl; tuple_eq; lens; lia |].
    repeat split; try constructor. done. }
  cbn [move_nans_loop].
  destruct Mr as [|y Mr1]; [done |].
  destruct (snoc_case Mr1) as [-> | (Mr2 & z & ->)].
  { exists [], y, [].
    replace (len Nd <? len Nd + len [y] - 1) with false
      by (symmetry; apply Z.ltb_ge; lens; lia).
    split; [simpl; tuple_eq; lens; lia |].
    repeat split; try constructor. done. }
  replace (len Nd <? len Nd + len (y :: Mr2 ++ [z]) - 1) with true
    by (symmetry; apply Z.ltb_lt; lens; lia).
  replace (Nd ++ (y :: Mr2 ++ [z]) ++ Zs ++ B)
    with (Nd ++ y :: Mr2 ++ z :: Zs ++ B)
    by (simpl; by rewrite <- !(assoc_L (++))).
  rewrite (read_app (len Nd) Nd y) by done. rewrite bind_Ok.
  unfold is_a_nan. destruct (isnan y) eqn:Hy.
  - rewrite (swap_far Nd y Mr2 z (Zs ++ B)); [| done | lens; lia].
    rewrite bind_Ok.
    destruct (IH Nd (z :: Mr2) (y :: Zs) B (add64 count 1))
      as (Nd' & x & Zs' & Heq & HNd & HZs & Hp); try done.
    { revert Hfuel. rewrite !length_cons, length_app. simpl. lia. }
    { revert Hlen. lens. simpl. lia. }
    { unfold add64. pose proof (wrap_range (count + 1)). lia. }
    { revert Hcnt. lens. intros. unwrap. lia. }
    exists Nd', x, (Zs' ++ [y]).
    replace (sub64 (len Nd + len (y :: Mr2 ++ [z]) - 1) 1)
      with (len Nd + len (z :: Mr2) - 1)
      by (revert Hlen; lens; intros; unwrap; lia).
    simpl in Heq |- *. rewrite Heq.
    split.
    { rewrite <- !(assoc_L (++)). simpl. tuple_eq.
      revert Hcnt. lens. intros. unwrap. lia. }
    split; [done |].
    split; [apply Forall_app; split; [done | by repeat constructor] |].
    replace (Nd' ++ x :: Zs' ++ [y]) with ((Nd' ++ x :: Zs') ++ [y])
      by (by rewrite <- (assoc_L (++))).
    rewrite <- Permutation_cons_append. apply perm_skip.
    simpl in Hp. rewrite Hp. apply Permutation_cons_append.
  - replace (Nd ++ y :: Mr2 ++ z :: Zs ++ B)
      with ((Nd ++ [y]) ++ (Mr2 ++ [z]) ++ Zs ++ B)
      by (by rewrite <- !(assoc_L (++))).
    destruct (IH (Nd ++ [y]) (Mr2 ++ [z]) Zs B count)
      as (Nd' & x & Zs' & Heq & HNd & HZs & Hp); try done.
    { by destruct Mr2. }
    { revert Hfuel. rewrite !length_cons, length_app. simpl. lia. }
    { revert Hlen. rewrite <- !(assoc_L (++)). lens. simpl. lia. }
    { revert Hcnt. lens. lia. }
    exists (y :: Nd'), x, Zs'.
    replace (add64 (len Nd) 1) with (len (Nd ++ [y]))
      by (revert Hlen; lens; intros; unwrap; lia).
    replace (len Nd + len (y :: Mr2 ++ [z]) - 1)
      with (len (Nd ++ [y]) + len (Mr2 ++ [z]) - 1) by (lens; lia).
    rewrite Heq.
    split; [rewrite <- !(assoc_L (++)); simpl; tuple_eq; lens; lia |].
    split; [by constructor |].
    split; [done |]. simpl. by rewrite <- Hp.
Qed.

(** [move_nans_to_end_of_array] on the first [len M] elements of [M ++ B]:
    the elements that are not NaN come first, in [Y], and the value returned
    is [len Y - 1], computed in [arrsize_t]. *)
Lemma move_nans_spec M B :
  M ≠ [] → len (M ++ B) < 2 ^ 64 →
  ∃ Y Z,
    move_nans_to_end_of_array (M ++ B) (len M)
    = Ok ((Y ++ Z) ++ B, sub64 (len Y) 1)
    ∧ numeric Y ∧ Forall (λ x, isnan x = true) Z ∧ Y ++ Z ≡ₚ M.
Proof.
  intros Hne Hlen. unfold move_nans_to_end_of_array.
  destruct (move_nans_loop_spec (2 * length (M ++ B) + 2) [] M [] B 0)
    as (Nd' & x & Zs' & Heq & HNd & HZs & Hp); try done.
  { rewrite length_app. lia. }
  { revert Hlen. lens. lia. }
  cbn [app] in Heq. replace (@len T []) with 0 in Heq by done.
  rewrite !Z.add_0_l in Heq.
  replace (sub64 (len M) 1) with (len M - 1).
  2:{ destruct M; [done |]. revert Hlen. lens. intros. unwrap. lia. }
  rewrite Heq, bind_Ok. cbn iota beta.
  rewrite (read_app (len Nd') Nd' x) by done. rewrite bind_Ok.
  assert (HlM : len M = len Nd' + 1 + len Zs').
  { apply Permutation_length in Hp. revert Hp. lens. simpl. lia. }
  unfold is_a_nan. destruct (isnan x) eqn:Hx.
  - exists Nd', (x :: Zs').
    split.
    { rewrite <- !(assoc_L (++)). simpl. tuple_eq.
      rewrite HlM. unfold sub64, add64.
      rewrite (wrap_small (len Zs' + 1)) by (revert Hlen; lens; lia).
      rewrite (wrap_small (len Nd' + 1 + len Zs' - (len Zs' + 1)))
        by (revert Hlen; lens; lia).
      f_equal. lia. }
    split; [done |]. split; [by constructor |]. done.
  - exists (Nd' ++ [x]), Zs'.
    split.
    { rewrite <- !(assoc_L (++)). simpl. tuple_eq.
      rewrite HlM. revert Hlen. lens. intros. unwrap. lia. }
    split; [apply Forall_app; split; [done | by repeat constructor] |].
    split; [done |]. by rewrite <- (assoc_L (++)).
Qed.

End MoveNanFacts.

Section SortFacts.
Context {T : Type} `{V : zmm_vector T} `{E : externals T}.
Implicit Types A B M Y Z : list T.

(** What [avx512_qsort] does to the first [len M] elements of [M ++ B]. *)
Lemma avx512_qsort_spec `{!zmm_vector_ok T} `{!externals_ok} M B :
  threshold_ok → typed M → len (M ++ B) < 2 ^ 63 →
  ∃ Y Z,
    avx512_qsort (M ++ B) (len M) = Ok ((Y ++ Z) ++ B)
    ∧ numeric Y ∧ Forall (λ x, isnan x = true) Z
    ∧ key_sorted Y ∧ Y ≡ₚ nums M ∧ length Z = length (nans M).
Proof.
  intros Hthr Ht Hlen. unfold avx512_qsort.
  destruct (Z.ltb_spec 1 (len M)) as [Hbig|Hsmall].
  2:{ (* at most one element: nothing is done *)
    destruct M as [|x [|y M]]; [| | revert Hsmall; lens; lia].
    - exists [], []. repeat split; try done; constructor.
    - destruct (isnan x) eqn:Hx.
      + exists [], [x]. unfold nums, nans. simpl. rewrite Hx. simpl.
        repeat split; try done; by repeat constructor.
      + exists [x], []. unfold nums, nans. simpl. rewrite Hx. simpl.
        repeat split; try done; by repeat constructor. }
  destruct is_floating_point_v eqn:Hfp.
  - (* floating point: NaNs out, sort, NaNs in *)
    rewrite replace_nan_with_inf_spec by done.
    rewrite bind_Ok. cbn iota beta.
    destruct (qsort_spec Hthr (depth_limit (len M)) [] (map san M) B)
      as (M2 & Heq & Hp & Hs).
    { apply san_numeric. }
    { revert Hlen. lens. rewrite length_map. lia. }
    cbn [app] in Heq. replace (@len T []) with 0 in Heq by done.
    rewrite Z.add_0_l in Heq.
    replace (len (map san M)) with (len M) in Heq
      by (unfold len; by rewrite length_map).
    rewrite Heq, bind_Ok.
    destruct (sorted_top (length (nans M)) M2 (nums M)) as (Y & -> & HY);
      try done.
    { unfold numeric. rewrite Hp. apply san_numeric. }
    { unfold typed. rewrite Hp. by apply san_typed. }
    { by rewrite Hp, san_perm. }
    pose proof (replace_inf_with_nan_spec Y
                  (replicate (length (nans M)) type_max) B Hfp) as Hr.
    rewrite length_replicate in Hr.
    replace (len (replicate (length (nans M)) type_max))
      with (len (nans M)) in Hr
      by (unfold len; by rewrite length_replicate).
    rewrite <- (assoc_L (++)).
    replace (len M) with (len Y + len (nans M)).
    2:{ apply Permutation_length in Hp.
        rewrite length_map, length_app, length_replicate in Hp.
        revert Hp. lens. lia. }
    rewrite Hr.
    2:{ apply Permutation_length in Hp. revert Hp Hlen.
        rewrite length_map. lens. lia. }
    exists Y, (replicate (length (nans M)) quiet_NaN).
    rewrite <- (assoc_L (++)).
    split; [done |].
    split; [unfold numeric; rewrite HY; apply nums_numeric |].
    split; [by apply Forall_replicate, quiet_NaN_nan |].
    split; [by apply StronglySorted_app_1_l in Hs |].
    split; [done | by rewrite length_replicate].
  - (* integers *)
    assert (HM : numeric M).
    { apply Forall_forall. intros x _. by apply int_no_nan. }
    destruct (qsort_spec Hthr (depth_limit (len M)) [] M B HM)
      as (M2 & Heq & Hp & Hs).
    { revert Hlen. lens. lia. }
    cbn [app] in Heq. replace (@len T []) with 0 in Heq by done.
    rewrite Z.add_0_l in Heq. rewrite Heq.
    exists M2, []. rewrite app_nil_r.
    split; [done |].
    split; [unfold numeric; by rewrite Hp |].
    split; [constructor |].
    split; [done |].
    split; [by rewrite nums_id | by rewrite nans_none].
Qed.

End SortFacts.

(** ** The concrete packs and the reference implementations *)

Section PackFacts.

Lemma int64_pack_ok : @zmm_vector_ok Z int64_pack.
Proof.
  split; try done; cbn; lia.
Qed.

Lemma int16_pack_ok : @zmm_vector_ok Z int16_pack.
Proof.
  split; try done; cbn; lia.
Qed.

Lemma int64_pack_least_ok : @zmm_vector_ok Z int64_pack_least.
Proof.
  split; try done; cbn; lia.
Qed.

Lemma int32_pack_ok : @zmm_vector_ok Z int32_pack.
Proof.
  split; try done; cbn; lia.
Qed.

Lemma f32_mag_low b : 0 ≤ b < 2 ^ 31 → f32_mag b = b.
Proof. intros. unfold f32_mag. apply Z.mod_small. lia. Qed.

Lemma f32_mag_high b : 2 ^ 31 ≤ b < 2 ^ 32 → f32_mag b = b - 2 ^ 31.
Proof.
  intros. unfold f32_mag. symmetry.
  apply (Z.mod_unique b (2 ^ 31) 1); lia.
Qed.

Lemma float_pack_ok : @zmm_vector_ok Z float_pack.
Proof.
  split; try done; cbn; try lia.
  - intros x [Hx0%Z.leb_le Hx1%Z.ltb_lt]%andb_true_iff Hn%Z.ltb_ge.
    change (f32_key 2139095040) with 2139095040. unfold f32_key.
    destruct (Z.ltb_spec x (2 ^ 31)).
    + done.
    + rewrite f32_mag_high in * by lia. lia.
  - intros x [Hx0%Z.leb_le Hx1%Z.ltb_lt]%andb_true_iff Hn%Z.ltb_ge.
    change (f32_key 4286578688) with (- 2139095040). unfold f32_key.
    destruct (Z.ltb_spec x (2 ^ 31)).
    + rewrite f32_mag_low in * by lia. lia.
    + lia.
  - intros x [Hx0%Z.leb_le Hx1%Z.ltb_lt]%andb_true_iff Hn%Z.ltb_ge.
    change (f32_key 2139095040) with 2139095040. unfold f32_key.
    destruct (Z.ltb_spec x (2 ^ 31)).
    + rewrite f32_mag_low by lia. done.
    + rewrite f32_mag_high in * by lia. lia.
Qed.

Lemma int64_threshold_ok : @threshold_ok Z int64_pack.
Proof. by vm_compute. Qed.

Lemma int16_threshold_ok : @threshold_ok Z int16_pack.
Proof. by vm_compute. Qed.

Lemma float_threshold_ok : @threshold_ok Z float_pack.
Proof. by vm_compute. Qed.

End PackFacts.

Section ReferenceFacts.
Context {T : Type} `{V : zmm_vector T}.
Implicit Types l : list T.

Lemma insert_sorted_perm x l : insert_sorted x l ≡ₚ x :: l.
Proof.
  induction l as [|y l IH]; simpl; [done |].
  destruct (lt y x); [| done].
  rewrite IH. apply Permutation_swap.
Qed.

Lemma insertion_sort_perm l : insertion_sort l ≡ₚ l.
Proof.
  induction l as [|x l IH]; simpl; [done |].
  unfold insertion_sort in *. simpl.
  by rewrite insert_sorted_perm, IH.
Qed.

Lemma insert_sorted_sorted x l :
  isnan x = false → numeric l → key_sorted l →
  key_sorted (insert_sorted x l).
Proof.
  intros Hx Hl Hs. induction l as [|y l IH]; simpl.
  { repeat constructor. }
  apply Forall_cons in Hl as [Hy Hl].
  apply StronglySorted_inv in Hs as [Hs Hyl].
  rewrite lt_numeric by done.
  destruct (Z.ltb_spec (key y) (key x)).
  - constructor; [by apply IH |].
    rewrite insert_sorted_perm. constructor; [lia | done].
  - constructor; [by constructor |].
    constructor; [done |].
    eapply Forall_impl; [exact Hyl |]. intros z Hz. simpl in Hz. lia.
Qed.

Lemma insertion_sort_sorted l : numeric l → key_sorted (insertion_sort l).
Proof.
  induction l as [|x l IH]; intros Hl.
  { constructor. }
  apply Forall_cons in Hl as [Hx Hl].
  unfold insertion_sort in *. simpl.
  apply insert_sorted_sorted; [done | | by apply IH].
  unfold numeric. fold (insertion_sort l).
  by rewrite insertion_sort_perm.
Qed.

Lemma middle_pivot_numeric (A M B : list T) :
  M ≠ [] → numeric M → len (A ++ M ++ B) < 2 ^ 64 →
  isnan (middle_pivot (A ++ M ++ B) (len A) (sub64 (len A + len M) 1))
  = false.
Proof.
  intros HM Hn Hlen.
  assert (0 < len M) by (destruct M; [done | lens; lia]).
  assert (HA := len_nonneg A). assert (HB := len_nonneg B).
  rewrite !len_app in Hlen.
  unfold sub64. rewrite wrap_small by lia.
  set (m := (len A + (len A + len M - 1)) / 2).
  assert (Hm : len A ≤ m < len A + len M).
  { subst m. split.
    - apply Z.div_le_lower_bound; lia.
    - apply Z.div_lt_upper_bound; lia. }
  assert (HM' := take_drop (Z.to_nat (m - len A)) M).
  destruct (drop (Z.to_nat (m - len A)) M) as [|x D] eqn:HD.
  { apply (f_equal length) in HD. rewrite length_drop in HD.
    simpl in HD. unfold len in *. lia. }
  rewrite <- HM' in Hn.
  apply Forall_app in Hn as [_ Hn]. apply Forall_cons in Hn as [Hx _].
  assert (Hr : read (A ++ M ++ B) m = Ok x).
  { rewrite <- HM', <- (assoc_L (++) (take _ M)), (assoc_L (++) A).
    simpl. apply read_app. lens. unfold len in *. lia. }
  unfold middle_pivot. fold m. by rewrite Hr.
Qed.

Lemma reference_externals_ok : @externals_ok T V reference_externals.
Proof.
  split; simpl.
  - intros l Hl _. split;
      [apply insertion_sort_perm | by apply insertion_sort_sorted].
  - intros l Hl. split;
      [apply insertion_sort_perm | by apply insertion_sort_sorted].
  - apply middle_pivot_numeric.
Qed.

End ReferenceFacts.

(** ** Ranges of an array *)

Section RangeFacts.
Context {T : Type} `{V : zmm_vector T}.
Implicit Types A M B L R arr : list T.

Lemma seg_mid A M B : seg (A ++ M ++ B) (len A) (len A + len M) = M.
Proof.
  unfold seg, len.
  replace (Z.to_nat (Z.of_nat (length A) + Z.of_nat (length M)
                     - Z.of_nat (length A))) with (length M) by lia.
  by rewrite Nat2Z.id, drop_app_length, take_app_length.
Qed.

Lemma seg_mid_l A L R B :
  seg (A ++ L ++ R ++ B) (len A) (len A + len L) = L.
Proof. apply seg_mid. Qed.

Lemma seg_mid_r A L R B :
  seg (A ++ L ++ R ++ B) (len A + len L) (len A + len L + len R) = R.
Proof.
  rewrite (assoc_L (++) A L), <- len_app. apply seg_mid.
Qed.

Lemma seg_prefix M B : seg (M ++ B) 0 (len M) = M.
Proof. apply (seg_mid [] M B). Qed.

(** An array is the part before a range, the range and the part behind. *)
Lemma range_split arr left right :
  0 ≤ left ≤ right → right ≤ len arr →
  arr = take (Z.to_nat left) arr ++ seg arr left right
        ++ drop (Z.to_nat right) arr
  ∧ len (take (Z.to_nat left) arr) = left
  ∧ len (seg arr left right) = right - left.
Proof.
  intros Hlr Hr. unfold seg, len in *. split; [| split].
  - rewrite <- (take_drop (Z.to_nat left) arr) at 1. f_equal.
    rewrite <- (take_drop (Z.to_nat (right - left))
                  (drop (Z.to_nat left) arr)) at 1.
    f_equal. rewrite drop_drop. f_equal. lia.
  - rewrite length_take. lia.
  - rewrite length_take, length_drop. lia.
Qed.

Lemma partitioned_intro A M L R B P :
  numeric M → isnan P = false → L ++ R ≡ₚ M →
  Forall (λ x, key x < key P) L → Forall (λ x, key P ≤ key x) R →
  partitioned (A ++ M ++ B) (A ++ L ++ R ++ B)
              (len A) (len A + len M) (len A + len L) P.
Proof.
  intros HM HP Hp HL HR.
  assert (Hlen : len M = len L + len R).
  { unfold len. rewrite <- Hp, length_app. lia. }
  assert (Hn : numeric (L ++ R)) by (unfold numeric; by rewrite Hp).
  apply Forall_app in Hn as [HnL HnR].
  assert (HL0 := len_nonneg L). assert (HR0 := len_nonneg R).
  split; [lia |]. split; [| split; [| split; [| split; [| split]]]].
  - revert Hlen. lens. lia.
  - rewrite seg_mid_l. apply Forall_forall. intros x Hx.
    rewrite lt_numeric by (done || by eapply Forall_forall in HnL).
    apply Z.ltb_lt. by eapply Forall_forall in HL.
  - rewrite Hlen, Z.add_assoc, seg_mid_r. apply Forall_forall. intros x Hx.
    rewrite ge_s_numeric by (done || by eapply Forall_forall in HnR).
    apply Z.leb_le. by eapply Forall_forall in HR.
  - rewrite seg_mid, (assoc_L (++) L R B).
    replace (len A + len M) with (len A + len (L ++ R))
      by (rewrite len_app; lia).
    by rewrite seg_mid.
  - unfold len. by rewrite Nat2Z.id, !take_app_length.
  - replace (Z.to_nat (len A + len M)) with (length (A ++ M))
      by (lens; lia).
    rewrite (assoc_L (++) A M B), drop_app_length.
    replace (length (A ++ M)) with (length (A ++ L ++ R)).
    + by rewrite (assoc_L (++) L R B), (assoc_L (++) A (L ++ R) B),
        drop_app_length.
    + revert Hlen. lens. lia.
Qed.

(** The index a partition returns is fixed by the contents of the range. *)
Lemma partition_index_unique M L R L' R' (P : T) :
  L ++ R ≡ₚ M → L' ++ R' ≡ₚ M →
  Forall (λ x, key x < key P) L → Forall (λ x, key P ≤ key x) R →
  Forall (λ x, key x < key P) L' → Forall (λ x, key P ≤ key x) R' →
  length L = length L'.
Proof.
  intros Hp Hp' HL HR HL' HR'.
  set (f := λ x : T, key x <? key P).
  assert (Hall : ∀ l, Forall (λ x, key x < key P) l →
                      length (List.filter f l) = length l).
  { induction 1 as [|x l Hx _ IH]; simpl; [done |].
    unfold f at 1. destruct (Z.ltb_spec (key x) (key P)); simpl; lia. }
  assert (Hnone : ∀ l, Forall (λ x, key P ≤ key x) l →
                       length (List.filter f l) = 0%nat).
  { induction 1 as [|x l Hx _ IH]; simpl; [done |].
    unfold f at 1. destruct (Z.ltb_spec (key x) (key P)); simpl; lia. }
  assert (Hcount : ∀ l l' : list T, l ≡ₚ l' →
            length (List.filter f l) = length (List.filter f l')).
  { induction 1 as [| x l l' _ IH | x y l | l1 l2 l3 _ IH1 _ IH2]; simpl.
    - done.
    - destruct (f x); simpl; lia.
    - destruct (f x), (f y); simpl; lia.
    - lia. }
  assert (H1 : length (List.filter f (L ++ R)) = length L).
  { rewrite List.filter_app, length_app, Hall, Hnone by done. lia. }
  assert (H2 : length (List.filter f (L' ++ R')) = length L').
  { rewrite List.filter_app, length_app, Hall, Hnone by done. lia. }
  rewrite <- H1, <- H2. apply Hcount. by rewrite Hp, Hp'.
Qed.



End RangeFacts.

(** ** The seeds of the extremes do not steer the partition *)

Section SeedFacts.
Context {T : Type} `{V : zmm_vector T}.

Lemma partition_vec_seeds (arr arr' : list T) l u l' u' v pv
    (mn mx mn0 mx0 mn0' mx0' : list T) :
  partition_vec arr l u v pv mn0 mx0 = Ok (arr', l', u', mn0', mx0') →
  partition_vec arr l u v pv mn mx = Ok (arr', l', u', vmin v mn, vmax v mx).
Proof.
  unfold partition_vec. intros Hrun.
  destruct (mask_compressstoreu arr l _ v) as [arr1| |]; simpl in *;
    try discriminate.
  destruct (mask_compressstoreu arr1 _ _ v) as [arr2| |]; simpl in *;
    try discriminate.
  by injection Hrun as <- <- <- _ _.
Qed.

Lemma align_loop_seeds (P s b s0 b0 : T) : ∀ i (arr arr' : list T) l r l' r'
    s0' b0',
  align_loop i arr l r P s0 b0 = Ok (arr', l', r', s0', b0') →
  ∃ s' b', align_loop i arr l r P s b = Ok (arr', l', r', s', b').
Proof.
  intros i. revert s b s0 b0.
  induction i as [|i IH]; intros s b s0 b0 arr arr' l r l' r' s0' b0' Hrun;
    simpl in *.
  { injection Hrun as <- <- <- _ _. eauto. }
  destruct (read arr l) as [x| |]; simpl in *; try discriminate.
  destruct (negb (comparison_func x P)).
  - destruct (swap arr l (sub64 r 1)) as [arr1| |]; simpl in *;
      try discriminate.
    eapply IH, Hrun.
  - eapply IH, Hrun.
Qed.

Lemma main_loop_seeds (pv : list T) : ∀ fuel (arr arr' : list T) left right
    l u l' u' (mn mx mn0 mx0 mn0' mx0' : list T),
  main_loop fuel arr left right l u pv mn0 mx0
  = Ok (arr', l', u', mn0', mx0') →
  ∃ mn' mx', main_loop fuel arr left right l u pv mn mx
             = Ok (arr', l', u', mn', mx').
Proof.
  induction fuel as [|fuel IH];
    intros arr arr' left right l u l' u' mn mx mn0 mx0 mn0' mx0' Hrun;
    simpl in *.
  { destruct (sub64 right left =? 0); [| discriminate].
    injection Hrun as <- <- <- _ _. eauto. }
  destruct (sub64 right left =? 0).
  { injection Hrun as <- <- <- _ _. eauto. }
  destruct (_ <? _).
  - destruct (loadu arr (sub64 right nl)) as [v| |]; simpl in *;
      try discriminate.
    destruct (partition_vec arr l u v pv mn0 mx0)
      as [[[[[arr1 l1] u1] mn1] mx1]| |] eqn:Hpv; simpl in *;
      try discriminate.
    rewrite (partition_vec_seeds _ _ _ _ _ _ _ _ mn mx _ _ _ _ Hpv).
    simpl. eapply IH, Hrun.
  - destruct (loadu arr left) as [v| |]; simpl in *; try discriminate.
    destruct (partition_vec arr l u v pv mn0 mx0)
      as [[[[[arr1 l1] u1] mn1] mx1]| |] eqn:Hpv; simpl in *;
      try discriminate.
    rewrite (partition_vec_seeds _ _ _ _ _ _ _ _ mn mx _ _ _ _ Hpv).
    simpl. eapply IH, Hrun.
Qed.

(** The array and the index that [partition_avx512] returns are those of a
    run with any other seeds. *)
Lemma partition_avx512_seeds (arr arr' : list T) left right p
    (P s b s0 b0 s0' b0' : T) :
  partition_avx512 arr left right P s0 b0 = Ok (arr', p, s0', b0') →
  ∃ s' b', partition_avx512 arr left right P s b = Ok (arr', p, s', b').
Proof.
  unfold partition_avx512. intros Hrun.
  destruct (align_loop _ arr left right P s0 b0)
    as [[[[[arr1 l1] r1] s1] b1]| |] eqn:Hal; simpl in *; try discriminate.
  destruct (align_loop_seeds P s b _ _ _ _ _ _ _ _ _ _ _ Hal)
    as (s2 & b2 & ->).
  simpl. destruct (l1 =? r1).
  { injection Hrun as <- <- _ _. eauto. }
  destruct (sub64 r1 l1 =? nl).
  - destruct (loadu arr1 l1) as [v| |]; simpl in *; try discriminate.
    destruct (partition_vec arr1 l1 _ v _ _ _)
      as [[[[[arr2 l2] u2] mn2] mx2]| |] eqn:Hpv; simpl in *;
      try discriminate.
    rewrite (partition_vec_seeds _ _ _ _ _ _ _ _ (set1 s2) (set1 b2)
               _ _ _ _ Hpv).
    simpl. injection Hrun as <- <- _ _. eauto.
  - destruct (loadu arr1 l1) as [vl| |]; simpl in *; try discriminate.
    destruct (loadu arr1 (sub64 r1 nl)) as [vr| |]; simpl in *;
      try discriminate.
    destruct (main_loop _ arr1 _ _ _ _ _ (set1 s1) (set1 b1))
      as [[[[[arr2 l2] u2] mn2] mx2]| |] eqn:Hml; simpl in *;
      try discriminate.
    destruct (main_loop_seeds _ _ _ _ _ _ _ _ _ _ (set1 s2) (set1 b2)
                _ _ _ _ Hml) as (mn2' & mx2' & ->).
    simpl.
    destruct (partition_vec arr2 l2 u2 vl _ mn2 mx2)
      as [[[[[arr3 l3] u3] mn3] mx3]| |] eqn:Hp1; simpl in *;
      try discriminate.
    rewrite (partition_vec_seeds _ _ _ _ _ _ _ _ mn2' mx2' _ _ _ _ Hp1).
    simpl.
    destruct (partition_vec arr3 l3 u3 vr _ mn3 mx3)
      as [[[[[arr4 l4] u4] mn4] mx4]| |] eqn:Hp2; simpl in *;
      try discriminate.
    rewrite (partition_vec_seeds _ _ _ _ _ _ _ _ (vmin vl mn2')
               (vmax vl mx2') _ _ _ _ Hp2).
    simpl. injection Hrun as <- <- _ _. eauto.
Qed.

End SeedFacts.

(** * The partition kernels *)

(** C3: on a range [left .. right) without NaN and for a pivot that is not a
    NaN, whatever the seeds [s] and [b] of the extremes, [partition_avx512]
    returns an index [p] with [left <= p <= right]; afterwards every element
    of [left .. p) is [< P], every element of [p .. right), so also each one
    equal to [P], is [>= P], the range holds a permutation of its entry
    contents, and the array is unchanged outside the range. *)
Theorem partition_avx512_partitions {T : Type} `{V : zmm_vector T}
    `{!zmm_vector_ok T} (arr : list T) (left right : Z) (P s b : T) :
  0 ≤ left → left < right → right ≤ len arr → len arr < 2 ^ 64 →
  numeric (seg arr left right) → isnan P = false →
  ∃ arr' p s' b',
    partition_avx512 arr left right P s b = Ok (arr', p, s', b')
    ∧ partitioned arr arr' left right p P.
Proof.
  intros Hl Hlr Hr Hlen Hnum HP.
  destruct (range_split arr left right) as (Harr & HlA & HlM); [lia | lia |].
  revert Harr HlA HlM Hnum.
  generalize (take (Z.to_nat left) arr) (seg arr left right)
             (drop (Z.to_nat right) arr).
  intros A M B Harr HlA HlM Hnum. subst arr left.
  assert (right = len A + len M) as -> by lia.
  destruct (partition_avx512_spec A M B P P P)
    as (L & R & s0 & b0 & Hrun0 & Hp & HL & HR & _);
    [apply numlanes_pos | done.. |].
  destruct (partition_avx512_seeds _ _ _ _ _ P s b _ _ _ _ Hrun0)
    as (s' & b' & Hrun).
  exists (A ++ L ++ R ++ B), (len A + len L), s', b'.
  split; [exact Hrun | by apply partitioned_intro].
Qed.

Lemma partition_avx512_partitions_witness :
  ∃ arr' p s' b',
    @partition_avx512 Z float_pack
      [0x40400000; 0x3F800000; 0xBF800000; 0x40000000] 1 4
      0x3F800000 0x7F800000 0xFF800000 = Ok (arr', p, s', b')
    ∧ @partitioned Z float_pack
        [0x40400000; 0x3F800000; 0xBF800000; 0x40000000] arr' 1 4 p
        0x3F800000.
Proof.
  apply (@partition_avx512_partitions Z float_pack float_pack_ok).
  - lia.
  - lia.
  - vm_compute. congruence.
  - vm_compute. reflexivity.
  - unfold numeric, seg. simpl.
    repeat (apply Forall_cons_2; [vm_compute; reflexivity |]).
    apply Forall_nil_2.
  - vm_compute. reflexivity.
Defined.

(** C5, on the path for a single register: eight [int64_t] elements are one
    register, the function returns before its reductions, and the seeds
    [type_max] and [type_min] come back in the place of the minimum 1 and
    the maximum 9.  With two registers of the same values the extremes are
    reported. *)
Lemma partition_avx512_single_register_extremes :
  @partition_avx512 Z int64_pack [4; 1; 9; 5; 3; 7; 6; 2] 0 8 5
    (2 ^ 63 - 1) (- 2 ^ 63)
  = Ok ([4; 1; 3; 2; 9; 5; 7; 6], 4, 2 ^ 63 - 1, - 2 ^ 63)
  ∧ @partition_avx512 Z int64_pack
      [4; 1; 9; 5; 3; 7; 6; 2; 4; 1; 9; 5; 3; 7; 6; 2] 0 16 5
      (2 ^ 63 - 1) (- 2 ^ 63)
    = Ok ([4; 1; 3; 2; 4; 1; 3; 2; 9; 5; 7; 6; 9; 5; 7; 6], 8, 1, 9).
Proof. split; vm_compute; reflexivity. Qed.

(** C4, on the scalar loop of the key-index kernel: the loop sends a key to
    the right only when it is [> pivot], so the keys 5 equal to the pivot 5
    stay on the left of the returned index 3.  The single-array kernel on
    the same keys returns 1 and has both to the right. *)
Lemma partition_avx512_kv_equal_keys_left :
  @partition_avx512_kv Z int64_pack Z [5; 7; 5; 3] [0; 1; 2; 3] 0 4 5
    (2 ^ 63 - 1) (- 2 ^ 63)
  = Ok ([5; 3; 5; 7], [0; 3; 2; 1], 3, 3, 7)
  ∧ @partition_avx512 Z int64_pack [5; 7; 5; 3] 0 4 5
      (2 ^ 63 - 1) (- 2 ^ 63)
    = Ok ([3; 5; 7; 5], 1, 3, 7).
Proof. split; vm_compute; reflexivity. Qed.

(** C8, as stated, fails for constants with
    [network_sort_threshold < 2 * partition_unroll_factor * numlanes]: with
    sixteen lanes, the threshold 128 and the unroll factor 8, a range of
    200 elements is longer than the threshold; after eight scalar steps and
    four registers through the buffer exactly one group of eight registers
    is left, which the unrolled kernel loads as the group of the left end
    and as the group of the right end, and its main loop then reads behind
    the array.  [partition_avx512] returns the index 77 and the extremes 0
    and 199 on the same input. *)
Lemma partition_avx512_unrolled_int32_out_of_bounds :
  200 > @network_sort_threshold Z int32_pack
  ∧ (∃ arr1,
       @partition_avx512 Z int32_pack (rev (seqZ 0 200)) 0 200 77
         (2 ^ 31 - 1) (- 2 ^ 31) = Ok (arr1, 77, 0, 199))
  ∧ @partition_avx512_unrolled Z int32_pack
      (@partition_unroll_factor Z int32_pack) (rev (seqZ 0 200)) 0 200 77
      (2 ^ 31 - 1) (- 2 ^ 31) = OutOfBounds.
Proof.
  split; [done |]. split; [| vm_compute; reflexivity].
  destruct (@partition_avx512 Z int32_pack (rev (seqZ 0 200)) 0 200 77
              (2 ^ 31 - 1) (- 2 ^ 31))
    as [[[[arr1 p] s1] b1]| |] eqn:Hrun.
  - exists arr1.
    assert (Hp : (p, s1, b1) = (77, 0, 199)).
    { change ((λ r, match r with
                    | Ok (_, p, s, b) => (p, s, b)
                    | _ => (0, 0, 0)
                    end) (Ok (arr1, p, s1, b1)) = (77, 0, 199)).
      rewrite <- Hrun. vm_compute. reflexivity. }
    by injection Hp as -> -> ->.
  - vm_compute in Hrun. discriminate.
  - vm_compute in Hrun. discriminate.
Qed.

(** C8, amended: for pack constants with [threshold_ok], that is
    [2 * max 1 partition_unroll_factor * numlanes <= network_sort_threshold],
    on a range of more than [network_sort_threshold] elements without NaN,
    as the drivers pass it, [partition_avx512_unrolled] and
    [partition_avx512] both return, with the same index; both leave the
    range partitioned around the pivot, a permutation of its entry
    contents, and the array unchanged elsewhere; both report the least and
    the greatest value of the range.
    Every access of the unrolled kernel to its buffer of
    [partition_unroll_factor * numlanes] elements is checked by the model,
    so the result [Ok] says that it stays inside. *)
Theorem partition_avx512_unrolled_same_contract {T : Type}
    `{V : zmm_vector T} `{!zmm_vector_ok T}
    (arr : list T) (left right : Z) (P s b : T) :
  threshold_ok →
  0 ≤ left → right ≤ len arr → len arr < 2 ^ 64 →
  network_sort_threshold < right - left →
  numeric (seg arr left right) →
  isnan P = false → isnan s = false → isnan b = false →
  ∃ arr1 arr2 p s1 b1 s2 b2,
    partition_avx512 arr left right P s b = Ok (arr1, p, s1, b1)
    ∧ partition_avx512_unrolled partition_unroll_factor arr left right P s b
      = Ok (arr2, p, s2, b2)
    ∧ partitioned arr arr1 left right p P
    ∧ partitioned arr arr2 left right p P
    ∧ key s1 = kmin (key s) (seg arr left right)
    ∧ key s2 = kmin (key s) (seg arr left right)
    ∧ key b1 = kmax (key b) (seg arr left right)
    ∧ key b2 = kmax (key b) (seg arr left right).
Proof.
  intros Hthr Hl Hr Hlen Hbig Hnum HP Hs Hb.
  assert (HN := numlanes_pos).
  assert (Hthr' : 2 * nl ≤ network_sort_threshold).
  { unfold threshold_ok, nl in *. nia. }
  assert (HN' : 0 < nl) by (unfold nl; lia).
  destruct (range_split arr left right) as (Harr & HlA & HlM); [lia | lia |].
  revert Harr HlA HlM Hnum.
  generalize (take (Z.to_nat left) arr) (seg arr left right)
             (drop (Z.to_nat right) arr).
  intros A M B Harr HlA HlM Hnum. subst arr left.
  assert (right = len A + len M) as -> by lia.
  destruct (partition_avx512_spec A M B P s b)
    as (L1 & R1 & s1 & b1 & Hrun1 & Hp1 & HL1 & HR1 & Hext1);
    [done.. |].
  destruct (partition_driver_spec A M B P s b)
    as (L2 & R2 & s2 & b2 & Hrun2 & Hp2 & HL2 & HR2 & Hs2 & _ & Hb2 & _);
    [done | done | lia | done.. |].
  destruct Hext1 as (Hs1 & _ & Hb1 & _).
  { assert (2 * numlanes ≤ length M)%nat by (unfold nl, len in *; lia).
    assert (2 ≤ length M / numlanes)%nat; [| lia].
    apply Nat.div_le_lower_bound; lia. }
  assert (HLL : len L2 = len L1).
  { unfold len. f_equal.
    by apply (partition_index_unique M L2 R2 L1 R1 P). }
  exists (A ++ L1 ++ R1 ++ B), (A ++ L2 ++ R2 ++ B), (len A + len L1),
         s1, b1, s2, b2.
  split; [exact Hrun1 |]. split; [by rewrite <- HLL |].
  split; [by apply partitioned_intro |].
  split; [rewrite <- HLL; by apply partitioned_intro |].
  done.
Qed.

Lemma partition_avx512_unrolled_same_contract_witness :
  ∃ arr1 arr2 p s1 b1 s2 b2,
    @partition_avx512 Z int64_pack (rev (seqZ 0 200)) 0 200 77
      (2 ^ 63 - 1) (- 2 ^ 63) = Ok (arr1, p, s1, b1)
    ∧ @partition_avx512_unrolled Z int64_pack 8 (rev (seqZ 0 200)) 0 200 77
        (2 ^ 63 - 1) (- 2 ^ 63) = Ok (arr2, p, s2, b2)
    ∧ @partitioned Z int64_pack (rev (seqZ 0 200)) arr1 0 200 p 77
    ∧ @partitioned Z int64_pack (rev (seqZ 0 200)) arr2 0 200 p 77
    ∧ s1 = @kmin Z int64_pack (2 ^ 63 - 1) (seg (rev (seqZ 0 200)) 0 200)
    ∧ s2 = @kmin Z int64_pack (2 ^ 63 - 1) (seg (rev (seqZ 0 200)) 0 200)
    ∧ b1 = @kmax Z int64_pack (- 2 ^ 63) (seg (rev (seqZ 0 200)) 0 200)
    ∧ b2 = @kmax Z int64_pack (- 2 ^ 63) (seg (rev (seqZ 0 200)) 0 200).
Proof.
  apply (@partition_avx512_unrolled_same_contract Z int64_pack
           int64_pack_ok (rev (seqZ 0 200)) 0 200 77).
  - exact int64_threshold_ok.
  - lia.
  - vm_compute. congruence.
  - vm_compute. reflexivity.
  - vm_compute. reflexivity.
  - apply Forall_forall. intros x _. reflexivity.
  - reflexivity.
  - reflexivity.
  - reflexivity.
Defined.

(** With [U] = 2 and eight lanes, sixteen elements are exactly one group of
    two registers: the kernel loads the group at the left end, then the same
    group as the one at the right end, and the main loop runs on a window of
    negative width.  [threshold_ok] keeps the drivers away from this. *)
Remark partition_avx512_unrolled_one_group :
  @partition_avx512_unrolled Z int64_pack 2 (rev (seqZ 0 16)) 0 16 5
    (2 ^ 63 - 1) (- 2 ^ 63) = OutOfBounds.
Proof. vm_compute. reflexivity. Qed.

(** * The sort *)









(** C10: for [N <= 1] [avx512_qsort] returns the array as it was; neither
    pass over the NaNs runs, so a single NaN keeps its sign and payload. *)
Theorem avx512_qsort_short_unchanged {T : Type} `{V : zmm_vector T}
    `{E : externals T} (arr : list T) (N : Z) :
  N ≤ 1 → avx512_qsort arr N = Ok arr.
Proof.
  intros HN. unfold avx512_qsort.
  destruct (Z.ltb_spec 1 N); [lia | done].
Qed.

Lemma avx512_qsort_short_unchanged_witness :
  @avx512_qsort Z float_pack (@reference_externals Z float_pack) [0xFFC00001] 1
  = Ok [0xFFC00001].
Proof.
  apply (@avx512_qsort_short_unchanged Z float_pack (@reference_externals Z float_pack)).
  lia.
Defined.

(** From two elements on the passes run, and a NaN comes back as the quiet
    NaN of the type. *)
Remark avx512_qsort_nan_canonical :
  f32_isnan 0xFFC00001 = true
  ∧ @avx512_qsort Z float_pack (@reference_externals Z float_pack) [0xFFC00001; 5] 2
    = Ok [5; 0x7FC00000].
Proof. split; vm_compute; reflexivity. Qed.

(** * The pass that moves the NaNs *)

Lemma nums_perm {T : Type} `{V : zmm_vector T} (l l' : list T) :
  l ≡ₚ l' → nums l ≡ₚ nums l'.
Proof.
  unfold nums.
  induction 1 as [| x l l' _ IH | x y l | l1 l2 l3 _ IH1 _ IH2]; simpl.
  - done.
  - destruct (isnan x); simpl; [done | by rewrite IH].
  - destruct (isnan x), (isnan y); simpl; try done. apply Permutation_swap.
  - by rewrite IH1.
Qed.

(** C9, as stated, fails on an array of NaNs only: the function returns
    [2^64 - 1], which is no index of the array. *)
Lemma move_nans_all_nan_no_index :
  ¬ ∃ arr' r,
      @move_nans_to_end_of_array Z float_pack [0x7FC00001] 1 = Ok (arr', r)
      ∧ @last_non_nan Z float_pack arr' 1 r.
Proof.
  intros (arr' & r & Hrun & (Hr & _)).
  vm_compute in Hrun. injection Hrun as <- <-. lia.
Qed.

(** C9, amended: on [size >= 1] elements [move_nans_to_end_of_array]
    returns; the range holds a permutation of its entry contents, first its
    [c] elements that are not NaN and then its NaNs, and the array is
    unchanged behind the range; the value returned is [c - 1] in
    [arrsize_t]: the index of the last element that is not a NaN when there
    is one, and [2^64 - 1] when all elements are NaNs. *)
Theorem move_nans_to_end_of_array_result {T : Type} `{V : zmm_vector T}
    (arr : list T) (size : Z) :
  1 ≤ size → size ≤ len arr → len arr < 2 ^ 64 →
  ∃ arr' r,
    move_nans_to_end_of_array arr size = Ok (arr', r)
    ∧ seg arr' 0 size ≡ₚ seg arr 0 size
    ∧ drop (Z.to_nat size) arr' = drop (Z.to_nat size) arr
    ∧ numeric (seg arr' 0 (len (nums (seg arr 0 size))))
    ∧ Forall (λ x, isnan x = true)
             (seg arr' (len (nums (seg arr 0 size))) size)
    ∧ r = sub64 (len (nums (seg arr 0 size))) 1
    ∧ (0 < len (nums (seg arr 0 size)) → last_non_nan arr' size r)
    ∧ (len (nums (seg arr 0 size)) = 0 → r = 2 ^ 64 - 1).
Proof.
  intros Hsz Hle Hlen.
  assert (Hseg : seg arr 0 size = take (Z.to_nat size) arr).
  { unfold seg. by rewrite Z.sub_0_r. }
  rewrite Hseg.
  assert (HlM : len (take (Z.to_nat size) arr) = size).
  { unfold len in *. rewrite length_take. lia. }
  assert (Harr := take_drop (Z.to_nat size) arr).
  revert Harr HlM.
  generalize (take (Z.to_nat size) arr) (drop (Z.to_nat size) arr).
  intros M B Harr HlM. subst arr size.
  destruct (move_nans_spec M B) as (Y & Z & Hrun & HY & HZ & Hp);
    [intros ->; unfold len in Hsz; simpl in Hsz; lia | done |].
  assert (Hc : len (nums M) = len Y).
  { unfold len. f_equal. rewrite <- (nums_perm _ _ Hp).
    by rewrite nums_app, (nums_id Y), (nums_none Z), app_nil_r. }
  assert (HlYZ : len M = len Y + len Z).
  { unfold len. rewrite <- Hp, length_app. lia. }
  assert (HY0 := len_nonneg Y). assert (HZ0 := len_nonneg Z).
  rewrite len_app in Hlen. assert (HB0 := len_nonneg B).
  assert (Hs1 : seg ((Y ++ Z) ++ B) 0 (len Y) = Y).
  { rewrite <- (assoc_L (++)). apply seg_prefix. }
  assert (Hs2 : seg ((Y ++ Z) ++ B) (len Y) (len M) = Z).
  { rewrite <- (assoc_L (++)), HlYZ. apply seg_mid. }
  exists ((Y ++ Z) ++ B), (sub64 (len Y) 1).
  rewrite Hc, Hs1, Hs2.
  split; [exact Hrun |].
  split.
  { rewrite <- (len_app Y Z) in HlYZ. rewrite HlYZ, !seg_prefix. done. }
  split.
  { replace (Z.to_nat (len M)) with (length (Y ++ Z)) at 1
      by (revert HlYZ; lens; lia).
    by rewrite drop_app_length. }
  split; [done |]. split; [done |]. split; [done |].
  split.
  - intros Hpos. unfold sub64. rewrite wrap_small by lia.
    destruct (snoc_case Y) as [-> | (Y' & x & ->)];
      [unfold len in Hpos; simpl in Hpos; lia |].
    apply Forall_app in HY as [_ HY]. apply Forall_cons in HY as [Hx _].
    split; [lia |]. split.
    + exists x. split; [| done].
      replace (Z.to_nat (len (Y' ++ [x]) - 1)) with (length Y')
        by (lens; lia).
      rewrite <- !(assoc_L (++)). by apply list_lookup_middle.
    + replace (len (Y' ++ [x]) - 1 + 1) with (len (Y' ++ [x])) by lia.
      by rewrite Hs2.
  - intros HY1. rewrite HY1. reflexivity.
Qed.

Lemma move_nans_to_end_of_array_result_witness :
  ∃ arr' r,
    @move_nans_to_end_of_array Z float_pack
      [0x7FC00001; 0x40A00000; 0xFFC00000; 0x80000000; 0; 0x40E00000] 6
    = Ok (arr', r)
    ∧ @last_non_nan Z float_pack arr' 6 r.
Proof.
  destruct (@move_nans_to_end_of_array_result Z float_pack
              [0x7FC00001; 0x40A00000; 0xFFC00000; 0x80000000; 0;
               0x40E00000] 6)
    as (arr' & r & Hrun & _ & _ & _ & _ & _ & Hlast & _).
  - lia.
  - vm_compute. congruence.
  - vm_compute. reflexivity.
  - exists arr', r. split; [exact Hrun |].
    apply Hlast. vm_compute. reflexivity.
Defined.

(** * The pivot sampler for 16-bit keys *)

Lemma reads_lookup {T : Type} `{V : zmm_vector T} (arr : list T) ps :
  Forall (λ p, 0 ≤ p < len arr) ps →
  reads arr ps = Ok (map (λ p, default type_max (arr !! Z.to_nat p)) ps).
Proof.
  induction 1 as [|p ps Hp _ IH]; simpl; [done |].
  unfold read.
  replace ((0 <=? p) && (p <? len arr)) with true
    by (symmetry; apply andb_true_iff; split;
        [apply Z.leb_le | apply Z.ltb_lt]; lia).
  destruct (lookup_lt_is_Some_2 arr (Z.to_nat p)) as [x Hx].
  { unfold len in Hp. lia. }
  rewrite Hx, bind_Ok, IH. done.
Qed.

(** C6, as stated, fails: on the array 0, 1, ..., 32 with [left = 0] and
    [right = 32] the stride is 1; the sampler returns 16, the element at
    index 16 of the sample taken at 0 .. 31, where the sample taken at
    1 .. 32 has 17. *)
Lemma get_pivot_16bit_not_from_offset_size :
  @get_pivot Z int16_pack (@reference_externals Z int16_pack)
    (seqZ 0 33) 0 32
  ≠ @lane Z (@sort_vec Z (@reference_externals Z int16_pack)
               (@samples_16bit Z int16_pack (seqZ 0 33) 0 32 1)) 16.
Proof. vm_compute. congruence. Qed.

(** C6, amended: for 32 lanes the sampler returns the element at index 16
    of the sorted sample of the 32 elements at [left + i * size] for
    [i = 0 .. 31], where [size = (right - left) / 32]: the first sample is
    [arr[left]]. *)
Theorem get_pivot_16bit_samples {T : Type} `{V : zmm_vector T}
    `{E : externals T} (arr : list T) (left right : Z) :
  numlanes = 32%nat →
  0 ≤ left → left ≤ right → right < len arr → len arr < 2 ^ 64 →
  get_pivot arr left right
  = lane (sort_vec (samples_16bit arr left right 0)) 16.
Proof.
  intros H32 Hl Hlr Hr Hlen.
  unfold get_pivot. rewrite H32. simpl.
  unfold get_pivot_16bit, samples_16bit, sub64.
  rewrite (wrap_small (right - left)) by lia.
  assert (Hsize : 0 ≤ (right - left) / 32) by (apply Z.div_pos; lia).
  assert (Hspan : 32 * ((right - left) / 32) ≤ right - left)
    by (apply Z.mul_div_le; lia).
  revert Hsize Hspan. generalize ((right - left) / 32). intros size Hsize Hspan.
  assert (Hps : left :: map (λ i, add64 left (wrap (i * size))) (seqZ 1 31)
                = map (λ i, left + i * size) (seqZ 0 32)).
  { let l := eval vm_compute in (seqZ 1 31) in change (seqZ 1 31) with l.
    let l := eval vm_compute in (seqZ 0 32) in change (seqZ 0 32) with l.
    cbn [map]. unwrap. f_equal. lia. }
  rewrite Hps, reads_lookup.
  - rewrite bind_Ok, map_map.
    unfold loadu, read_block. rewrite H32.
    let l := eval vm_compute in (seqZ 0 32) in change (seqZ 0 32) with l.
    cbn [map]. simpl. done.
  - let l := eval vm_compute in (seqZ 0 32) in change (seqZ 0 32) with l.
    cbn [map].
    repeat (apply Forall_cons_2; [lia |]). apply Forall_nil_2.
Qed.

Lemma get_pivot_16bit_samples_witness :
  @get_pivot Z int16_pack (@reference_externals Z int16_pack)
    (seqZ 0 33) 0 32
  = @lane Z (@sort_vec Z (@reference_externals Z int16_pack)
               (@samples_16bit Z int16_pack (seqZ 0 33) 0 32 0)) 16.
Proof.
  apply (@get_pivot_16bit_samples Z int16_pack
           (@reference_externals Z int16_pack) (seqZ 0 33) 0 32).
  - reflexivity.
  - lia.
  - lia.
  - vm_compute. reflexivity.
  - vm_compute. reflexivity.
Defined.

(** * The partial sort *)

(** C7, at [k = 0]: [k - 1] is [2^64 - 1] in [arrsize_t]; the selection does
    nothing, and the sort that follows is asked for [2^64 - 1] elements of
    an array of three.  With [k = 2] the same array comes back with its two
    smallest elements first. *)
Lemma avx512_partial_qsort_zero :
  @avx512_partial_qsort Z int64_pack (@reference_externals Z int64_pack)
    [3; 1; 2] 0 3 false = OutOfBounds
  ∧ @avx512_partial_qsort Z int64_pack (@reference_externals Z int64_pack)
      [3; 1; 2] 2 3 false = Ok [1; 2; 3].
Proof. split; vm_compute; reflexivity. Qed.

(** * Further properties of the header *)

(** ** The passes over the NaNs *)

Section NanPassFacts.
Context {T : Type} `{V : zmm_vector T}.
Implicit Types A B M Y D arr : list T.

Lemma existsb_replicate_false k :
  existsb (λ b : bool, b) (replicate k false) = false.
Proof. induction k; simpl; done. Qed.

Lemma existsb_map_isnan M :
  existsb (λ b : bool, b) (map isnan M) = existsb isnan M.
Proof. induction M as [|x M IH]; simpl; [done | by rewrite IH]. Qed.

Lemma has_nan_loop_spec `{!zmm_vector_ok T} : ∀ fuel Md Mr B,
  (length Mr ≤ fuel)%nat → len (Md ++ Mr ++ B) < 2 ^ 63 →
  has_nan_loop fuel (Md ++ Mr ++ B) (len Md + len Mr) (len Md)
  = Ok (existsb isnan Mr).
Proof.
  pose proof numlanes_pos as Hn. pose proof numlanes_le as Hn32.
  pose proof type_max_num as Htm.
  induction fuel as [|fuel IH]; intros Md Mr B Hfuel Hlen.
  { destruct Mr; [| simpl in Hfuel; lia]. cbn [has_nan_loop].
    replace (len Md <? len Md + @len T []) with false
      by (symmetry; apply Z.ltb_ge; lens; lia).
    done. }
  cbn [has_nan_loop].
  destruct (Z.ltb_spec (len Md) (len Md + len Mr)) as [Hlt|Hge].
  2:{ destruct Mr; [done | revert Hge; lens; lia]. }
  replace (sub64 (len Md + len Mr) (len Md)) with (len Mr)
    by (revert Hlen; lens; intros; unwrap; lia).
  destruct (Z.ltb_spec (len Mr) nl) as [Hpart|Hfull].
  - unfold maskz_loadu.
    replace (len Mr) with (Z.of_nat (length Mr)) at 1 by done.
    rewrite get_partial_loadmask_shape by (unfold nl, len in *; lia).
    rewrite (maskz_loadu_from_spec _ Mr Md B 0 (len Md));
      [| revert Hlen; lens; lia ..].
    rewrite bind_Ok. unfold fpclass_nan.
    rewrite map_app, existsb_app, existsb_map_isnan.
    replace (map isnan (replicate (numlanes - length Mr) type_max))
      with (replicate (numlanes - length Mr) false).
    2:{ generalize (numlanes - length Mr)%nat. intros k.
        induction k as [|k IHk]; simpl; [done | by rewrite Htm, IHk]. }
    rewrite existsb_replicate_false, orb_false_r.
    destruct (existsb isnan Mr); [done |].
    destruct fuel; cbn [has_nan_loop].
    all: replace (add64 (len Md) nl <? len Md + len Mr) with false; [done |].
    all: symmetry; apply Z.ltb_ge; revert Hlen; unfold nl in *; lens;
      intros; unwrap; lia.
  - destruct (split_first_block_gen Mr numlanes (length Mr - numlanes))
      as (C & Mr' & -> & HC & HMr'); [unfold nl, len in *; lia |].
    unfold loadu. rewrite <- (assoc_L (++) C Mr' B).
    rewrite (read_block_app (len Md) (Z.of_nat numlanes) Md C (Mr' ++ B));
      [| done | lens; lia].
    rewrite bind_Ok. unfold fpclass_nan.
    rewrite existsb_map_isnan, existsb_app.
    destruct (existsb isnan C); [done |]. simpl.
    replace (Md ++ C ++ Mr' ++ B) with ((Md ++ C) ++ Mr' ++ B)
      by (by rewrite <- (assoc_L (++))).
    replace (len Md + len (C ++ Mr')) with (len (Md ++ C) + len Mr')
      by (lens; lia).
    replace (add64 (len Md) nl) with (len (Md ++ C)).
    2:{ revert Hlen. unfold nl. lens. intros. unwrap. lia. }
    apply IH.
    + rewrite length_app in Hfuel. lia.
    + revert Hlen. rewrite <- !(assoc_L (++)). lens. lia.
Qed.

Lemma replace_inf_fill_spec : ∀ Zs fuel Y D,
  (length Zs ≤ fuel)%nat → len (Y ++ Zs ++ D) < 2 ^ 64 →
  replace_inf_with_nan_loop fuel (Y ++ Zs ++ D)
                            (sub64 (len Y + len Zs) 1) (len Zs)
  = Ok (Y ++ replicate (length Zs)
                (if is_floating_point_v then quiet_NaN else word_0xFFFF)
          ++ D).
Proof.
  induction Zs as [|z Zs IH] using rev_ind; intros fuel Y D Hfuel Hlen.
  { by destruct fuel. }
  rewrite length_app in Hfuel. simpl in Hfuel.
  destruct fuel as [|fuel]; [lia |].
  cbn [replace_inf_with_nan_loop].
  replace (0 <? len (Zs ++ [z])) with true
    by (symmetry; apply Z.ltb_lt; lens; lia).
  replace (Y ++ (Zs ++ [z]) ++ D) with ((Y ++ Zs) ++ z :: D)
    by (by rewrite <- !(assoc_L (++))).
  rewrite write_app.
  2:{ revert Hlen. lens. intros. unwrap. lia. }
  rewrite bind_Ok.
  replace (sub64 (sub64 (len Y + len (Zs ++ [z])) 1) 1)
    with (sub64 (len Y + len Zs) 1).
  2:{ unfold sub64, wrap. rewrite Zminus_mod_idemp_l. f_equal. lens. lia. }
  replace (sub64 (len (Zs ++ [z])) 1) with (len Zs)
    by (revert Hlen; lens; intros; unwrap; lia).
  rewrite <- (assoc_L (++)). rewrite IH; [| lia |].
  - rewrite length_app. simpl. rewrite Nat.add_1_r.
    rewrite replicate_S_end. by rewrite <- !(assoc_L (++)).
  - revert Hlen. lens. simpl. lia.
Qed.

End NanPassFacts.

(** X1: [replace_nan_with_inf] on the first [size] elements of an array
    shorter than 2^63 puts [type_max] in the place of every NaN, leaves
    every other element and the rest of the array as they were, and returns
    the number of NaNs it replaced. *)
Theorem replace_nan_with_inf_result {T : Type} `{V : zmm_vector T}
    `{!zmm_vector_ok T} (arr : list T) (size : Z) :
  0 ≤ size → size ≤ len arr → len arr < 2 ^ 63 →
  replace_nan_with_inf arr size
  = Ok (map san (take (Z.to_nat size) arr) ++ drop (Z.to_nat size) arr,
        len (nans (take (Z.to_nat size) arr))).
Proof.
  intros H0 Hle Hlen.
  assert (HlM : len (take (Z.to_nat size) arr) = size).
  { unfold len in *. rewrite length_take. lia. }
  assert (Harr := take_drop (Z.to_nat size) arr).
  revert Harr HlM.
  generalize (take (Z.to_nat size) arr) (drop (Z.to_nat size) arr).
  intros M B Harr HlM. subst arr size.
  by apply replace_nan_with_inf_spec.
Qed.

Lemma replace_nan_with_inf_result_witness :
  @replace_nan_with_inf Z float_pack
    (0x7FC00001 :: 0xFFC00000 :: 0x3F800000 :: seqZ 0 18) 19
  = Ok (map (@san Z float_pack)
            (take (Z.to_nat 19)
               (0x7FC00001 :: 0xFFC00000 :: 0x3F800000 :: seqZ 0 18))
        ++ drop (Z.to_nat 19)
             (0x7FC00001 :: 0xFFC00000 :: 0x3F800000 :: seqZ 0 18),
        len (@nans Z float_pack
               (take (Z.to_nat 19)
                  (0x7FC00001 :: 0xFFC00000 :: 0x3F800000 :: seqZ 0 18)))).
Proof.
  apply (@replace_nan_with_inf_result Z float_pack float_pack_ok).
  - lia.
  - vm_compute. congruence.
  - vm_compute. reflexivity.
Defined.

(** X2: for [nan_count <= size], [replace_inf_with_nan] overwrites the last
    [nan_count] elements of the first [size] with the quiet NaN of a
    floating-point type (with [0xFFFF] for any other type) and writes
    nowhere else; with [nan_count = 0] it does nothing. *)
Theorem replace_inf_with_nan_result {T : Type} `{V : zmm_vector T}
    (arr : list T) (size nan_count : Z) :
  0 ≤ nan_count → nan_count ≤ size → size ≤ len arr → len arr < 2 ^ 64 →
  replace_inf_with_nan arr size nan_count
  = Ok (take (Z.to_nat (size - nan_count)) arr
        ++ replicate (Z.to_nat nan_count)
             (if is_floating_point_v then quiet_NaN else word_0xFFFF)
        ++ drop (Z.to_nat size) arr).
Proof.
  intros H0 Hc Hle Hlen.
  destruct (range_split arr (size - nan_count) size)
    as (Harr & HlY & HlZ); [lia | lia |].
  revert Harr HlY HlZ.
  generalize (take (Z.to_nat (size - nan_count)) arr)
             (seg arr (size - nan_count) size) (drop (Z.to_nat size) arr).
  intros Y Zs D Harr HlY HlZ. subst arr.
  unfold replace_inf_with_nan.
  replace size with (len Y + len Zs) by lia.
  replace nan_count with (len Zs) by lia.
  replace (Z.to_nat (len Zs)) with (length Zs) by (unfold len; lia).
  apply replace_inf_fill_spec; [| done].
  rewrite !length_app. lia.
Qed.

Lemma replace_inf_with_nan_result_witness :
  @replace_inf_with_nan Z float_pack [1; 2; 0x7F800000; 0x7F800000; 5] 4 2
  = Ok (take (Z.to_nat (4 - 2)) [1; 2; 0x7F800000; 0x7F800000; 5]
        ++ replicate (Z.to_nat 2) 0x7FC00000
        ++ drop (Z.to_nat 4) [1; 2; 0x7F800000; 0x7F800000; 5]).
Proof.
  apply (@replace_inf_with_nan_result Z float_pack).
  - lia.
  - lia.
  - vm_compute. congruence.
  - vm_compute. reflexivity.
Defined.

(** X3: on an array shorter than 2^63, [has_nan] returns [true] exactly when
    one of the first [size] elements is a NaN; the elements behind them,
    which the last masked load leaves out, play no part. *)
Theorem has_nan_result {T : Type} `{V : zmm_vector T} `{!zmm_vector_ok T}
    (arr : list T) (size : Z) :
  0 ≤ size → size ≤ len arr → len arr < 2 ^ 63 →
  has_nan arr size = Ok (existsb isnan (take (Z.to_nat size) arr)).
Proof.
  intros H0 Hle Hlen.
  assert (HlM : len (take (Z.to_nat size) arr) = size).
  { unfold len in *. rewrite length_take. lia. }
  assert (Harr := take_drop (Z.to_nat size) arr).
  revert Harr HlM.
  generalize (take (Z.to_nat size) arr) (drop (Z.to_nat size) arr).
  intros M B Harr HlM. subst arr size.
  unfold has_nan.
  apply (has_nan_loop_spec _ [] M B); [| done].
  rewrite length_app. lia.
Qed.

Lemma has_nan_result_witness :
  @has_nan Z float_pack (seqZ 0 18 ++ [0xFFC00000; 0x7FC00000]) 19
  = Ok (existsb (@isnan Z float_pack)
          (take (Z.to_nat 19) (seqZ 0 18 ++ [0xFFC00000; 0x7FC00000]))).
Proof.
  apply (@has_nan_result Z float_pack float_pack_ok).
  - lia.
  - vm_compute. congruence.
  - vm_compute. reflexivity.
Defined.

(** ** Compare and exchange *)

Section ExchangeFacts.
Context {T : Type} `{V : zmm_vector T}.

Lemma mask_mov_lookup {A} (x y : list A) (m : list bool) (i : nat)
    (xi yi : A) (b : bool) :
  x !! i = Some xi → m !! i = Some b → y !! i = Some yi →
  mask_mov x m y !! i = Some (if b then yi else xi).
Proof.
  revert m y i. induction x as [|x0 x IH]; intros m y i Hx Hm Hy; [done |].
  destruct m as [|b0 m]; [done |]. destruct y as [|y0 y]; [done |].
  destruct i as [|i]; simpl in *.
  - injection Hx as ->. injection Hm as ->. by injection Hy as ->.
  - by apply IH.
Qed.

Lemma vmin_lookup (a b : list T) i x y :
  a !! i = Some x → b !! i = Some y → vmin a b !! i = Some (min_s x y).
Proof.
  intros Hx Hy. unfold vmin. rewrite lookup_zip_with, Hx. simpl.
  by rewrite Hy.
Qed.

Lemma vmax_lookup (a b : list T) i x y :
  a !! i = Some x → b !! i = Some y → vmax a b !! i = Some (max_s x y).
Proof.
  intros Hx Hy. unfold vmax. rewrite lookup_zip_with, Hx. simpl.
  by rewrite Hy.
Qed.

Lemma min_s_cases (x y : T) :
  isnan x = false → isnan y = false →
  key (min_s x y) = Z.min (key x) (key y)
  ∧ (min_s x y = x ∨ min_s x y = y).
Proof.
  intros Hx Hy. unfold min_s. rewrite lt_numeric by done.
  destruct (Z.ltb_spec (key x) (key y)); split; auto; lia.
Qed.

Lemma max_s_cases (x y : T) :
  isnan x = false → isnan y = false →
  key (max_s x y) = Z.max (key x) (key y)
  ∧ (max_s x y = x ∨ max_s x y = y).
Proof.
  intros Hx Hy. unfold max_s, gt. rewrite lt_numeric by done.
  destruct (Z.ltb_spec (key y) (key x)); split; auto; lia.
Qed.

End ExchangeFacts.

(** X4: after [COEX(a, b)], in every lane whose two values are not NaN,
    [a] holds the smaller and [b] the greater of the two values that the
    lane had in [a] and [b]; each is one of those two values. *)
Theorem COEX_orders_lanes {T : Type} `{V : zmm_vector T}
    (a b : list T) (i : nat) (x y : T) :
  a !! i = Some x → b !! i = Some y →
  isnan x = false → isnan y = false →
  ∃ x' y',
    (COEX a b).1 !! i = Some x' ∧ (COEX a b).2 !! i = Some y'
    ∧ key x' = Z.min (key x) (key y) ∧ key y' = Z.max (key x) (key y)
    ∧ (x' = x ∨ x' = y) ∧ (y' = x ∨ y' = y).
Proof.
  intros Ha Hb Hx Hy. unfold COEX. simpl.
  exists (min_s x y), (max_s x y).
  destruct (min_s_cases x y Hx Hy) as [? ?].
  destruct (max_s_cases x y Hx Hy) as [? ?].
  rewrite (vmin_lookup a b i x y), (vmax_lookup a b i x y) by done.
  done.
Qed.

Lemma COEX_orders_lanes_witness :
  ∃ x' y',
    (@COEX Z int64_pack [3; 9; 4] [7; 2; 4]).1 !! 1%nat = Some x'
    ∧ (@COEX Z int64_pack [3; 9; 4] [7; 2; 4]).2 !! 1%nat = Some y'
    ∧ x' = Z.min 9 2 ∧ y' = Z.max 9 2
    ∧ (x' = 9 ∨ x' = 2) ∧ (y' = 9 ∨ y' = 2).
Proof.
  apply (@COEX_orders_lanes Z int64_pack [3; 9; 4] [7; 2; 4] 1 9 2);
    reflexivity.
Defined.

(** X5: in every lane whose two values are not NaN, [cmp_merge] returns the
    greater of the two where the mask has its bit and the smaller where it
    has not; it is one of the two values. *)
Theorem cmp_merge_selects {T : Type} `{V : zmm_vector T}
    (in1 in2 : list T) (mask : list bool) (i : nat) (x y : T) (m : bool) :
  in1 !! i = Some x → in2 !! i = Some y → mask !! i = Some m →
  isnan x = false → isnan y = false →
  ∃ z,
    cmp_merge in1 in2 mask !! i = Some z
    ∧ key z = (if m then Z.max (key x) (key y) else Z.min (key x) (key y))
    ∧ (z = x ∨ z = y).
Proof.
  intros H1 H2 Hm Hx Hy. unfold cmp_merge.
  rewrite (mask_mov_lookup _ _ _ i (min_s y x) (max_s y x) m);
    [| by apply vmin_lookup | done | by apply vmax_lookup].
  destruct (min_s_cases y x Hy Hx) as [? [?|?]];
    destruct (max_s_cases y x Hy Hx) as [? [?|?]];
    eexists; (split; [reflexivity |]); destruct m; split; auto; lia.
Qed.

Lemma cmp_merge_selects_witness :
  ∃ z,
    @cmp_merge Z int64_pack [3; 9; 4] [7; 2; 4] [true; false; true] !! 1%nat
    = Some z
    ∧ z = (if false then Z.max 9 2 else Z.min 9 2)
    ∧ (z = 9 ∨ z = 2).
Proof.
  apply (@cmp_merge_selects Z int64_pack [3; 9; 4] [7; 2; 4]
           [true; false; true] 1 9 2 false); reflexivity.
Defined.

(** X6: the [cmp_merge] of the key-value sort keeps key and index together.
    In every lane whose two keys are not NaN, the key returned is chosen as
    by [cmp_merge], and the index left in [indexes1] is the one that came
    with it: the index of [indexes1] when the key returned equals the key of
    [in1], the index of [indexes2], with the key of [in2], when not. *)
Theorem cmp_merge_kv_pairs {T I : Type} `{V : zmm_vector T}
    (in1 in2 : list T) (indexes1 indexes2 : list I) (mask : list bool)
    (i : nat) (x y : T) (ix iy : I) (m : bool) :
  in1 !! i = Some x → in2 !! i = Some y →
  indexes1 !! i = Some ix → indexes2 !! i = Some iy →
  mask !! i = Some m →
  isnan x = false → isnan y = false →
  ∃ z j,
    (cmp_merge_kv in1 in2 indexes1 indexes2 mask).1 !! i = Some z
    ∧ (cmp_merge_kv in1 in2 indexes1 indexes2 mask).2 !! i = Some j
    ∧ key z = (if m then Z.max (key x) (key y) else Z.min (key x) (key y))
    ∧ ((key z = key x ∧ j = ix) ∨ (key z ≠ key x ∧ z = y ∧ j = iy)).
Proof.
  intros H1 H2 Hi1 Hi2 Hm Hx Hy.
  assert (Hkeys : ∃ z,
            cmp_merge in1 in2 mask !! i = Some z
            ∧ key z = (if m then Z.max (key x) (key y)
                       else Z.min (key x) (key y))
            ∧ (z = x ∨ z = y)).
  { unfold cmp_merge.
    rewrite (mask_mov_lookup _ _ _ i (min_s y x) (max_s y x) m);
      [| by apply vmin_lookup | done | by apply vmax_lookup].
    destruct (min_s_cases y x Hy Hx) as [? [?|?]];
      destruct (max_s_cases y x Hy Hx) as [? [?|?]];
      eexists; (split; [reflexivity |]); destruct m; split; auto; lia. }
  destruct Hkeys as (z & Hz & Hk & Hzz).
  assert (Hnz : isnan z = false) by (by destruct Hzz as [-> | ->]).
  unfold cmp_merge_kv. simpl.
  exists z, (if eq_s z x then ix else iy).
  split; [done |]. split.
  { apply mask_mov_lookup; [done | | done].
    unfold eq. rewrite lookup_zip_with, Hz. simpl. by rewrite H1. }
  split; [done |].
  unfold eq_s, num. rewrite Hnz, Hx. simpl.
  destruct (Z.eqb_spec (key z) (key x)) as [Heq|Hne]; [by left |].
  right. split; [done |]. split; [| done].
  destruct Hzz as [-> | ->]; [done | done].
Qed.

Lemma cmp_merge_kv_pairs_witness :
  ∃ z j,
    (@cmp_merge_kv Z int64_pack Z [3; 9; 4] [7; 2; 4] [10; 11; 12]
       [20; 21; 22] [true; false; true]).1 !! 1%nat = Some z
    ∧ (@cmp_merge_kv Z int64_pack Z [3; 9; 4] [7; 2; 4] [10; 11; 12]
         [20; 21; 22] [true; false; true]).2 !! 1%nat = Some j
    ∧ z = (if false then Z.max 9 2 else Z.min 9 2)
    ∧ ((z = 9 ∧ j = 11) ∨ (z ≠ 9 ∧ z = 2 ∧ j = 21)).
Proof.
  apply (@cmp_merge_kv_pairs Z Z int64_pack [3; 9; 4] [7; 2; 4]
           [10; 11; 12] [20; 21; 22] [true; false; true] 1 9 2 11 21 false);
    reflexivity.
Defined.

(** ** The extremes that [partition_avx512] reports *)

(** X7: on a range without NaN whose length is not between [numlanes] and
    [2 * numlanes - 1], so that the path for a single register is not
    taken, [partition_avx512] reports the least and the greatest value of
    the range, each taken together with its seed; on an empty range it
    reports the seeds. *)
Theorem partition_avx512_extremes {T : Type} `{V : zmm_vector T}
    `{!zmm_vector_ok T} (arr : list T) (left right : Z) (P s b : T) :
  0 ≤ left → left ≤ right → right ≤ len arr → len arr < 2 ^ 64 →
  numeric (seg arr left right) →
  isnan P = false → isnan s = false → isnan b = false →
  (right - left) / nl ≠ 1 →
  ∃ arr' p s' b',
    partition_avx512 arr left right P s b = Ok (arr', p, s', b')
    ∧ isnan s' = false ∧ isnan b' = false
    ∧ key s' = kmin (key s) (seg arr left right)
    ∧ key b' = kmax (key b) (seg arr left right).
Proof.
  intros Hl Hlr Hr Hlen Hnum HP Hs Hb Hdiv.
  assert (HN := numlanes_pos).
  destruct (range_split arr left right) as (Harr & HlA & HlM); [lia | lia |].
  revert Harr HlA HlM Hnum.
  generalize (take (Z.to_nat left) arr) (seg arr left right)
             (drop (Z.to_nat right) arr).
  intros A M B Harr HlA HlM Hnum. subst arr left.
  assert (right = len A + len M) as -> by lia.
  destruct (partition_avx512_spec A M B P s b)
    as (L & R & s' & b' & Hrun & _ & _ & _ & Hext); [done.. |].
  destruct Hext as (Hs' & Hns' & Hb' & Hnb').
  { intros Hq. apply Hdiv.
    replace (len A + len M - len A) with (Z.of_nat (length M))
      by (unfold len; lia).
    unfold nl. rewrite <- Nat2Z.inj_div, Hq. done. }
  by exists (A ++ L ++ R ++ B), (len A + len L), s', b'.
Qed.

Lemma partition_avx512_extremes_witness :
  ∃ arr' p s' b',
    @partition_avx512 Z int64_pack (rev (seqZ 0 19)) 1 19 7
      (2 ^ 63 - 1) (- 2 ^ 63) = Ok (arr', p, s', b')
    ∧ false = false ∧ false = false
    ∧ s' = @kmin Z int64_pack (2 ^ 63 - 1) (seg (rev (seqZ 0 19)) 1 19)
    ∧ b' = @kmax Z int64_pack (- 2 ^ 63) (seg (rev (seqZ 0 19)) 1 19).
Proof.
  apply (@partition_avx512_extremes Z int64_pack int64_pack_ok
           (rev (seqZ 0 19)) 1 19 7).
  - lia.
  - lia.
  - vm_compute. congruence.
  - vm_compute. reflexivity.
  - apply Forall_forall. intros x _. reflexivity.
  - reflexivity.
  - reflexivity.
  - reflexivity.
  - vm_compute. congruence.
Defined.

(** ** The recursion of the sort *)

(** X8: whatever the depth budget [max_iters], also zero, where the
    recursion gives way to [std::sort], [qsort_] sorts the range
    [left .. right] of an array without NaN in that range: afterwards the
    range holds a permutation of its entry contents in non-decreasing
    order, and the array is unchanged outside the range. *)
Theorem qsort_sorts_range {T : Type} `{V : zmm_vector T} `{E : externals T}
    `{!zmm_vector_ok T} `{!externals_ok}
    (max_iters : nat) (arr : list T) (left right : Z) :
  threshold_ok →
  0 ≤ left → left ≤ right → right < len arr → len arr < 2 ^ 64 →
  numeric (seg arr left (right + 1)) →
  ∃ arr',
    qsort_ max_iters arr left right = Ok arr'
    ∧ seg arr' left (right + 1) ≡ₚ seg arr left (right + 1)
    ∧ key_sorted (seg arr' left (right + 1))
    ∧ take (Z.to_nat left) arr' = take (Z.to_nat left) arr
    ∧ drop (Z.to_nat (right + 1)) arr' = drop (Z.to_nat (right + 1)) arr.
Proof.
  intros Hthr Hl Hlr Hr Hlen Hnum.
  destruct (range_split arr left (right + 1)) as (Harr & HlA & HlM);
    [lia | lia |].
  revert Harr HlA HlM Hnum.
  generalize (take (Z.to_nat left) arr) (seg arr left (right + 1))
             (drop (Z.to_nat (right + 1)) arr).
  intros A M B Harr HlA HlM Hnum. subst arr left.
  destruct (qsort_spec Hthr max_iters A M B Hnum Hlen)
    as (M' & Hrun & Hp & Hs).
  assert (HlM' : len M' = len M) by (unfold len; by rewrite Hp).
  assert (Hright : right = sub64 (len A + len M) 1).
  { unfold sub64. rewrite wrap_small; [lia |].
    revert Hlen. lens. intros. lia. }
  exists (A ++ M' ++ B). rewrite Hright at 1. split; [exact Hrun |].
  replace (right + 1) with (len A + len M') by lia.
  rewrite seg_mid. split; [done |]. split; [done |]. split.
  - unfold len. by rewrite Nat2Z.id, take_app_length.
  - replace (Z.to_nat (len A + len M')) with (length (A ++ M'))
      by (lens; lia).
    by rewrite (assoc_L (++) A M' B), drop_app_length.
Qed.

Lemma qsort_sorts_range_witness :
  ∃ arr',
    @qsort_ Z int64_pack (@reference_externals Z int64_pack) 0
      (rev (seqZ 0 300)) 10 289 = Ok arr'
    ∧ seg arr' 10 (289 + 1) ≡ₚ seg (rev (seqZ 0 300)) 10 (289 + 1)
    ∧ @key_sorted Z int64_pack (seg arr' 10 (289 + 1))
    ∧ take (Z.to_nat 10) arr' = take (Z.to_nat 10) (rev (seqZ 0 300))
    ∧ drop (Z.to_nat (289 + 1)) arr'
      = drop (Z.to_nat (289 + 1)) (rev (seqZ 0 300)).
Proof.
  apply (@qsort_sorts_range Z int64_pack (@reference_externals Z int64_pack)
           int64_pack_ok (@reference_externals_ok Z _)).
  - exact int64_threshold_ok.
  - lia.
  - lia.
  - vm_compute. reflexivity.
  - vm_compute. reflexivity.
  - apply Forall_forall. intros x _. reflexivity.
Defined.

(** ** The pivot samplers *)

Section SamplerFacts.
Context {T : Type} `{V : zmm_vector T} `{E : externals T}.
Implicit Types arr S : list T.

Lemma seg_lookup arr left right p x :
  0 ≤ left → left ≤ p → p ≤ right →
  arr !! Z.to_nat p = Some x → x ∈ seg arr left (right + 1).
Proof.
  intros Hl Hp Hr Hx. unfold seg.
  apply (list_elem_of_lookup_2 _ (Z.to_nat (p - left))).
  rewrite lookup_take_lt by lia. rewrite lookup_drop.
  by replace (Z.to_nat left + Z.to_nat (p - left))%nat with (Z.to_nat p)
    by lia.
Qed.

Lemma reads_sample arr left right ps :
  0 ≤ left → right < len arr →
  Forall (λ p, left ≤ p ≤ right) ps →
  ∃ S, reads arr ps = Ok S ∧ length S = length ps
       ∧ Forall (λ x, x ∈ seg arr left (right + 1)) S.
Proof.
  intros Hl Hr Hps.
  exists (map (λ p, default type_max (arr !! Z.to_nat p)) ps).
  split; [| split].
  - apply reads_lookup. eapply Forall_impl; [exact Hps |]. simpl. lia.
  - by rewrite length_map.
  - apply Forall_fmap. eapply Forall_impl; [exact Hps |]. simpl.
    intros p [Hp1 Hp2].
    destruct (lookup_lt_is_Some_2 arr (Z.to_nat p)) as [x Hx].
    { unfold len in Hr. lia. }
    rewrite Hx. simpl. by apply (seg_lookup arr left right p).
Qed.

Lemma lane_sort_vec S (k : nat) :
  sort_vec_ok → (k < length S)%nat →
  ∃ P, lane (sort_vec S) k = Ok P ∧ P ∈ S.
Proof.
  intros Hsv Hk. unfold lane.
  destruct (lookup_lt_is_Some_2 (sort_vec S) k) as [P HP].
  { by rewrite (Permutation_length (Hsv S)). }
  rewrite HP. exists P. split; [done |].
  rewrite <- (Hsv S). by eapply list_elem_of_lookup_2.
Qed.

(** The sample positions [left + i * ((right - left) / n)], [0 <= i <= n],
    lie in the range. *)
Lemma stride_in_range n left right i :
  0 < n → 0 ≤ left → left ≤ right → right < 2 ^ 64 → 0 ≤ i → i ≤ n →
  left ≤ add64 left (wrap (i * (sub64 right left / n))) ≤ right.
Proof.
  intros Hn Hl Hlr Hr Hi Hin. unfold sub64.
  rewrite (wrap_small (right - left)) by lia.
  assert (Hsize : 0 ≤ (right - left) / n) by (apply Z.div_pos; lia).
  assert (Hspan : n * ((right - left) / n) ≤ right - left)
    by (apply Z.mul_div_le; lia).
  revert Hsize Hspan. generalize ((right - left) / n). intros size Hs Hspan.
  assert (0 ≤ i * size ≤ n * size) by nia.
  unfold add64. rewrite (wrap_small (i * size)) by lia.
  rewrite wrap_small by lia. lia.
Qed.

Lemma stride_positions n first count left right :
  0 < n → 0 ≤ left → left ≤ right → right < 2 ^ 64 →
  0 ≤ first → first + count ≤ n + 1 →
  Forall (λ p, left ≤ p ≤ right)
    (map (λ i, add64 left (wrap (i * (sub64 right left / n))))
         (seqZ first count)).
Proof.
  intros Hn Hl Hlr Hr Hf Hc. apply Forall_fmap, Forall_seqZ.
  intros i Hi. simpl. apply stride_in_range; lia.
Qed.

Lemma get_pivot_64bit_in_range arr left right :
  sort_vec_ok → 0 ≤ left → left ≤ right → right < len arr →
  len arr < 2 ^ 64 →
  ∃ P, get_pivot_64bit arr left right = Ok P
       ∧ P ∈ seg arr left (right + 1).
Proof.
  intros Hsv Hl Hlr Hr Hlen. unfold get_pivot_64bit.
  destruct (reads_sample arr left right
              (map (λ i, add64 left (wrap (i * (sub64 right left / 8))))
                   (seqZ 1 8)))
    as (S & -> & HlS & HS); [done | done | |].
  { apply stride_positions; lia. }
  rewrite bind_Ok.
  destruct (lane_sort_vec S 4 Hsv) as (P & -> & HP).
  { rewrite HlS, length_map, length_seqZ. lia. }
  exists P. split; [done |]. by eapply Forall_forall in HS.
Qed.

Lemma loadu_whole S : len S = nl → loadu S 0 = Ok S.
Proof.
  intros HS. unfold loadu, read_block. fold nl.
  replace ((0 <=? 0) && (0 <=? nl) && (0 + nl <=? len S)) with true
    by (symmetry; rewrite !andb_true_iff, !Z.leb_le; unfold nl in *; lia).
  change (drop (Z.to_nat 0) S) with S.
  rewrite take_ge; [done |]. unfold len, nl in *. lia.
Qed.

Lemma get_pivot_32bit_in_range arr left right :
  numlanes = 16%nat →
  sort_vec_ok → 0 ≤ left → left ≤ right → right < len arr →
  len arr < 2 ^ 64 →
  ∃ P, get_pivot_32bit arr left right = Ok P
       ∧ P ∈ seg arr left (right + 1).
Proof.
  intros H16 Hsv Hl Hlr Hr Hlen. unfold get_pivot_32bit.
  destruct (reads_sample arr left right
              (map (λ i, add64 left (wrap (i * (sub64 right left / 16))))
                   (seqZ 1 16)))
    as (S & -> & HlS & HS); [done | done | |].
  { apply stride_positions; lia. }
  rewrite length_map, length_seqZ in HlS.
  rewrite bind_Ok, loadu_whole, bind_Ok by (unfold len, nl; lia).
  destruct (lane_sort_vec S 8 Hsv) as (P & -> & HP); [lia |].
  exists P. split; [done |]. by eapply Forall_forall in HS.
Qed.

Lemma get_pivot_16bit_in_range arr left right :
  numlanes = 32%nat →
  sort_vec_ok → 0 ≤ left → left ≤ right → right < len arr →
  len arr < 2 ^ 64 →
  ∃ P, get_pivot_16bit arr left right = Ok P
       ∧ P ∈ seg arr left (right + 1).
Proof.
  intros H32 Hsv Hl Hlr Hr Hlen. unfold get_pivot_16bit.
  destruct (reads_sample arr left right
              (left ::
               map (λ i, add64 left (wrap (i * (sub64 right left / 32))))
                   (seqZ 1 31)))
    as (S & -> & HlS & HS); [done | done | |].
  { apply Forall_cons_2; [lia |]. apply stride_positions; lia. }
  rewrite length_cons, length_map, length_seqZ in HlS.
  rewrite bind_Ok, loadu_whole, bind_Ok by (unfold len, nl; lia).
  destruct (lane_sort_vec S 16 Hsv) as (P & -> & HP); [lia |].
  exists P. split; [done |]. by eapply Forall_forall in HS.
Qed.

Lemma get_pivot_scalar_in_range arr left right :
  (0 < numlanes)%nat →
  sort_vec_ok → 0 ≤ left → left ≤ right → right < len arr →
  len arr < 2 ^ 64 →
  ∃ P, get_pivot_scalar arr left right = Ok P
       ∧ P ∈ seg arr left (right + 1).
Proof.
  intros HN Hsv Hl Hlr Hr Hlen. unfold get_pivot_scalar.
  assert (HN' : 0 < nl) by (unfold nl; lia).
  destruct (reads_sample arr left right
              (map (λ i, add64 left (wrap (i * (sub64 right left / nl))))
                   (seqZ 0 nl)))
    as (S & -> & HlS & HS); [done | done | |].
  { apply stride_positions; lia. }
  rewrite length_map, length_seqZ in HlS.
  rewrite bind_Ok, loadu_whole, bind_Ok by (unfold len, nl in *; lia).
  destruct (lane_sort_vec S (Z.to_nat (nl / 2)) Hsv) as (P & -> & HP).
  { assert (nl / 2 < nl) by (apply Z.div_lt; lia). lia. }
  exists P. split; [done |]. by eapply Forall_forall in HS.
Qed.

(** Whichever sampler the lane count selects, the pivot is an element of
    the range. *)
Lemma get_pivot_spec arr left right :
  (0 < numlanes)%nat → sort_vec_ok →
  0 ≤ left → left ≤ right → right < len arr → len arr < 2 ^ 64 →
  ∃ P, get_pivot arr left right = Ok P ∧ P ∈ seg arr left (right + 1).
Proof.
  intros HN Hsv Hl Hlr Hr Hlen. unfold get_pivot.
  destruct (Nat.eqb_spec numlanes 8);
    [by apply get_pivot_64bit_in_range |].
  destruct (Nat.eqb_spec numlanes 16);
    [by apply get_pivot_32bit_in_range |].
  destruct (Nat.eqb_spec numlanes 32);
    [by apply get_pivot_16bit_in_range |].
  by apply get_pivot_scalar_in_range.
Qed.

End SamplerFacts.

Section SamplerAloneFacts.
Context {T : Type} `{V : zmm_vector T} `{E : externals T}.
Implicit Types arr : list T.

Lemma read_seg arr left right p :
  0 ≤ left → right < len arr → left ≤ p → p ≤ right →
  read (seg arr left (right + 1)) (p - left) = read arr p.
Proof.
  intros Hl Hr Hp1 Hp2. unfold read.
  assert (Hls : len (seg arr left (right + 1)) = right + 1 - left).
  { unfold seg, len in *. rewrite length_take, length_drop. lia. }
  rewrite Hls.
  replace ((0 <=? p - left) && (p - left <? right + 1 - left)) with true
    by (symmetry; apply andb_true_iff; split;
        [apply Z.leb_le | apply Z.ltb_lt]; lia).
  replace ((0 <=? p) && (p <? len arr)) with true
    by (symmetry; apply andb_true_iff; split;
        [apply Z.leb_le | apply Z.ltb_lt]; lia).
  unfold seg. rewrite lookup_take_lt by lia. rewrite lookup_drop.
  by replace (Z.to_nat left + Z.to_nat (p - left))%nat with (Z.to_nat p)
    by lia.
Qed.

Lemma reads_seg arr left right ps :
  0 ≤ left → right < len arr →
  Forall (λ p, left ≤ p ≤ right) ps →
  reads (seg arr left (right + 1)) (map (λ p, p - left) ps) = reads arr ps.
Proof.
  intros Hl Hr. induction 1 as [|p ps [Hp1 Hp2] _ IH]; [done |].
  cbn [map reads]. by rewrite read_seg, IH.
Qed.

(** The sample positions of the range taken alone are those of the range in
    the array, less [left]. *)
Lemma stride_alone n first count left right :
  0 < n → 0 ≤ left → left ≤ right → right < 2 ^ 64 →
  0 ≤ first → first + count ≤ n + 1 →
  map (λ i, add64 0 (wrap (i * (sub64 (right - left) 0 / n))))
      (seqZ first count)
  = map (λ p, p - left)
        (map (λ i, add64 left (wrap (i * (sub64 right left / n))))
             (seqZ first count)).
Proof.
  intros Hn Hl Hlr Hr Hf Hc. rewrite map_map.
  apply Forall_fmap_ext_1, Forall_seqZ. intros i Hi.
  unfold sub64. rewrite Z.sub_0_r.
  rewrite (wrap_small (right - left)) by lia.
  assert (Hsize : 0 ≤ (right - left) / n) by (apply Z.div_pos; lia).
  assert (Hspan : n * ((right - left) / n) ≤ right - left)
    by (apply Z.mul_div_le; lia).
  revert Hsize Hspan. generalize ((right - left) / n). intros size Hs Hspan.
  assert (0 ≤ i * size ≤ n * size) by nia.
  unfold add64. rewrite (wrap_small (i * size)) by lia.
  rewrite !wrap_small by lia. lia.
Qed.

(** [get_pivot] on the range taken alone, an array in which every position
    outside the range is out of bounds, is [get_pivot] on the range in the
    array. *)
Lemma get_pivot_alone arr left right :
  (0 < numlanes)%nat →
  0 ≤ left → left ≤ right → right < len arr → len arr < 2 ^ 64 →
  get_pivot (seg arr left (right + 1)) 0 (right - left)
  = get_pivot arr left right.
Proof.
  intros HN Hl Hlr Hr Hlen.
  assert (HN' : 0 < nl) by (unfold nl; lia).
  unfold get_pivot, get_pivot_64bit, get_pivot_32bit, get_pivot_16bit,
    get_pivot_scalar.
  destruct (numlanes =? 8)%nat;
    [| destruct (numlanes =? 16)%nat; [| destruct (numlanes =? 32)%nat]].
  - rewrite (stride_alone 8 1 8 left right) by lia.
    rewrite (reads_seg arr left right); [done.. |].
    apply stride_positions; lia.
  - rewrite (stride_alone 16 1 16 left right) by lia.
    rewrite (reads_seg arr left right); [done.. |].
    apply stride_positions; lia.
  - rewrite (stride_alone 32 1 31 left right) by lia.
    replace 0 with (left - left) at 1 by lia.
    change (left - left
            :: map (λ p, p - left)
                 (map (λ i, add64 left (wrap (i * (sub64 right left / 32))))
                      (seqZ 1 31)))
      with (map (λ p, p - left)
              (left
               :: map (λ i, add64 left (wrap (i * (sub64 right left / 32))))
                    (seqZ 1 31))).
    rewrite (reads_seg arr left right); [done.. |].
    apply Forall_cons_2; [lia |]. apply stride_positions; lia.
  - rewrite (stride_alone nl 0 nl left right) by lia.
    rewrite (reads_seg arr left right); [done.. |].
    apply stride_positions; lia.
Qed.

End SamplerAloneFacts.

(** X9: when [sort_vec] returns the lanes it is given in some order,
    [get_pivot] returns, whichever sampler (of 8, 16, 32 or [numlanes]
    samples) the lane count selects, and the pivot is an element of
    [arr[left .. right]]; the call on that range taken alone, an array in
    which every position outside the range is out of bounds, returns the
    same pivot.  So the pivot of [qselect_] is not a NaN when the range
    holds none, and no position outside the range is needed for it. *)
Theorem get_pivot_in_range {T : Type} `{V : zmm_vector T} `{E : externals T}
    (arr : list T) (left right : Z) :
  (0 < numlanes)%nat → sort_vec_ok →
  0 ≤ left → left ≤ right → right < len arr → len arr < 2 ^ 64 →
  ∃ P, get_pivot arr left right = Ok P
       ∧ P ∈ seg arr left (right + 1)
       ∧ get_pivot (seg arr left (right + 1)) 0 (right - left) = Ok P.
Proof.
  intros HN Hsv Hl Hlr Hr Hlen.
  rewrite get_pivot_alone by done.
  destruct (get_pivot_spec arr left right) as (P & HP & Hin); [done.. |].
  by exists P.
Qed.

Lemma get_pivot_in_range_witness :
  ∃ P,
    @get_pivot Z float_pack (@reference_externals Z float_pack)
      (rev (seqZ 0 40)) 3 38 = Ok P
    ∧ P ∈ seg (rev (seqZ 0 40)) 3 (38 + 1)
    ∧ @get_pivot Z float_pack (@reference_externals Z float_pack)
        (seg (rev (seqZ 0 40)) 3 (38 + 1)) 0 (38 - 3) = Ok P.
Proof.
  apply (@get_pivot_in_range Z float_pack
           (@reference_externals Z float_pack)).
  - vm_compute. lia.
  - intros v. apply insertion_sort_perm.
  - lia.
  - lia.
  - vm_compute. reflexivity.
  - vm_compute. reflexivity.
Defined.

(** ** The selection *)

Section SelectFacts.
Context {T : Type} `{V : zmm_vector T} `{E : externals T}.
Implicit Types A B L R M : list T.

Lemma sorted_selected M (k : nat) :
  key_sorted M → (k < length M)%nat → selected M k.
Proof.
  intros Hs Hk.
  destruct (lookup_lt_is_Some_2 M k Hk) as [x Hx].
  assert (HM : M = take k M ++ x :: drop (S k) M).
  { by rewrite <- (take_drop_middle M k x Hx) at 1. }
  exists (take k M), x, (drop (S k) M).
  split; [done |]. split; [rewrite length_take; lia |].
  rewrite HM in Hs. unfold key_sorted in Hs.
  split; apply Forall_forall; intros y Hy.
  - apply (StronglySorted_app_1_elem_of _ _ _ y x Hs Hy). left.
  - apply StronglySorted_app_1_r in Hs.
    apply StronglySorted_inv in Hs as [_ Hs].
    by eapply Forall_forall in Hs.
Qed.

Lemma selected_app_l L R (P : T) (k : nat) :
  Forall (λ x, key x < key P) L → Forall (λ x, key P ≤ key x) R →
  selected L k → selected (L ++ R) k.
Proof.
  intros HL HR (L1 & x & L2 & -> & Hk & H1 & H2).
  exists L1, x, (L2 ++ R). split; [by rewrite <- (assoc_L (++)) |].
  split; [done |]. split; [done |].
  apply Forall_app. split; [done |].
  apply Forall_app in HL as [_ HL]. apply Forall_cons in HL as [Hx _].
  eapply Forall_impl; [exact HR |]. simpl. intros. lia.
Qed.

Lemma selected_app_r L R (P : T) (k : nat) :
  Forall (λ x, key x < key P) L → Forall (λ x, key P ≤ key x) R →
  selected R k → selected (L ++ R) (length L + k).
Proof.
  intros HL HR (R1 & x & R2 & -> & Hk & H1 & H2).
  exists (L ++ R1), x, R2. split; [by rewrite <- (assoc_L (++)) |].
  split; [rewrite length_app; lia |]. split; [| done].
  apply Forall_app. split; [| done].
  apply Forall_app in HR as [_ HR]. apply Forall_cons in HR as [Hx _].
  eapply Forall_impl; [exact HL |]. simpl. intros. lia.
Qed.

(** Behind a pivot that is the greatest value, every position of the right
    part is in its place. *)
Lemma selected_top L R (P : T) (k : nat) :
  Forall (λ x, key x < key P) L → Forall (λ x, key x = key P) R →
  (length L ≤ k < length (L ++ R))%nat → selected (L ++ R) k.
Proof.
  intros HL HR Hk. rewrite length_app in Hk.
  destruct (lookup_lt_is_Some_2 R (k - length L)) as [x Hx]; [lia |].
  assert (HR' := take_drop_middle R _ x Hx).
  rewrite <- HR' in HR.
  apply Forall_app in HR as [H1 H2]. apply Forall_cons in H2 as [Hx' H2].
  exists (L ++ take (k - length L) R), x, (drop (S (k - length L)) R).
  split; [by rewrite <- (assoc_L (++)), HR' |].
  split; [rewrite length_app, length_take; lia |].
  split.
  - apply Forall_app. split.
    + eapply Forall_impl; [exact HL |]. simpl. intros. lia.
    + eapply Forall_impl; [exact H1 |]. simpl. intros. lia.
  - eapply Forall_impl; [exact H2 |]. simpl. intros. lia.
Qed.

Lemma selected_perm_length M M' k :
  M' ≡ₚ M → selected M' k → (k < length M)%nat.
Proof.
  intros Hp (L & x & R & -> & Hk & _). rewrite <- Hp, length_app. simpl. lia.
Qed.

(** [qselect_] puts the element of rank [pos] of the range at [pos], whatever
    the depth budget. *)
Lemma qselect_spec `{!zmm_vector_ok T} `{!externals_ok}
    (Hthr : threshold_ok) (Hsv : sort_vec_ok) (d : nat) : ∀ A M B pos,
  numeric M → len (A ++ M ++ B) < 2 ^ 64 →
  len A ≤ pos → pos < len A + len M →
  ∃ M', qselect_ d (A ++ M ++ B) pos (len A) (sub64 (len A + len M) 1)
        = Ok (A ++ M' ++ B)
        ∧ M' ≡ₚ M ∧ selected M' (Z.to_nat (pos - len A)).
Proof.
  pose proof numlanes_pos as Hn.
  induction d as [|d IH]; intros A M B pos HM Hlen Hpos1 Hpos2.
  { cbn [qselect_]. rewrite range_length by (revert Hlen; lens; lia).
    destruct (std_sort_ok M HM) as [Hp Hs].
    exists (std_sort M). rewrite sort_range_spec by done.
    split; [done |]. split; [done |].
    apply sorted_selected; [done |]. rewrite Hp. unfold len in *. lia. }
  cbn [qselect_]. rewrite range_length by (revert Hlen; lens; lia).
  destruct (Z.leb_spec (len M) network_sort_threshold) as [Hsmall|Hbig].
  { destruct (sort_n_ok M HM Hsmall) as [Hp Hs].
    exists (sort_n M). rewrite sort_range_spec by done.
    split; [done |]. split; [done |].
    apply sorted_selected; [done |]. rewrite Hp. unfold len in *. lia. }
  rewrite range_end by (revert Hlen; lens; lia).
  assert (HlA := len_nonneg A). assert (HlB := len_nonneg B).
  assert (Hlen' : len A + len M + len B < 2 ^ 64).
  { revert Hlen. lens. lia. }
  assert (Hright : sub64 (len A + len M) 1 = len A + len M - 1).
  { unfold sub64. apply wrap_small. lia. }
  destruct (get_pivot_spec (A ++ M ++ B) (len A) (len A + len M - 1))
    as (P & HPrun & HPin); [done | done | lia | lia | | done |].
  { revert Hlen'. lens. lia. }
  rewrite Hright, HPrun, bind_Ok.
  replace (len A + len M - 1 + 1) with (len A + len M) in HPin by lia.
  rewrite seg_mid in HPin.
  assert (HP : isnan P = false) by (by eapply Forall_forall in HM).
  destruct (partition_driver_spec A M B P type_max type_min)
    as (L & R & s' & b' & Heq & Hperm & HL & HR & Hs' & Hns' & Hb' & Hnb');
    try done; [apply type_max_num | apply type_min_num |].
  rewrite Heq, bind_Ok. cbn iota beta.
  assert (HLR : numeric L ∧ numeric R).
  { unfold numeric in *. rewrite <- Hperm in HM. by apply Forall_app. }
  destruct HLR as [HLn HRn].
  assert (HlLR : len M = len L + len R).
  { unfold len. rewrite <- Hperm, length_app. lia. }
  assert (HlL := len_nonneg L). assert (HlR := len_nonneg R).
  assert (HlenLR : len (A ++ L ++ R ++ B) < 2 ^ 64).
  { revert Hlen' HlLR. lens. lia. }
  assert (Hnes : ne P s' = negb (key P =? key s')).
  { unfold ne, num. by rewrite HP, Hns'. }
  assert (Hneb : ne P b' = negb (key P =? key b')).
  { unfold ne, num. by rewrite HP, Hnb'. }
  destruct (Z.ltb_spec pos (len A + len L)) as [Hlt|Hge].
  - (* the position is in the left part *)
    assert (Hne : ne P s' = true).
    { rewrite Hnes. apply negb_true_iff, Z.eqb_neq. intros Heqk.
      destruct L as [|x L]; [unfold len in *; simpl in *; lia |].
      inversion HL as [|? ? Hx _]; subst.
      destruct (kmin_spec (key type_max) M) as (_ & Hall & _).
      rewrite Forall_forall in Hall.
      assert (Hin : x ∈ M) by (rewrite <- Hperm; left).
      specialize (Hall x Hin). lia. }
    rewrite Hne. simpl.
    destruct (IH A L (R ++ B) pos HLn HlenLR Hpos1 Hlt)
      as (L' & HeqL & HpL & HsL).
    rewrite HeqL. exists (L' ++ R). rewrite <- (assoc_L (++)).
    split; [done |]. split; [by rewrite HpL |].
    apply (selected_app_l L' R P); [by rewrite HpL | done | done].
  - (* the position is in the right part *)
    replace (ne P s' && false) with false by (by destruct (ne P s')).
    replace (len A + len L <=? pos) with true
      by (symmetry; apply Z.leb_le; lia).
    rewrite andb_true_r.
    replace (Z.to_nat (pos - len A))
      with (length L + Z.to_nat (pos - len (A ++ L)))%nat
      by (lens; lia).
    destruct (ne P b') eqn:Hne.
    + destruct (IH (A ++ L) R B pos HRn) as (R' & HeqR & HpR & HsR).
      { revert HlenLR. rewrite <- (assoc_L (++)). lens. lia. }
      { lens. lia. }
      { lens. lia. }
      exists (L ++ R'). split; [| split].
      * rewrite <- !(assoc_L (++)) in HeqR.
        rewrite <- (assoc_L (++) L R' B), <- HeqR, <- Hright.
        f_equal; [lens; lia |]. f_equal. revert HlLR. lens. lia.
      * by rewrite HpR.
      * apply (selected_app_r L R' P); [done | by rewrite HpR | done].
    + exists (L ++ R). split; [by rewrite <- (assoc_L (++)) |].
      split; [done |].
      symmetry in Hneb. apply negb_false_iff, Z.eqb_eq in Hneb.
      apply (selected_top L R P); [done | |].
      * destruct (kmax_spec (key type_min) M) as (_ & Hall & _).
        rewrite Forall_forall in Hall, HR |- *. intros x Hx.
        assert (Hin : x ∈ M) by (rewrite <- Hperm, elem_of_app; by right).
        specialize (Hall x Hin). specialize (HR x Hx). lia.
      * revert HlLR. lens. lia.
Qed.

End SelectFacts.

Section SelectDriverFacts.
Context {T : Type} `{V : zmm_vector T} `{E : externals T}.
Implicit Types A B L R M Y : list T.

(** A range of no element is left alone. *)
Lemma qselect_empty `{!externals_ok} (d : nat) (arr : list T) pos left right :
  0 ≤ network_sort_threshold → 0 ≤ left → left ≤ len arr →
  sub64 (add64 right 1) left = 0 →
  qselect_ d arr pos left right = Ok arr.
Proof.
  intros Hthr Hl Hle Hsz.
  assert (Hnil : ∀ f : list T → list T, f [] ≡ₚ [] →
                 sort_range f arr left 0 = Ok arr).
  { intros f Hf. apply Permutation_nil_r in Hf.
    unfold sort_range, read_block.
    replace ((0 <=? left) && (0 <=? 0) && (left + 0 <=? len arr)) with true
      by (symmetry; rewrite !andb_true_iff, !Z.leb_le; lia).
    change (take (Z.to_nat 0) (drop (Z.to_nat left) arr)) with (@nil T).
    rewrite bind_Ok, Hf. done. }
  destruct d as [|d]; cbn [qselect_]; rewrite Hsz.
  - apply Hnil. apply (std_sort_ok []). constructor.
  - replace (0 <=? network_sort_threshold) with true
      by (symmetry; apply Z.leb_le; lia).
    apply Hnil. apply (sort_n_ok []); [constructor | done].
Qed.

(** [avx512_qselect] without the pass over the NaNs. *)
Lemma avx512_qselect_plain `{!zmm_vector_ok T} `{!externals_ok}
    M B k (hasnan : bool) :
  threshold_ok → sort_vec_ok →
  is_floating_point_v && hasnan = false →
  numeric M → len (M ++ B) < 2 ^ 64 → 0 ≤ k → k < len M →
  ∃ M', avx512_qselect (M ++ B) k (len M) hasnan = Ok (M' ++ B)
        ∧ M' ≡ₚ M ∧ selected M' (Z.to_nat k).
Proof.
  intros Hthr Hsv Hflag HM Hlen Hk0 Hk.
  unfold avx512_qselect. rewrite Hflag. rewrite bind_Ok. cbn iota beta.
  assert (HlB := len_nonneg B). rewrite len_app in Hlen.
  assert (Hlast : sub64 (len M) 1 = len M - 1).
  { unfold sub64. apply wrap_small. lia. }
  rewrite Hlast.
  replace (k <=? len M - 1) with true by (symmetry; apply Z.leb_le; lia).
  destruct (qselect_spec Hthr Hsv (depth_limit (len M - 1)) [] M B k)
    as (M' & Hrun & Hp & Hsel);
    [done | simpl; by rewrite len_app | unfold len in *; simpl; lia.. |].
  exists M'. split; [| split; [done |]].
  - cbn [app] in Hrun. change (len (@nil T)) with 0 in Hrun.
    change (0 + len M) with (len M) in Hrun. by rewrite Hlast in Hrun.
  - by rewrite Z.sub_0_r in Hsel.
Qed.

(** [avx512_qselect] behind the pass that moves the NaNs. *)
Lemma avx512_qselect_nans `{!zmm_vector_ok T} `{!externals_ok} M B k :
  threshold_ok → sort_vec_ok →
  is_floating_point_v = true →
  M ≠ [] → len (M ++ B) < 2 ^ 64 → 0 ≤ k →
  ∃ Y Z, avx512_qselect (M ++ B) k (len M) true = Ok ((Y ++ Z) ++ B)
         ∧ numeric Y ∧ Forall (λ x, isnan x = true) Z
         ∧ Y ++ Z ≡ₚ M
         ∧ (k < len Y → selected Y (Z.to_nat k))
         ∧ (len Y ≤ k →
            ∃ r, move_nans_to_end_of_array (M ++ B) (len M)
                 = Ok ((Y ++ Z) ++ B, r)).
Proof.
  intros Hthr Hsv Hfp HMne Hlen Hk0.
  assert (Hthr0 : 0 ≤ network_sort_threshold).
  { pose proof numlanes_pos. unfold threshold_ok, nl in Hthr. nia. }
  unfold avx512_qselect. rewrite Hfp. simpl.
  destruct (move_nans_spec M B HMne Hlen) as (Y & Z & -> & HY & HZ & Hp).
  rewrite bind_Ok. cbn iota beta.
  assert (HlenY : len ((Y ++ Z) ++ B) < 2 ^ 64).
  { revert Hlen. apply Permutation_length in Hp. revert Hp. lens. lia. }
  assert (HlY := len_nonneg Y).
  destruct (Z.leb_spec k (sub64 (len Y) 1)) as [Hle|Hgt].
  - destruct Y as [|y Y].
    + exists [], Z. rewrite qselect_empty; [| done | done | | done].
      * split; [done |]. split; [done |]. split; [done |]. split; [done |].
        split; [unfold len; simpl; lia | by eexists].
      * pose proof (len_nonneg ((@nil T ++ Z) ++ B)). lia.
    + assert (Hlast : sub64 (len (y :: Y)) 1 = len (y :: Y) - 1).
      { unfold sub64. apply wrap_small. revert HlenY. lens. lia. }
      rewrite Hlast in Hle.
      destruct (qselect_spec Hthr Hsv (depth_limit (sub64 (len (y :: Y)) 1))
                  [] (y :: Y) (Z ++ B) k)
        as (Y' & Hrun & HpY & Hsel);
        [done | | unfold len in *; simpl in *; lia.. |].
      { by rewrite <- (assoc_L (++)) in HlenY. }
      exists Y', Z. rewrite <- !(assoc_L (++)).
      cbn [app] in Hrun. change (len (@nil T)) with 0 in Hrun.
      change (0 + len (y :: Y)) with (len (y :: Y)) in Hrun.
      split; [exact Hrun |].
      split; [unfold numeric; by rewrite HpY |].
      split; [done |]. split; [by rewrite HpY |].
      split; [intros _; by rewrite Z.sub_0_r in Hsel |].
      intros HkY. apply Permutation_length in HpY. unfold len in *. lia.
  - exists Y, Z. split; [done |]. split; [done |]. split; [done |].
    split; [done |]. split; [| by eexists]. intros HkY.
    destruct Y as [|y Y]; [unfold len in HkY; simpl in HkY; lia |].
    unfold sub64 in Hgt. rewrite wrap_small in Hgt; [lia |].
    revert HlenY. lens. lia.
Qed.

End SelectDriverFacts.

Section SelectDriverFacts2.
Context {T : Type} `{V : zmm_vector T} `{E : externals T}.
Implicit Types A B L R M Y : list T.

(** [avx512_qselect] on a range without NaN, with or without the pass that
    moves the NaNs. *)
Lemma avx512_qselect_numeric `{!zmm_vector_ok T} `{!externals_ok}
    M B k (hasnan : bool) :
  threshold_ok → sort_vec_ok →
  numeric M → len (M ++ B) < 2 ^ 64 → 0 ≤ k → k < len M →
  ∃ M', avx512_qselect (M ++ B) k (len M) hasnan = Ok (M' ++ B)
        ∧ M' ≡ₚ M ∧ selected M' (Z.to_nat k).
Proof.
  intros Hthr Hsv HM Hlen Hk0 Hk.
  destruct (is_floating_point_v && hasnan) eqn:Hflag.
  2:{ by apply avx512_qselect_plain. }
  apply andb_true_iff in Hflag as [Hfp ->].
  destruct (avx512_qselect_nans M B k Hthr Hsv Hfp)
    as (Y & Z & Hrun & HY & HZ & Hp & Hsel & _); [| done | done |].
  { intros ->. unfold len in Hk. simpl in Hk. lia. }
  assert (Z = []) as ->.
  { destruct Z as [|z Z]; [done | exfalso].
    apply Forall_cons in HZ as [Hz _].
    assert (Hin : z ∈ M) by (rewrite <- Hp, elem_of_app; right; left).
    eapply Forall_forall in HM; [| exact Hin]. congruence. }
  rewrite app_nil_r in *.
  exists Y. split; [done |]. split; [done |].
  apply Hsel. unfold len. by rewrite Hp.
Qed.

End SelectDriverFacts2.

(** X10: for pack constants with [threshold_ok], that is
    [2 * max 1 partition_unroll_factor * numlanes <= network_sort_threshold],
    with [sort_n], [std::sort] and [get_pivot_blocks] under their contracts
    and a [sort_vec] that returns its lanes in some order: whatever the
    depth budget,
    [qselect_] on a range [left .. right] without NaN leaves at [pos] an
    element that no element of the range before it exceeds and that exceeds
    no element of the range behind it; the range holds a permutation of its
    entry contents and the array is unchanged outside the range. *)
Theorem qselect_selects {T : Type} `{V : zmm_vector T} `{E : externals T}
    `{!zmm_vector_ok T} `{!externals_ok}
    (max_iters : nat) (arr : list T) (pos left right : Z) :
  threshold_ok → sort_vec_ok →
  0 ≤ left → left ≤ pos → pos ≤ right → right < len arr →
  len arr < 2 ^ 64 →
  numeric (seg arr left (right + 1)) →
  ∃ arr',
    qselect_ max_iters arr pos left right = Ok arr'
    ∧ seg arr' left (right + 1) ≡ₚ seg arr left (right + 1)
    ∧ selected (seg arr' left (right + 1)) (Z.to_nat (pos - left))
    ∧ take (Z.to_nat left) arr' = take (Z.to_nat left) arr
    ∧ drop (Z.to_nat (right + 1)) arr' = drop (Z.to_nat (right + 1)) arr.
Proof.
  intros Hthr Hsv Hl Hlp Hpr Hr Hlen Hnum.
  destruct (range_split arr left (right + 1)) as (Harr & HlA & HlM);
    [lia | lia |].
  revert Harr HlA HlM Hnum.
  generalize (take (Z.to_nat left) arr) (seg arr left (right + 1))
             (drop (Z.to_nat (right + 1)) arr).
  intros A M B Harr HlA HlM Hnum. subst arr left.
  destruct (qselect_spec Hthr Hsv max_iters A M B pos Hnum Hlen)
    as (M' & Hrun & Hp & Hs); [lia | lia |].
  assert (HlM' : len M' = len M) by (unfold len; by rewrite Hp).
  assert (Hright : right = sub64 (len A + len M) 1).
  { unfold sub64. rewrite wrap_small; [lia |].
    revert Hlen. lens. intros. lia. }
  exists (A ++ M' ++ B). rewrite Hright at 1. split; [exact Hrun |].
  replace (right + 1) with (len A + len M') by lia.
  rewrite seg_mid. split; [done |]. split; [done |]. split.
  - unfold len. by rewrite Nat2Z.id, take_app_length.
  - replace (Z.to_nat (len A + len M')) with (length (A ++ M'))
      by (lens; lia).
    by rewrite (assoc_L (++) A M' B), drop_app_length.
Qed.

Lemma qselect_selects_witness :
  ∃ arr',
    @qselect_ Z int64_pack (@reference_externals Z int64_pack) 5
      (rev (seqZ 0 300)) 100 10 289 = Ok arr'
    ∧ seg arr' 10 (289 + 1) ≡ₚ seg (rev (seqZ 0 300)) 10 (289 + 1)
    ∧ @selected Z int64_pack (seg arr' 10 (289 + 1)) (Z.to_nat (100 - 10))
    ∧ take (Z.to_nat 10) arr' = take (Z.to_nat 10) (rev (seqZ 0 300))
    ∧ drop (Z.to_nat (289 + 1)) arr'
      = drop (Z.to_nat (289 + 1)) (rev (seqZ 0 300)).
Proof.
  apply (@qselect_selects Z int64_pack (@reference_externals Z int64_pack)
           int64_pack_ok (@reference_externals_ok Z _)).
  - exact int64_threshold_ok.
  - intros v. apply insertion_sort_perm.
  - lia.
  - lia.
  - lia.
  - vm_compute. reflexivity.
  - vm_compute. reflexivity.
  - apply Forall_forall. intros x _. reflexivity.
Defined.

(** X11: for pack constants with [threshold_ok], that is
    [2 * max 1 partition_unroll_factor * numlanes <= network_sort_threshold],
    with [sort_n], [std::sort] and [get_pivot_blocks] under their contracts
    and a [sort_vec] that returns its lanes in some order: for
    [0 <= k < N], [avx512_qselect] on an array whose first [N] elements
    hold no NaN, with [hasnan] set or not, permutes those elements so that
    the one at [k] has no greater element before it and no smaller one
    behind it, and leaves the rest of the array alone. *)
Theorem avx512_qselect_selects {T : Type} `{V : zmm_vector T}
    `{E : externals T} `{!zmm_vector_ok T} `{!externals_ok}
    (arr : list T) (k N : Z) (hasnan : bool) :
  threshold_ok → sort_vec_ok →
  0 ≤ k → k < N → N ≤ len arr → len arr < 2 ^ 64 →
  numeric (seg arr 0 N) →
  ∃ arr',
    avx512_qselect arr k N hasnan = Ok arr'
    ∧ seg arr' 0 N ≡ₚ seg arr 0 N
    ∧ selected (seg arr' 0 N) (Z.to_nat k)
    ∧ drop (Z.to_nat N) arr' = drop (Z.to_nat N) arr.
Proof.
  intros Hthr Hsv Hk0 Hk HN Hlen Hnum.
  assert (Hseg : seg arr 0 N = take (Z.to_nat N) arr).
  { unfold seg. by rewrite Z.sub_0_r. }
  rewrite Hseg in *.
  assert (HlM : len (take (Z.to_nat N) arr) = N).
  { unfold len in *. rewrite length_take. lia. }
  assert (Harr := take_drop (Z.to_nat N) arr).
  revert Harr HlM Hnum.
  generalize (take (Z.to_nat N) arr) (drop (Z.to_nat N) arr).
  intros M B Harr HlM Hnum. subst arr N.
  destruct (avx512_qselect_numeric M B k hasnan)
    as (M' & Hrun & Hp & Hsel); [done.. |].
  assert (HlM' : len M' = len M) by (unfold len; by rewrite Hp).
  exists (M' ++ B). split; [exact Hrun |].
  rewrite <- HlM' at 1 2. rewrite seg_prefix.
  split; [done |]. split; [done |].
  replace (Z.to_nat (len M)) with (length M') by (unfold len in *; lia).
  by rewrite drop_app_length.
Qed.

Lemma avx512_qselect_selects_witness :
  ∃ arr',
    @avx512_qselect Z float_pack (@reference_externals Z float_pack)
      (rev (seqZ 0 200)) 17 150 true = Ok arr'
    ∧ seg arr' 0 150 ≡ₚ seg (rev (seqZ 0 200)) 0 150
    ∧ @selected Z float_pack (seg arr' 0 150) (Z.to_nat 17)
    ∧ drop (Z.to_nat 150) arr' = drop (Z.to_nat 150) (rev (seqZ 0 200)).
Proof.
  apply (@avx512_qselect_selects Z float_pack
           (@reference_externals Z float_pack)
           float_pack_ok (@reference_externals_ok Z _)).
  - exact float_threshold_ok.
  - intros v. apply insertion_sort_perm.
  - lia.
  - lia.
  - vm_compute. congruence.
  - vm_compute. reflexivity.
  - apply (bool_decide_unpack _). vm_compute. exact I.
Defined.

(** X12: for a floating-point type and [hasnan] set, for pack constants
    with [threshold_ok], with [sort_n], [std::sort] and [get_pivot_blocks]
    under their contracts and a [sort_vec] that returns its lanes in some
    order, [avx512_qselect] on [N >= 1] elements first moves the NaNs
    behind the other elements and then selects among those: afterwards the
    first [N] elements are a permutation of their entry contents, the
    elements [Y] that are not NaN first and the NaNs behind them; when [k]
    is a position of [Y], the element there has no greater element of [Y]
    before it and no smaller one behind it; when it is not, also when every
    element is a NaN, the array is as [move_nans_to_end_of_array] left it.
    The rest of the array is left alone. *)
Theorem avx512_qselect_moves_nans {T : Type} `{V : zmm_vector T}
    `{E : externals T} `{!zmm_vector_ok T} `{!externals_ok}
    (arr : list T) (k N : Z) :
  is_floating_point_v = true →
  threshold_ok → sort_vec_ok →
  0 ≤ k → 1 ≤ N → N ≤ len arr → len arr < 2 ^ 64 →
  ∃ Y Zs,
    avx512_qselect arr k N true = Ok ((Y ++ Zs) ++ drop (Z.to_nat N) arr)
    ∧ numeric Y ∧ Forall (λ x, isnan x = true) Zs
    ∧ Y ++ Zs ≡ₚ seg arr 0 N
    ∧ (k < len Y → selected Y (Z.to_nat k))
    ∧ (len Y ≤ k →
       ∃ r, move_nans_to_end_of_array arr N
            = Ok ((Y ++ Zs) ++ drop (Z.to_nat N) arr, r)).
Proof.
  intros Hfp Hthr Hsv Hk0 HN1 HN Hlen.
  assert (Hseg : seg arr 0 N = take (Z.to_nat N) arr).
  { unfold seg. by rewrite Z.sub_0_r. }
  rewrite Hseg.
  assert (HlM : len (take (Z.to_nat N) arr) = N).
  { unfold len in *. rewrite length_take. lia. }
  assert (Harr := take_drop (Z.to_nat N) arr).
  revert Harr HlM.
  generalize (take (Z.to_nat N) arr) (drop (Z.to_nat N) arr).
  intros M B Harr HlM. subst arr N.
  apply avx512_qselect_nans; try done.
  intros ->. unfold len in HN1. simpl in HN1. lia.
Qed.

Lemma avx512_qselect_moves_nans_witness :
  ∃ Y Zs,
    @avx512_qselect Z float_pack (@reference_externals Z float_pack)
      [0x7FC00001; 0x40A00000; 0xFFC00000; 0x80000000; 0; 0x40E00000] 1 5
      true
    = Ok ((Y ++ Zs)
          ++ drop (Z.to_nat 5)
               [0x7FC00001; 0x40A00000; 0xFFC00000; 0x80000000; 0;
                0x40E00000])
    ∧ @numeric Z float_pack Y
    ∧ Forall (λ x, @isnan Z float_pack x = true) Zs
    ∧ Y ++ Zs
      ≡ₚ seg [0x7FC00001; 0x40A00000; 0xFFC00000; 0x80000000; 0;
              0x40E00000] 0 5
    ∧ (1 < len Y → @selected Z float_pack Y (Z.to_nat 1))
    ∧ (len Y ≤ 1 →
       ∃ r, @move_nans_to_end_of_array Z float_pack
              [0x7FC00001; 0x40A00000; 0xFFC00000; 0x80000000; 0;
               0x40E00000] 5
            = Ok ((Y ++ Zs)
                  ++ drop (Z.to_nat 5)
                       [0x7FC00001; 0x40A00000; 0xFFC00000; 0x80000000; 0;
                        0x40E00000], r)).
Proof.
  apply (@avx512_qselect_moves_nans Z float_pack
           (@reference_externals Z float_pack)
           float_pack_ok (@reference_externals_ok Z _)).
  - reflexivity.
  - exact float_threshold_ok.
  - intros v. apply insertion_sort_perm.
  - lia.
  - lia.
  - vm_compute. congruence.
  - vm_compute. reflexivity.
Defined.

(** X13: for pack constants with [threshold_ok], that is
    [2 * max 1 partition_unroll_factor * numlanes <= network_sort_threshold],
    with [sort_n], [std::sort] and [get_pivot_blocks] under their contracts
    and a [sort_vec] that returns its lanes in some order: for
    [1 <= k <= N], [avx512_partial_qsort] on an array of fewer than [2^63]
    elements whose first [N] elements are values of the type and hold no
    NaN returns with those elements permuted so that the first [k] are in
    non-decreasing order and none of the others is smaller than the
    [k]-th; the rest of the array is left alone. *)
Theorem avx512_partial_qsort_prefix {T : Type} `{V : zmm_vector T}
    `{E : externals T} `{!zmm_vector_ok T} `{!externals_ok}
    (arr : list T) (k N : Z) (hasnan : bool) :
  threshold_ok → sort_vec_ok →
  1 ≤ k → k ≤ N → N ≤ len arr → len arr < 2 ^ 63 →
  numeric (seg arr 0 N) → typed (seg arr 0 N) →
  ∃ S x R,
    avx512_partial_qsort arr k N hasnan
    = Ok (S ++ x :: R ++ drop (Z.to_nat N) arr)
    ∧ len S = k - 1
    ∧ key_sorted (S ++ [x])
    ∧ Forall (λ y, key x ≤ key y) R
    ∧ S ++ x :: R ≡ₚ seg arr 0 N.
Proof.
  intros Hthr Hsv Hk1 HkN HN Hlen Hnum Hty.
  assert (Hseg : seg arr 0 N = take (Z.to_nat N) arr).
  { unfold seg. by rewrite Z.sub_0_r. }
  rewrite Hseg in *.
  assert (HlM : len (take (Z.to_nat N) arr) = N).
  { unfold len in *. rewrite length_take. lia. }
  assert (Harr := take_drop (Z.to_nat N) arr).
  revert Harr HlM Hnum Hty.
  generalize (take (Z.to_nat N) arr) (drop (Z.to_nat N) arr).
  intros M B Harr HlM Hnum Hty. subst arr N.
  unfold avx512_partial_qsort.
  assert (Hk' : sub64 k 1 = k - 1).
  { unfold sub64. apply wrap_small. lia. }
  rewrite Hk'.
  destruct (avx512_qselect_numeric M B (k - 1) hasnan)
    as (M' & -> & Hp & (L & x & R & -> & HlL & HLx & HRx));
    [done | done | done | lia | lia | lia |].
  rewrite bind_Ok.
  assert (HnM' : numeric (L ++ x :: R)) by (unfold numeric; by rewrite Hp).
  assert (HtM' : typed (L ++ x :: R)) by (unfold typed; by rewrite Hp).
  apply Forall_app in HnM' as [HnL _]. apply Forall_app in HtM' as [HtL _].
  rewrite <- (assoc_L (++) L).
  replace (k - 1) with (len L) by (unfold len; lia).
  destruct (avx512_qsort_spec L ((x :: R) ++ B))
    as (Y & Z & -> & HY & HZ & Hs & HpY & Hc); [done | done | |].
  { revert Hlen. apply Permutation_length in Hp. revert Hp. lens. lia. }
  rewrite (nums_id L) in HpY by done.
  rewrite (nans_none L) in Hc by done.
  destruct Z; [| discriminate]. rewrite app_nil_r.
  exists Y, x, R. split; [done |].
  split; [unfold len; by rewrite HpY |].
  split; [| split; [done | by rewrite HpY]].
  apply StronglySorted_app_2; [| done | repeat constructor].
  intros y1 y2 Hy1 Hy2. apply list_elem_of_singleton in Hy2 as ->.
  rewrite HpY in Hy1. by eapply Forall_forall in HLx.
Qed.

Lemma avx512_partial_qsort_prefix_witness :
  ∃ S x R,
    @avx512_partial_qsort Z int64_pack (@reference_externals Z int64_pack)
      (rev (seqZ 0 200)) 20 150 false
    = Ok (S ++ x :: R ++ drop (Z.to_nat 150) (rev (seqZ 0 200)))
    ∧ len S = 20 - 1
    ∧ @key_sorted Z int64_pack (S ++ [x])
    ∧ Forall (λ y, x ≤ y) R
    ∧ S ++ x :: R ≡ₚ seg (rev (seqZ 0 200)) 0 150.
Proof.
  apply (@avx512_partial_qsort_prefix Z int64_pack
           (@reference_externals Z int64_pack)
           int64_pack_ok (@reference_externals_ok Z _)).
  - exact int64_threshold_ok.
  - intros v. apply insertion_sort_perm.
  - lia.
  - lia.
  - vm_compute. congruence.
  - vm_compute. reflexivity.
  - apply Forall_forall. intros x _. reflexivity.
  - apply (bool_decide_unpack _). vm_compute. exact I.
Defined.

(** ** Calls on no element *)

Section EmptyFacts.
Context {T : Type} `{V : zmm_vector T} `{E : externals T}.

(** With [jj] behind the array the scalar pass over the NaNs cannot end
    inside it: a NaN is swapped with [arr[jj]], and a run without NaN
    reaches the end of the array. *)
Lemma move_nans_loop_outside : ∀ fuel (arr : list T) ii jj count,
  0 ≤ ii → ii ≤ len arr → len arr < jj → jj < 2 ^ 64 →
  (length arr < fuel + Z.to_nat ii)%nat →
  ∃ e, move_nans_loop fuel arr ii jj count = e ∧ e = OutOfBounds.
Proof.
  induction fuel as [|fuel IH]; intros arr ii jj count Hi0 Hi Hj Hj64 Hf.
  { unfold len in *. lia. }
  cbn [move_nans_loop].
  destruct (Z.ltb_spec ii jj) as [Hlt|Hge]; [| lia].
  unfold read.
  destruct (Z.ltb_spec ii (len arr)) as [Hin|Hout].
  2:{ rewrite andb_false_r. by eexists. }
  replace (0 <=? ii) with true by (symmetry; apply Z.leb_le; lia).
  destruct (lookup_lt_is_Some_2 arr (Z.to_nat ii)) as [x Hx].
  { unfold len in *. lia. }
  rewrite Hx. simpl.
  destruct (is_a_nan x).
  - unfold swap, read.
    replace ((0 <=? ii) && (ii <? len arr)) with true
      by (symmetry; apply andb_true_iff; split;
          [apply Z.leb_le | apply Z.ltb_lt]; lia).
    rewrite Hx. simpl.
    replace (jj <? len arr) with false by (symmetry; apply Z.ltb_ge; lia).
    rewrite andb_false_r. by eexists.
  - apply IH; unfold add64; rewrite ?wrap_small by lia; unfold len in *;
      lia.
Qed.

End EmptyFacts.

(** X14: [move_nans_to_end_of_array] must not be called with [size = 0]:
    [size - 1] wraps to [2^64 - 1], the loop runs on the whole array and
    beyond, and every run ends in an access outside the array (behind its
    last element, or at [arr[2^64 - 1]] for the first NaN).  For a
    floating-point type this is what [avx512_qselect] with [hasnan] set
    does on an array of no element. *)
Theorem avx512_qselect_empty_hasnan {T : Type} `{V : zmm_vector T}
    `{E : externals T} (arr : list T) (k : Z) :
  is_floating_point_v = true → len arr < 2 ^ 64 - 1 →
  move_nans_to_end_of_array arr 0 = OutOfBounds
  ∧ avx512_qselect arr k 0 true = OutOfBounds.
Proof.
  intros Hfp Hlen.
  assert (Hmove : move_nans_to_end_of_array arr 0 = OutOfBounds).
  { unfold move_nans_to_end_of_array.
    destruct (move_nans_loop_outside (2 * length arr + 2) arr 0
                (sub64 0 1) 0) as (e & -> & ->);
      change (sub64 0 1) with (2 ^ 64 - 1);
      [lia | apply len_nonneg | lia | lia | lia | done]. }
  split; [done |].
  unfold avx512_qselect. rewrite Hfp. simpl. by rewrite Hmove.
Qed.

Lemma avx512_qselect_empty_hasnan_witness :
  @move_nans_to_end_of_array Z float_pack [1; 2; 3] 0 = OutOfBounds
  ∧ @avx512_qselect Z float_pack (@reference_externals Z float_pack)
      [1; 2; 3] 0 0 true = OutOfBounds.
Proof.
  apply (@avx512_qselect_empty_hasnan Z float_pack
           (@reference_externals Z float_pack) [1; 2; 3] 0).
  - reflexivity.
  - vm_compute. reflexivity.
Defined.

(** X15: without the pass over the NaNs ([hasnan] not set, or a type that
    is not floating-point), [avx512_qselect] with [k >= N] leaves the
    array as it is: for [N >= 1] the selection is skipped, and for [N = 0]
    it is called on a range of no element. *)
Theorem avx512_qselect_out_of_range {T : Type} `{V : zmm_vector T}
    `{E : externals T} `{!zmm_vector_ok T} `{!externals_ok}
    (arr : list T) (k N : Z) (hasnan : bool) :
  threshold_ok →
  is_floating_point_v && hasnan = false →
  0 ≤ N → N ≤ k → k < 2 ^ 64 → N < 2 ^ 64 →
  avx512_qselect arr k N hasnan = Ok arr.
Proof.
  intros Hthr Hflag HN0 HNk Hk HN.
  assert (Hthr0 : 0 ≤ network_sort_threshold).
  { pose proof numlanes_pos. unfold threshold_ok, nl in Hthr. nia. }
  unfold avx512_qselect. rewrite Hflag, bind_Ok. cbn iota beta.
  destruct (Z.eq_dec N 0) as [-> | HN1].
  - change (sub64 0 1) with (2 ^ 64 - 1).
    replace (k <=? 2 ^ 64 - 1) with true by (symmetry; apply Z.leb_le; lia).
    apply qselect_empty; [done | done | apply len_nonneg | done].
  - replace (k <=? sub64 N 1) with false; [done |].
    symmetry. apply Z.leb_gt. unfold sub64. rewrite wrap_small by lia. lia.
Qed.

Lemma avx512_qselect_out_of_range_witness :
  @avx512_qselect Z int64_pack (@reference_externals Z int64_pack)
    [3; 1; 2] 3 3 true = Ok [3; 1; 2].
Proof.
  apply (@avx512_qselect_out_of_range Z int64_pack
           (@reference_externals Z int64_pack)
           int64_pack_ok (@reference_externals_ok Z _)).
  - exact int64_threshold_ok.
  - reflexivity.
  - lia.
  - lia.
  - lia.
  - lia.
Defined.

(** X16: the [COEX] of the key-value sort exchanges key and index together.
    In every lane whose two keys are not NaN, [key1] and [index1] receive
    the smaller key and its index, [key2] and [index2] the greater key and
    its index; two equal keys keep their indexes where they were. *)
Theorem COEX_kv_pairs {T I : Type} `{V : zmm_vector T}
    (key1 key2 : list T) (index1 index2 : list I)
    (i : nat) (x y : T) (ix iy : I) :
  key1 !! i = Some x → key2 !! i = Some y →
  index1 !! i = Some ix → index2 !! i = Some iy →
  isnan x = false → isnan y = false →
  ∃ x' y' ix' iy',
    (COEX_kv key1 key2 index1 index2).1.1.1 !! i = Some x'
    ∧ (COEX_kv key1 key2 index1 index2).1.1.2 !! i = Some y'
    ∧ (COEX_kv key1 key2 index1 index2).1.2 !! i = Some ix'
    ∧ (COEX_kv key1 key2 index1 index2).2 !! i = Some iy'
    ∧ ((key x ≤ key y ∧ key x' = key x ∧ ix' = ix
        ∧ key y' = key y ∧ iy' = iy)
       ∨ (key y < key x ∧ key x' = key y ∧ ix' = iy
          ∧ key y' = key x ∧ iy' = ix)).
Proof.
  intros H1 H2 Hi1 Hi2 Hx Hy. unfold COEX_kv. simpl.
  destruct (min_s_cases x y Hx Hy) as [Hmin Hmin'].
  destruct (max_s_cases x y Hx Hy) as [Hmax _].
  assert (Hnm : isnan (min_s x y) = false)
    by (by destruct Hmin' as [-> | ->]).
  assert (Heq : eq (vmin key1 key2) key1 !! i
                = Some (key (min_s x y) =? key x)).
  { unfold eq. rewrite lookup_zip_with, (vmin_lookup key1 key2 i x y) by done.
    simpl. rewrite H1. simpl. unfold eq_s, num. by rewrite Hnm, Hx. }
  exists (min_s x y), (max_s x y),
    (if key (min_s x y) =? key x then ix else iy),
    (if key (min_s x y) =? key x then iy else ix).
  split; [by apply vmin_lookup |]. split; [by apply vmax_lookup |].
  split; [by apply mask_mov_lookup |]. split; [by apply mask_mov_lookup |].
  rewrite Hmin, Hmax.
  destruct (Z.eqb_spec (Z.min (key x) (key y)) (key x)); [left | right];
    repeat split; try done; lia.
Qed.

Lemma COEX_kv_pairs_witness :
  ∃ x' y' ix' iy',
    (@COEX_kv Z int64_pack Z [3; 9; 4] [7; 2; 4] [10; 11; 12]
       [20; 21; 22]).1.1.1 !! 1%nat = Some x'
    ∧ (@COEX_kv Z int64_pack Z [3; 9; 4] [7; 2; 4] [10; 11; 12]
         [20; 21; 22]).1.1.2 !! 1%nat = Some y'
    ∧ (@COEX_kv Z int64_pack Z [3; 9; 4] [7; 2; 4] [10; 11; 12]
         [20; 21; 22]).1.2 !! 1%nat = Some ix'
    ∧ (@COEX_kv Z int64_pack Z [3; 9; 4] [7; 2; 4] [10; 11; 12]
         [20; 21; 22]).2 !! 1%nat = Some iy'
    ∧ ((9 ≤ 2 ∧ x' = 9 ∧ ix' = 11 ∧ y' = 2 ∧ iy' = 21)
       ∨ (2 < 9 ∧ x' = 2 ∧ ix' = 21 ∧ y' = 9 ∧ iy' = 11)).
Proof.
  apply (@COEX_kv_pairs Z Z int64_pack [3; 9; 4] [7; 2; 4]
           [10; 11; 12] [20; 21; 22] 1 9 2 11 21); reflexivity.
Defined.

(** ** The key-value kernel on the array of pairs *)

Ltac wrap_eq :=
  unfold add64, sub64, wrap in *; Z.div_mod_to_equations; lia.

Section MapFacts.
Context {A B : Type} (f : A → B).
Implicit Types arr xs : list A.

Lemma len_map arr : len (map f arr) = len arr.
Proof. unfold len. by rewrite length_map. Qed.

Lemma lookup_map arr (i : nat) : map f arr !! i = f <$> arr !! i.
Proof.
  revert i. induction arr as [|x arr IH]; intros [|i]; simpl; done.
Qed.

Lemma insert_map arr (i : nat) x :
  map f (<[i := x]> arr) = <[i := f x]> (map f arr).
Proof.
  revert i. induction arr as [|y arr IH]; intros [|i]; simpl; try done.
  by rewrite IH.
Qed.

Lemma read_map arr i x : read arr i = Ok x → read (map f arr) i = Ok (f x).
Proof.
  unfold read. rewrite len_map, lookup_map.
  destruct (_ && _); [| done]. destruct (arr !! Z.to_nat i); [| done].
  by intros [= ->].
Qed.

Lemma write_map arr i x arr' :
  write arr i x = Ok arr' → write (map f arr) i (f x) = Ok (map f arr').
Proof.
  unfold write. rewrite len_map. destruct (_ && _); [| done].
  intros [= <-]. by rewrite insert_map.
Qed.

Lemma swap_map arr i j arr' :
  swap arr i j = Ok arr' → swap (map f arr) i j = Ok (map f arr').
Proof.
  unfold swap. intros Hs.
  destruct (read arr i) as [x| |] eqn:Hx; simpl in Hs; try done.
  destruct (read arr j) as [y| |] eqn:Hy; simpl in Hs; try done.
  destruct (write arr i y) as [arr1| |] eqn:Hw; simpl in Hs; try done.
  rewrite (read_map _ _ _ Hx), (read_map _ _ _ Hy). simpl.
  rewrite (write_map _ _ _ _ Hw). simpl. by apply write_map.
Qed.

Lemma read_block_map arr pos n b :
  read_block arr pos n = Ok b →
  read_block (map f arr) pos n = Ok (map f b).
Proof.
  unfold read_block. rewrite len_map. destruct (_ && _); [| done].
  intros [= <-]. by rewrite skipn_map, firstn_map.
Qed.

Lemma write_block_map arr pos xs arr' :
  write_block arr pos xs = Ok arr' →
  write_block (map f arr) pos (map f xs) = Ok (map f arr').
Proof.
  unfold write_block. destruct xs as [|x xs]; [by intros [= <-] |].
  rewrite !len_map. cbn [map]. destruct (_ && _); [| done].
  intros [= <-].
  rewrite map_app. cbn [map app length]. rewrite map_app.
  by rewrite firstn_map, skipn_map, length_map.
Qed.

Lemma compress_map (m : list bool) xs :
  compress m (map f xs) = map f (compress m xs).
Proof.
  revert xs. induction m as [|b m IH]; intros [|x xs]; simpl; try done.
  destruct b; simpl; by rewrite IH.
Qed.

Lemma mask_compressstoreu_map arr pos m xs arr' :
  mask_compressstoreu arr pos m xs = Ok arr' →
  mask_compressstoreu (map f arr) pos m (map f xs) = Ok (map f arr').
Proof.
  unfold mask_compressstoreu. rewrite compress_map. apply write_block_map.
Qed.

End MapFacts.

Section PairFacts.
Context {T I : Type} `{V : zmm_vector T} (d : I).
Implicit Types a b v mn mx : list (T * I).

Lemma nl_pair : @nl _ (pair_pack d) = nl.
Proof. reflexivity. Qed.

Lemma ge_pair a b : @ge _ (pair_pack d) a b = ge (map fst a) (map fst b).
Proof.
  unfold ge. revert b. induction a as [|x a IH]; intros [|y b]; simpl;
    try done.
  by rewrite IH.
Qed.

Lemma vmin_pair a b :
  map fst (@vmin _ (pair_pack d) a b) = vmin (map fst a) (map fst b).
Proof.
  unfold vmin. revert b. induction a as [|x a IH]; intros [|y b]; simpl;
    try done.
  rewrite IH. f_equal. unfold min_s.
  change (@lt _ (pair_pack d) x y) with (lt x.1 y.1). by destruct (lt _ _).
Qed.

Lemma vmax_pair a b :
  map fst (@vmax _ (pair_pack d) a b) = vmax (map fst a) (map fst b).
Proof.
  unfold vmax. revert b. induction a as [|x a IH]; intros [|y b]; simpl;
    try done.
  rewrite IH. f_equal. unfold max_s.
  change (@gt _ (pair_pack d) x y) with (gt x.1 y.1). by destruct (gt _ _).
Qed.

Lemma set1_pair (x : T * I) : map fst (@set1 _ (pair_pack d) x) = set1 x.1.
Proof.
  unfold set1. change (@numlanes _ (pair_pack d)) with numlanes.
  induction numlanes as [|n IH]; simpl; [done | by rewrite IH].
Qed.

Lemma fold_min_pair v (x : T * I) :
  (fold_left (@min_s _ (pair_pack d)) v x).1
  = fold_left min_s (map fst v) x.1.
Proof.
  revert x. induction v as [|y v IH]; intros x; simpl; [done |].
  rewrite IH. f_equal. unfold min_s.
  change (@lt _ (pair_pack d) x y) with (lt x.1 y.1). by destruct (lt _ _).
Qed.

Lemma fold_max_pair v (x : T * I) :
  (fold_left (@max_s _ (pair_pack d)) v x).1
  = fold_left max_s (map fst v) x.1.
Proof.
  revert x. induction v as [|y v IH]; intros x; simpl; [done |].
  rewrite IH. f_equal. unfold max_s.
  change (@gt _ (pair_pack d) x y) with (gt x.1 y.1). by destruct (gt _ _).
Qed.

Lemma reducemin_pair v :
  (@reducemin _ (pair_pack d) v).1 = reducemin (map fst v).
Proof. destruct v as [|x v]; [done |]. apply fold_min_pair. Qed.

Lemma reducemax_pair v :
  (@reducemax _ (pair_pack d) v).1 = reducemax (map fst v).
Proof. destruct v as [|x v]; [done |]. apply fold_max_pair. Qed.

Lemma ge_length_le (a b : list T) : (length (ge a b) ≤ length b)%nat.
Proof.
  unfold ge. revert b. induction a as [|x a IH]; intros [|y b]; simpl;
    try lia.
  specialize (IH b). lia.
Qed.

(** One register: the key-value [partition_vec] writes the projections of
    what the single-array [partition_vec] writes on the pairs. *)
Lemma partition_vec_kv_sim (arrP arrP' : list (T * I)) l u l' u'
    (vP mnP mxP mnP' mxP' : list (T * I)) (PP : T * I) :
  (numlanes ≤ 32)%nat →
  @partition_vec _ (pair_pack d) arrP l u vP (@set1 _ (pair_pack d) PP)
                 mnP mxP
  = Ok (arrP', l', u', mnP', mxP') →
  ∃ amount,
    partition_vec_kv (map fst arrP) (map snd arrP) l (add64 (add64 l u) nl)
                     (map fst vP) (map snd vP) (set1 PP.1)
                     (map fst mnP) (map fst mxP)
    = Ok (map fst arrP', map snd arrP', map fst mnP', map fst mxP', amount)
    ∧ l' = add64 l (nl - amount) ∧ u' = sub64 u nl.
Proof.
  intros H32. unfold partition_vec, partition_vec_kv.
  rewrite ge_pair, set1_pair. rewrite nl_pair.
  set (m := ge (map fst vP) (set1 PP.1)).
  assert (Hpc : popcnt_u32 m = popcnt_u64 m).
  { apply popcnt_u32_small. etrans; [apply ge_length_le |].
    rewrite set1_length. lia. }
  rewrite Hpc. set (amount := popcnt_u64 m).
  intros Hrun.
  destruct (mask_compressstoreu arrP l (knot_opmask m) vP)
    as [arr1| |] eqn:H1; simpl in Hrun; try done.
  destruct (mask_compressstoreu arr1 _ m vP)
    as [arr2| |] eqn:H2; simpl in Hrun; try done.
  injection Hrun as <- <- <- <- <-.
  exists amount.
  rewrite (mask_compressstoreu_map fst _ _ _ _ _ H1). simpl.
  replace (sub64 (add64 (add64 l u) nl) amount)
    with (add64 (add64 l (sub64 nl amount)) u) by wrap_eq.
  rewrite (mask_compressstoreu_map fst _ _ _ _ _ H2). simpl.
  rewrite (mask_compressstoreu_map snd _ _ _ _ _ H1). simpl.
  rewrite (mask_compressstoreu_map snd _ _ _ _ _ H2). simpl.
  rewrite vmin_pair, vmax_pair.
  split; [done |]. split; [wrap_eq | done].
Qed.

End PairFacts.

Section KvLoopFacts.
Context {T I : Type} `{V : zmm_vector T} (d : I).

Lemma main_loop_kv_sim (PP : T * I) (H32 : (numlanes ≤ 32)%nat) :
  ∀ fuel (arrP arrP' : list (T * I)) left right l u l' u'
    (mnP mxP mnP' mxP' : list (T * I)),
  @main_loop _ (pair_pack d) fuel arrP left right l u
             (@set1 _ (pair_pack d) PP) mnP mxP
  = Ok (arrP', l', u', mnP', mxP') →
  main_loop_kv fuel (map fst arrP) (map snd arrP) left right l (add64 l u)
               (set1 PP.1) (map fst mnP) (map fst mxP)
  = Ok (map fst arrP', map snd arrP', l', add64 l' u',
        map fst mnP', map fst mxP')
  ∧ wrap u' = sub64 u (sub64 right left).
Proof.
  induction fuel as [|fuel IH];
    intros arrP arrP' left right l u l' u' mnP mxP mnP' mxP' Hrun;
    cbn [main_loop main_loop_kv] in *.
  { destruct (Z.eqb_spec (sub64 right left) 0) as [Hz|]; [| done].
    injection Hrun as <- <- <- <- <-. split; [done |]. rewrite Hz.
    unfold sub64. f_equal. lia. }
  destruct (Z.eqb_spec (sub64 right left) 0) as [Hz|Hnz].
  { injection Hrun as <- <- <- <- <-. split; [done |]. rewrite Hz.
    unfold sub64. f_equal. lia. }
  rewrite nl_pair in Hrun.
  destruct (_ <? _).
  - unfold loadu in Hrun. change (Z.of_nat (@numlanes _ (pair_pack d)))
      with nl in Hrun.
    destruct (read_block arrP (sub64 right nl) nl) as [vP| |] eqn:Hld;
      simpl in Hrun; try done.
    destruct (@partition_vec _ (pair_pack d) arrP l u vP _ mnP mxP)
      as [[[[[arr1 l1] u1] mn1] mx1]| |] eqn:Hpv; simpl in Hrun; try done.
    rewrite (read_block_map fst _ _ _ _ Hld),
      (read_block_map snd _ _ _ _ Hld). simpl.
    destruct (partition_vec_kv_sim d _ _ _ _ _ _ _ _ _ _ _ _ H32 Hpv)
      as (amount & -> & -> & ->).
    simpl.
    destruct (IH _ _ _ _ _ _ _ _ _ _ _ _ Hrun) as [Hkv Hu].
    replace (sub64 (add64 l u) amount)
      with (add64 (add64 l (nl - amount)) (sub64 u nl)) by wrap_eq.
    split; [exact Hkv |]. rewrite Hu. wrap_eq.
  - unfold loadu in Hrun. change (Z.of_nat (@numlanes _ (pair_pack d)))
      with nl in Hrun.
    destruct (read_block arrP left nl) as [vP| |] eqn:Hld;
      simpl in Hrun; try done.
    destruct (@partition_vec _ (pair_pack d) arrP l u vP _ mnP mxP)
      as [[[[[arr1 l1] u1] mn1] mx1]| |] eqn:Hpv; simpl in Hrun; try done.
    rewrite (read_block_map fst _ _ _ _ Hld),
      (read_block_map snd _ _ _ _ Hld). simpl.
    destruct (partition_vec_kv_sim d _ _ _ _ _ _ _ _ _ _ _ _ H32 Hpv)
      as (amount & -> & -> & ->).
    simpl.
    destruct (IH _ _ _ _ _ _ _ _ _ _ _ _ Hrun) as [Hkv Hu].
    replace (sub64 (add64 l u) amount)
      with (add64 (add64 l (nl - amount)) (sub64 u nl)) by wrap_eq.
    split; [exact Hkv |]. rewrite Hu. wrap_eq.
Qed.

End KvLoopFacts.

Section KvKernelFacts.
Context {T I : Type} `{V : zmm_vector T} (d : I).

(** On a range of whole registers the key-value kernel does on keys and
    indexes what [partition_avx512] does on the pairs; it also reduces the
    extremes on the path for a single register. *)
Lemma partition_avx512_kv_sim (PP sP bP s'P b'P : T * I)
    (arrP arrP' : list (T * I)) left right p :
  (numlanes ≤ 32)%nat →
  Z.to_nat (sub64 right left mod nl) = 0%nat →
  @partition_avx512 _ (pair_pack d) arrP left right PP sP bP
  = Ok (arrP', p, s'P, b'P) →
  ∃ s' b',
    partition_avx512_kv (map fst arrP) (map snd arrP) left right PP.1
                        sP.1 bP.1
    = Ok (map fst arrP', map snd arrP', p, s', b')
    ∧ ((left =? right) = true → s' = sP.1 ∧ b' = bP.1)
    ∧ ((left =? right) = false → (sub64 right left =? nl) = false →
       s' = s'P.1 ∧ b' = b'P.1)
    ∧ ((left =? right) = false → (sub64 right left =? nl) = true →
       ∃ vP, read_block arrP left nl = Ok vP
             ∧ s' = (@reducemin _ (pair_pack d)
                       (@vmin _ (pair_pack d) vP
                          (@set1 _ (pair_pack d) sP))).1
             ∧ b' = (@reducemax _ (pair_pack d)
                       (@vmax _ (pair_pack d) vP
                          (@set1 _ (pair_pack d) bP))).1).
Proof.
  intros H32 Halign. unfold partition_avx512, partition_avx512_kv.
  rewrite nl_pair, Halign. cbn [align_loop align_loop_kv].
  rewrite !bind_Ok. cbn iota beta.
  destruct (left =? right) eqn:Hlr.
  { intros [= <- <- <- <-]. exists sP.1, bP.1.
    split; [done |]. split; [done |]. split; [done |]. done. }
  unfold loadu. change (Z.of_nat (@numlanes _ (pair_pack d))) with nl.
  destruct (sub64 right left =? nl) eqn:Hone.
  - (* a single register *)
    apply Z.eqb_eq in Hone. rewrite Hone.
    intros Hrun.
    destruct (read_block arrP left nl) as [vP| |] eqn:Hld;
      simpl in Hrun; try done.
    destruct (@partition_vec _ (pair_pack d) arrP left _ vP _ _ _)
      as [[[[[arr1 l1] u1] mn1] mx1]| |] eqn:Hpv; simpl in Hrun; try done.
    injection Hrun as <- <- <- <-.
    rewrite (read_block_map fst _ _ _ _ Hld),
      (read_block_map snd _ _ _ _ Hld). simpl.
    destruct (partition_vec_kv_sim d _ _ _ _ _ _ _ _ _ _ _ _ H32 Hpv)
      as (amount & Hkv & -> & _).
    rewrite !set1_pair in Hkv.
    replace (add64 (add64 left (sub64 nl nl)) nl) with (add64 left nl)
      in Hkv by wrap_eq.
    rewrite Hkv. simpl.
    unfold partition_vec in Hpv.
    destruct (mask_compressstoreu arrP left _ vP) as [a1| |];
      simpl in Hpv; try done.
    destruct (mask_compressstoreu a1 _ _ vP) as [a2| |];
      simpl in Hpv; try done.
    injection Hpv as _ _ _ <- <-.
    eexists _, _. split; [reflexivity |].
    split; [done |]. split; [done |].
    intros _ _. exists vP. split; [done |].
    by rewrite reducemin_pair, reducemax_pair.
  - (* two registers or more *)
    intros Hrun.
    destruct (read_block arrP left nl) as [vl| |] eqn:Hldl;
      simpl in Hrun; try done.
    destruct (read_block arrP (sub64 right nl) nl) as [vr| |] eqn:Hldr;
      simpl in Hrun; try done.
    destruct (@main_loop _ (pair_pack d) _ arrP _ _ _ _ _ _ _)
      as [[[[[arr1 l1] u1] mn1] mx1]| |] eqn:Hml; simpl in Hrun; try done.
    destruct (@partition_vec _ (pair_pack d) arr1 l1 u1 vl _ mn1 mx1)
      as [[[[[arr2 l2] u2] mn2] mx2]| |] eqn:Hp1; simpl in Hrun; try done.
    destruct (@partition_vec _ (pair_pack d) arr2 l2 u2 vr _ mn2 mx2)
      as [[[[[arr3 l3] u3] mn3] mx3]| |] eqn:Hp2; simpl in Hrun; try done.
    injection Hrun as <- <- <- <-.
    rewrite (read_block_map fst _ _ _ _ Hldl),
      (read_block_map snd _ _ _ _ Hldl),
      (read_block_map fst _ _ _ _ Hldr),
      (read_block_map snd _ _ _ _ Hldr). simpl.
    destruct (main_loop_kv_sim d PP H32 _ _ _ _ _ _ _ _ _ _ _ _ _ Hml)
      as [Hkv Hu].
    rewrite !set1_pair in Hkv.
    replace (add64 left (sub64 (sub64 right left) nl))
      with (sub64 right nl) in Hkv by wrap_eq.
    unfold loop_fuel in *. rewrite length_map. rewrite Hkv. simpl.
    destruct (partition_vec_kv_sim d _ _ _ _ _ _ _ _ _ _ _ _ H32 Hp1)
      as (a1 & Hkv1 & -> & ->).
    rewrite Hkv1. simpl.
    destruct (partition_vec_kv_sim d _ _ _ _ _ _ _ _ _ _ _ _ H32 Hp2)
      as (a2 & Hkv2 & -> & ->).
    replace (add64 (add64 (add64 l1 (nl - a1)) (sub64 u1 nl)) nl)
      with (add64 (add64 l1 (nl - a1)) nl) in Hkv2 by wrap_eq.
    rewrite Hkv2. simpl.
    eexists _, _. split; [reflexivity |].
    split; [done |]. split; [| done].
    intros _ _. by rewrite reducemin_pair, reducemax_pair.
Qed.

End KvKernelFacts.

Section KvScalarFacts.
Context {T I : Type} `{V : zmm_vector T}.
Implicit Types A B L R M : list (T * I).

(** The scalar loop of the key-value kernel moves [i] pairs of the range to
    its two ends: a key goes to the right end only if it is greater than the
    pivot.  Seeds that are no NaN come back as the extremes of the keys
    moved. *)
Lemma align_loop_kv_spec P i : ∀ A M B s b,
  (i ≤ length M)%nat → numeric (map fst M) → isnan P = false →
  len (A ++ M ++ B) < 2 ^ 64 →
  ∃ L M' R s' b',
    align_loop_kv i (map fst (A ++ M ++ B)) (map snd (A ++ M ++ B))
                  (len A) (len A + len M) P s b
    = Ok (map fst (A ++ L ++ M' ++ R ++ B), map snd (A ++ L ++ M' ++ R ++ B),
          len A + len L, len A + len L + len M', s', b')
    ∧ L ++ M' ++ R ≡ₚ M
    ∧ (length M' + i = length M)%nat
    ∧ Forall (λ p, key p.1 ≤ key P) L
    ∧ Forall (λ p, key P < key p.1) R
    ∧ (isnan s = false → isnan b = false →
       key s' = kmin (key s) (map fst (L ++ R)) ∧ isnan s' = false
       ∧ key b' = kmax (key b) (map fst (L ++ R)) ∧ isnan b' = false).
Proof.
  induction i as [|i IH]; intros A M B s b Hi HM HP Hlen.
  { exists [], M, [], s, b. simpl. rewrite app_nil_r.
    split; [tuple_eq; lens; lia |].
    repeat split; try done; try constructor; try lia. }
  destruct M as [|x M1]; [simpl in Hi; lia |].
  cbn [map] in HM. inversion HM as [|? ? Hx HM1]; subst.
  change ((x :: M1) ++ B) with (x :: M1 ++ B) in *.
  cbn [align_loop_kv].
  rewrite (read_map fst _ _ _ (read_app (len A) A x (M1 ++ B) eq_refl)).
  rewrite bind_Ok.
  unfold gt at 1. rewrite (lt_numeric P x.1) by done.
  destruct (Z.ltb_spec (key P) (key x.1)) as [Hgt|Hle].
  - (* x > pivot: it is exchanged with the last pair of the range *)
    assert (Hr1 : sub64 (len A + len (x :: M1)) 1 = len A + len M1).
    { revert Hlen. lens. intros. unwrap. lia. }
    rewrite Hr1.
    destruct (snoc_case M1) as [-> | (M2 & y & ->)].
    + change ([] ++ B) with B in *.
      replace (len A + len (@nil (T * I))) with (len A) by (lens; lia).
      rewrite (swap_map fst _ _ _ _ (swap_same A x B (len A) eq_refl)),
        (swap_map snd _ _ _ _ (swap_same A x B (len A) eq_refl)).
      rewrite !bind_Ok.
      simpl in Hi. assert (i = 0%nat) by lia. subst i.
      exists [], [], [x], (std_min s x.1), (std_max b x.1).
      cbn [align_loop_kv app].
      split; [tuple_eq; lens; lia |].
      split; [done |]. split; [done |].
      split; [constructor |].
      split; [by repeat constructor |].
      intros Hs Hb.
      destruct (std_min_key s x.1 Hs Hx) as [Hks Hns].
      destruct (std_max_key b x.1 Hb Hx) as [Hkb Hnb].
      rewrite Hks, Hkb. simpl. repeat split; try done; lia.
    + rewrite <- (assoc_L (++) M2 [y] B) in *.
      change ([y] ++ B) with (y :: B) in *.
      assert (Hsw : swap (A ++ x :: M2 ++ y :: B) (len A)
                         (len A + len (M2 ++ [y]))
                    = Ok (A ++ y :: M2 ++ x :: B))
        by (apply swap_far; lens; lia).
      rewrite (swap_map fst _ _ _ _ Hsw), (swap_map snd _ _ _ _ Hsw).
      rewrite !bind_Ok.
      assert (HM2 : numeric (map fst (y :: M2))).
      { rewrite map_app in HM1. apply Forall_app in HM1 as [H1 H2].
        inversion H2; subst. by constructor. }
      assert (Hi' : (i ≤ length (y :: M2))%nat).
      { simpl in Hi |- *. rewrite length_app in Hi. simpl in Hi. lia. }
      assert (Hlen' : len (A ++ (y :: M2) ++ x :: B) < 2 ^ 64).
      { revert Hlen. lens. simpl. lia. }
      destruct (IH A (y :: M2) (x :: B) (std_min s x.1) (std_max b x.1)
                  Hi' HM2 HP Hlen')
        as (L & M' & R & s' & b' & Heq & Hperm & Hl & HL & HR & Hseed).
      exists L, M', (R ++ [x]), s', b'.
      replace (len A + len (M2 ++ [y])) with (len A + len (y :: M2))
        by (lens; lia).
      simpl in Heq |- *. rewrite Heq.
      rewrite <- !(assoc_L (++)). simpl.
      split; [done |].
      split.
      { rewrite !(assoc_L (++)), <- Permutation_cons_append.
        rewrite <- !(assoc_L (++)), Hperm.
        by rewrite <- Permutation_cons_append. }
      split; [revert Hl; rewrite length_app; simpl; lia |].
      split; [done |].
      split; [apply Forall_app; split; [done | by repeat constructor] |].
      intros Hs Hb.
      destruct (std_min_key s x.1 Hs Hx) as [Hks Hns].
      destruct (std_max_key b x.1 Hb Hx) as [Hkb Hnb].
      destruct (Hseed Hns Hnb) as (Hs' & Hns' & Hb' & Hnb').
      assert (Hp : map fst (L ++ R ++ [x]) ≡ₚ x.1 :: map fst (L ++ R)).
      { change (x.1 :: map fst (L ++ R)) with (map fst (x :: L ++ R)).
        apply Permutation_map.
        rewrite !(assoc_L (++)). by rewrite <- Permutation_cons_append. }
      split; [| split; [done |]; split; [| done]].
      * rewrite Hs', Hks, (kmin_perm _ _ _ Hp).
        simpl. fold (kmin (key s) (map fst (L ++ R))).
        rewrite Z.min_comm, kmin_seed. done.
      * rewrite Hb', Hkb, (kmax_perm _ _ _ Hp).
        simpl. fold (kmax (key b) (map fst (L ++ R))).
        rewrite Z.max_comm, kmax_seed. done.
  - (* x <= pivot: it stays, left moves on *)
    assert (Hi' : (i ≤ length M1)%nat) by (simpl in Hi; lia).
    assert (Hlen' : len ((A ++ [x]) ++ M1 ++ B) < 2 ^ 64)
      by (by rewrite <- (assoc_L (++))).
    destruct (IH (A ++ [x]) M1 B (std_min s x.1) (std_max b x.1)
                Hi' HM1 HP Hlen')
      as (L & M' & R & s' & b' & Heq & Hperm & Hl & HL & HR & Hseed).
    exists (x :: L), M', R, s', b'.
    assert (Hl1 : add64 (len A) 1 = len (A ++ [x])).
    { revert Hlen. lens. intros. unwrap. lia. }
    rewrite Hl1.
    replace (len A + len (x :: M1)) with (len (A ++ [x]) + len M1)
      by (lens; lia).
    rewrite <- (assoc_L (++)) in Heq. simpl in Heq. rewrite Heq.
    rewrite <- (assoc_L (++)). simpl.
    split; [tuple_eq; lens; lia |].
    split; [by constructor |].
    split; [simpl; lia |].
    split; [by constructor |].
    split; [done |].
    intros Hs Hb.
    destruct (std_min_key s x.1 Hs Hx) as [Hks Hns].
    destruct (std_max_key b x.1 Hb Hx) as [Hkb Hnb].
    destruct (Hseed Hns Hnb) as (Hs' & Hns' & Hb' & Hnb').
    split; [| split; [done |]; split; [| done]].
    + rewrite Hs', Hks. fold (kmin (key s) (map fst (L ++ R))).
      rewrite Z.min_comm, kmin_seed. done.
    + rewrite Hb', Hkb. fold (kmax (key b) (map fst (L ++ R))).
      rewrite Z.max_comm, kmax_seed. done.
Qed.

End KvScalarFacts.

Section KvContractFacts.
Context {T I : Type} `{V : zmm_vector T}.
Implicit Types A B L R M : list (T * I).

Lemma numeric_pair (d : I) M :
  @numeric _ (pair_pack d) M ↔ numeric (map fst M).
Proof. unfold numeric. by rewrite Forall_map. Qed.

Lemma kmin_pair (d : I) s M : @kmin _ (pair_pack d) s M = kmin s (map fst M).
Proof. induction M as [|x M IH]; [done |]. simpl. by rewrite <- IH. Qed.

Lemma kmax_pair (d : I) s M : @kmax _ (pair_pack d) s M = kmax s (map fst M).
Proof. induction M as [|x M IH]; [done |]. simpl. by rewrite <- IH. Qed.

(** The key-value kernel on the range [M] of the pairs [A ++ M ++ B]. *)
Lemma partition_avx512_kv_spec A M B P s b :
  (0 < numlanes ≤ 32)%nat → numeric (map fst M) → isnan P = false →
  len (A ++ M ++ B) < 2 ^ 64 →
  ∃ L R s' b',
    partition_avx512_kv (map fst (A ++ M ++ B)) (map snd (A ++ M ++ B))
                        (len A) (len A + len M) P s b
    = Ok (map fst (A ++ L ++ R ++ B), map snd (A ++ L ++ R ++ B),
          len A + len L, s', b')
    ∧ L ++ R ≡ₚ M
    ∧ Forall (λ p, key p.1 ≤ key P) L
    ∧ Forall (λ p, key P ≤ key p.1) R
    ∧ (isnan s = false → isnan b = false →
       key s' = kmin (key s) (map fst M) ∧ isnan s' = false
       ∧ key b' = kmax (key b) (map fst M) ∧ isnan b' = false).
Proof.
  intros [Hn H32] HM HP Hlen.
  assert (Hcount : Z.to_nat (sub64 (len A + len M) (len A) mod nl)
                   = (length M mod numlanes)%nat).
  { pose proof (align_count (map fst M) (map fst A) Hn) as Hc.
    rewrite !len_map, length_map in Hc. apply Hc. revert Hlen. lens. lia. }
  pose proof (Nat.div_mod_eq (length M) numlanes) as Hdm.
  pose proof (Nat.mod_upper_bound (length M) numlanes ltac:(lia)) as Hmod.
  set (q := (length M / numlanes)%nat) in *.
  set (i := (length M mod numlanes)%nat) in *.
  destruct (align_loop_kv_spec P i A M B s b)
    as (L0 & M' & R0 & s1 & b1 & Heq & Hperm & HlM' & HL0 & HR0 & Hseed);
    try done; [unfold i; apply Nat.Div0.mod_le |].
  assert (HM'n : numeric (map fst M')).
  { unfold numeric in *. rewrite <- Hperm, !map_app in HM.
    by apply Forall_app in HM as (_ & [? _]%Forall_app). }
  assert (Hlen' : len (A ++ L0 ++ M' ++ R0 ++ B) < 2 ^ 64).
  { revert Hlen. apply Permutation_length in Hperm. revert Hperm. lens.
    lia. }
  assert (HlM : length M' = (numlanes * q)%nat) by lia.
  destruct q as [|q].
  { (* nothing is left for the registers *)
    destruct M'; [| simpl in HlM; lia].
    unfold partition_avx512_kv. rewrite Hcount, Heq, bind_Ok. cbn iota beta.
    replace (len A + len L0 + @len (T * I) []) with (len A + len L0)
      by (lens; lia).
    rewrite Z.eqb_refl. simpl in Hperm |- *.
    exists L0, R0, s1, b1.
    split; [done |]. split; [done |].
    split; [done |].
    split; [eapply Forall_impl; [exact HR0 | simpl; lia] |].
    rewrite <- (kmin_perm _ _ _ (Permutation_map fst Hperm)).
    rewrite <- (kmax_perm _ _ _ (Permutation_map fst Hperm)). done. }
  assert (d : I) by (destruct M' as [|[? d] ?]; [simpl in HlM; lia | done]).
  assert (HM'0 : M' ≠ []) by (intros ->; simpl in HlM; lia).
  (* the registers: the single-array kernel on the pairs, then its image *)
  destruct (@partition_avx512_spec _ (pair_pack d) (A ++ L0) M' (R0 ++ B)
              (P, d) (P, d) (P, d))
    as (L & R & s0P & b0P & Hrun0 & HpermP & HLP & HRP & _);
    [done | by apply numeric_pair | done | done | done
    | by rewrite <- !(assoc_L (++)) |].
  destruct (@partition_avx512_seeds _ (pair_pack d) _ _ _ _ _ (P, d)
              (s1, d) (b1, d) _ _ _ _ Hrun0) as (s'P & b'P & HrunP).
  assert (Halign : Z.to_nat (sub64 (len (A ++ L0) + len M') (len (A ++ L0))
                               mod nl) = 0%nat).
  { pose proof (align_count (map fst M') (map fst (A ++ L0)) Hn) as Hc.
    rewrite !len_map, length_map in Hc. rewrite Hc.
    - rewrite HlM, Nat.mul_comm. apply Nat.Div0.mod_mul.
    - revert Hlen'. lens. lia. }
  destruct (partition_avx512_kv_sim d _ _ _ _ _ _ _ _ _ _ H32 Halign HrunP)
    as (s' & b' & Hkv & _ & Hmany & Hone).
  cbn [fst] in Hkv.
  assert (Hext : isnan s1 = false → isnan b1 = false →
                 key s' = kmin (key s1) (map fst M') ∧ isnan s' = false
                 ∧ key b' = kmax (key b1) (map fst M') ∧ isnan b' = false).
  { intros Hns1 Hnb1.
    assert (Hlr : (len (A ++ L0) =? len (A ++ L0) + len M') = false).
    { apply Z.eqb_neq. destruct M'; [done |]. lens. lia. }
    destruct q as [|q].
    - (* exactly one register *)
      assert (Hnl : (sub64 (len (A ++ L0) + len M') (len (A ++ L0)) =? nl)
                    = true).
      { apply Z.eqb_eq. revert Hlen'. unfold nl. lens. intros. unwrap. lia. }
      destruct (Hone Hlr Hnl) as (vP & Hld & -> & ->).
      rewrite read_block_app in Hld by (unfold nl; lens; lia).
      injection Hld as <-.
      assert (HnM : @numeric _ (pair_pack d) M') by (by apply numeric_pair).
      assert (Hl1 : length M' = length (@set1 _ (pair_pack d) (s1, d))).
      { rewrite (@set1_length _ (pair_pack d)). simpl. lia. }
      assert (Hl2 : length M' = length (@set1 _ (pair_pack d) (b1, d))).
      { rewrite (@set1_length _ (pair_pack d)). simpl. lia. }
      pose proof (@reducemin_vmin _ (pair_pack d) M' _ Hl1 HM'0 HnM
                    (@set1_numeric _ (pair_pack d) (s1, d) Hns1)) as Hmin.
      pose proof (@reducemax_vmax _ (pair_pack d) M' _ Hl2 HM'0 HnM
                    (@set1_numeric _ (pair_pack d) (b1, d) Hnb1)) as Hmax.
      rewrite (@set1_reducemin _ (pair_pack d)) in Hmin by done.
      rewrite (@set1_reducemax _ (pair_pack d)) in Hmax by done.
      destruct (@reducemin_key _ (pair_pack d) M' HnM HM'0) as [Hk1 _].
      destruct (@reducemax_key _ (pair_pack d) M' HnM HM'0) as [Hk2 _].
      specialize (Hk1 (key s1)). specialize (Hk2 (key b1)).
      rewrite kmin_pair in Hk1. rewrite kmax_pair in Hk2.
      assert (Hv1 : @vmin _ (pair_pack d) M' (@set1 _ (pair_pack d) (s1, d))
                    ≠ []).
      { destruct M'; [done |]. unfold set1. simpl.
        destruct numlanes; [lia | done]. }
      assert (Hv2 : @vmax _ (pair_pack d) M' (@set1 _ (pair_pack d) (b1, d))
                    ≠ []).
      { destruct M'; [done |]. unfold set1. simpl.
        destruct numlanes; [lia | done]. }
      destruct (@reducemin_key _ (pair_pack d) _
                  (@vmin_numeric _ (pair_pack d) _ _ HnM
                     (@set1_numeric _ (pair_pack d) (s1, d) Hns1)) Hv1)
        as [_ Hn1].
      destruct (@reducemax_key _ (pair_pack d) _
                  (@vmax_numeric _ (pair_pack d) _ _ HnM
                     (@set1_numeric _ (pair_pack d) (b1, d) Hnb1)) Hv2)
        as [_ Hn2].
      cbn [key isnan pair_pack] in Hmin, Hmax, Hn1, Hn2, Hk1, Hk2.
      cbn [fst] in Hmin, Hmax.
      split; [rewrite Hmin, <- Hk1; lia |]. split; [exact Hn1 |].
      split; [rewrite Hmax, <- Hk2; lia | exact Hn2].
    - (* two registers or more *)
      assert (Hnl : (sub64 (len (A ++ L0) + len M') (len (A ++ L0)) =? nl)
                    = false).
      { apply Z.eqb_neq. revert Hlen'. unfold nl. lens. intros. unwrap.
        nia. }
      destruct (Hmany Hlr Hnl) as [-> ->].
      destruct (@partition_avx512_spec _ (pair_pack d) (A ++ L0) M'
                  (R0 ++ B) (P, d) (s1, d) (b1, d))
        as (L2 & R2 & s2 & b2 & Hrun2 & _ & _ & _ & HextP);
        [done | by apply numeric_pair | done | done | done
        | by rewrite <- !(assoc_L (++)) |].
      rewrite HrunP in Hrun2. injection Hrun2 as _ _ <- <-.
      destruct HextP as (H1 & H2 & H3 & H4).
      { simpl. rewrite HlM, Nat.mul_comm, Nat.div_mul by lia. done. }
      rewrite kmin_pair in H1. rewrite kmax_pair in H3. done. }
  unfold partition_avx512_kv in Hkv |- *.
  rewrite Hcount, Heq, bind_Ok. rewrite Halign in Hkv.
  cbn [align_loop_kv] in Hkv. rewrite bind_Ok in Hkv.
  cbn iota beta in Hkv |- *.
  replace (A ++ L0 ++ M' ++ R0 ++ B) with ((A ++ L0) ++ M' ++ R0 ++ B)
    by (by rewrite <- !(assoc_L (++))).
  replace (len A + len L0) with (len (A ++ L0)) by (lens; lia).
  rewrite Hkv.
  exists (L0 ++ L), (R ++ R0), s', b'.
  split; [rewrite <- !(assoc_L (++)); tuple_eq; lens; lia |].
  split.
  { rewrite <- Hperm, <- HpermP, <- !(assoc_L (++)). done. }
  split.
  { apply Forall_app. split; [done |].
    eapply Forall_impl; [exact HLP | simpl; lia]. }
  split.
  { apply Forall_app. split; [done |].
    eapply Forall_impl; [exact HR0 | simpl; lia]. }
  intros Hs Hb.
  destruct (Hseed Hs Hb) as (Hs1 & Hns1 & Hb1 & Hnb1).
  destruct (Hext Hns1 Hnb1) as (H1 & H2 & H3 & H4).
  assert (Hp : map fst M' ++ map fst (L0 ++ R0) ≡ₚ map fst M).
  { rewrite <- map_app. apply Permutation_map. rewrite <- Hperm.
    rewrite (Permutation_app_comm M'), <- (assoc_L (++)).
    apply Permutation_app_head, Permutation_app_comm. }
  split; [by rewrite H1, Hs1, <- kmin_app, (kmin_perm _ _ _ Hp) |].
  split; [done |].
  split; [by rewrite H3, Hb1, <- kmax_app, (kmax_perm _ _ _ Hp) | done].
Qed.

End KvContractFacts.

Section KvRangeFacts.
Context {T I : Type} `{V : zmm_vector T}.

Lemma zip_map_fst_snd (X : list (T * I)) : zip (map fst X) (map snd X) = X.
Proof. induction X as [|[x ix] X IH]; [done |]. simpl. by rewrite IH. Qed.

Lemma map_fst_zip (keys : list T) (indexes : list I) :
  length indexes = length keys → map fst (zip keys indexes) = keys.
Proof.
  revert indexes. induction keys as [|x keys IH]; intros [|ix indexes] Hl;
    simpl in *; try done.
  rewrite IH; [done | lia].
Qed.

Lemma map_snd_zip (keys : list T) (indexes : list I) :
  length indexes = length keys → map snd (zip keys indexes) = indexes.
Proof.
  revert indexes. induction keys as [|x keys IH]; intros [|ix indexes] Hl;
    simpl in *; try done.
  rewrite IH; [done | lia].
Qed.

Lemma seg_map {A B : Type} (f : A → B) (X : list A) a b :
  seg (map f X) a b = map f (seg X a b).
Proof. unfold seg. by rewrite skipn_map, firstn_map. Qed.

(** The key-value kernel on the range [left .. right) of two arrays of the
    same length. *)
Lemma partition_avx512_kv_range (keys : list T) (indexes : list I)
    (left right : Z) (P s b : T) :
  (0 < numlanes ≤ 32)%nat →
  length indexes = length keys →
  0 ≤ left → left ≤ right → right ≤ len keys → len keys < 2 ^ 64 →
  numeric (seg keys left right) → isnan P = false →
  ∃ keys' indexes' p s' b',
    partition_avx512_kv keys indexes left right P s b
    = Ok (keys', indexes', p, s', b')
    ∧ left ≤ p ≤ right
    ∧ length keys' = length keys ∧ length indexes' = length indexes
    ∧ Forall (λ x, key x ≤ key P) (seg keys' left p)
    ∧ Forall (λ x, key P ≤ key x) (seg keys' p right)
    ∧ seg (zip keys' indexes') left right
      ≡ₚ seg (zip keys indexes) left right
    ∧ take (Z.to_nat left) (zip keys' indexes')
      = take (Z.to_nat left) (zip keys indexes)
    ∧ drop (Z.to_nat right) (zip keys' indexes')
      = drop (Z.to_nat right) (zip keys indexes)
    ∧ (isnan s = false → isnan b = false →
       key s' = kmin (key s) (seg keys left right) ∧ isnan s' = false
       ∧ key b' = kmax (key b) (seg keys left right) ∧ isnan b' = false).
Proof.
  intros Hnl Hli Hl Hlr Hr Hlen Hnum HP.
  remember (zip keys indexes) as X eqn:HX.
  assert (Hk : keys = map fst X) by (subst X; symmetry; by apply map_fst_zip).
  assert (Hi : indexes = map snd X)
    by (subst X; symmetry; by apply map_snd_zip).
  clear HX Hli. subst keys indexes.
  rewrite len_map in Hr, Hlen. rewrite seg_map in Hnum |- *.
  destruct (range_split X left right) as (Harr & HlA & HlM); [lia | lia |].
  revert Harr HlA HlM Hnum.
  generalize (take (Z.to_nat left) X) (seg X left right)
             (drop (Z.to_nat right) X).
  intros A M B Harr HlA HlM Hnum. subst X left.
  assert (right = len A + len M) as -> by lia.
  destruct (partition_avx512_kv_spec A M B P s b Hnl Hnum HP Hlen)
    as (L & R & s' & b' & Hrun & Hp & HL & HR & Hext).
  exists (map fst (A ++ L ++ R ++ B)), (map snd (A ++ L ++ R ++ B)),
         (len A + len L), s', b'.
  assert (HlLR : len M = len L + len R).
  { unfold len. rewrite <- Hp, length_app. lia. }
  assert (HL0 := len_nonneg L). assert (HR0 := len_nonneg R).
  rewrite !zip_map_fst_snd, !length_map, !seg_map.
  split; [exact Hrun |]. split; [lia |].
  assert (Hlens : length (A ++ L ++ R ++ B) = length (A ++ M ++ B)).
  { revert HlLR. lens. lia. }
  split; [exact Hlens |]. split; [exact Hlens |].
  split; [by rewrite seg_mid_l, Forall_map |].
  split; [by rewrite HlLR, Z.add_assoc, seg_mid_r, Forall_map |].
  split.
  { rewrite (assoc_L (++) L R B).
    replace (len A + len M) with (len A + len (L ++ R))
      by (rewrite len_app; lia).
    by rewrite seg_mid. }
  split; [unfold len; by rewrite Nat2Z.id, take_app_length |].
  split; [| exact Hext].
  replace (Z.to_nat (len A + len M)) with (length (A ++ L ++ R))
    by (revert HlLR; lens; lia).
  by rewrite (assoc_L (++) L R B), (assoc_L (++) A (L ++ R) B),
    drop_app_length.
Qed.

End KvRangeFacts.

(** ** The key-value partition *)

(** X17: on a range [left .. right) of keys without NaN, with an index
    array as long as the key array, the key-value [partition_avx512]
    returns an index [p] of the range such that afterwards no key of
    [left .. p) is greater than the pivot and no key of [p .. right) is
    smaller; every key is still at the position of its index, the pairs of
    the range being a permutation of the pairs at entry, and both arrays are
    unchanged outside the range.  The seeds may be anything. *)
Theorem partition_avx512_kv_partitions {T I : Type} `{V : zmm_vector T}
    `{!zmm_vector_ok T} (keys : list T) (indexes : list I)
    (left right : Z) (P s b : T) :
  length indexes = length keys →
  0 ≤ left → left ≤ right → right ≤ len keys → len keys < 2 ^ 64 →
  numeric (seg keys left right) → isnan P = false →
  ∃ keys' indexes' p s' b',
    partition_avx512_kv keys indexes left right P s b
    = Ok (keys', indexes', p, s', b')
    ∧ left ≤ p ≤ right
    ∧ length keys' = length keys ∧ length indexes' = length indexes
    ∧ Forall (λ x, key x ≤ key P) (seg keys' left p)
    ∧ Forall (λ x, key P ≤ key x) (seg keys' p right)
    ∧ seg (zip keys' indexes') left right
      ≡ₚ seg (zip keys indexes) left right
    ∧ take (Z.to_nat left) (zip keys' indexes')
      = take (Z.to_nat left) (zip keys indexes)
    ∧ drop (Z.to_nat right) (zip keys' indexes')
      = drop (Z.to_nat right) (zip keys indexes).
Proof.
  intros Hli Hl Hlr Hr Hlen Hnum HP.
  destruct (partition_avx512_kv_range keys indexes left right P s b)
    as (keys' & indexes' & p & s' & b' & Hrun & Hp & Hlk & Hlx & HL & HR
        & Hperm & Htake & Hdrop & _); try done.
  { split; [apply numlanes_pos | apply numlanes_le]. }
  by exists keys', indexes', p, s', b'.
Qed.

Lemma partition_avx512_kv_partitions_witness :
  ∃ keys' indexes' p s' b',
    @partition_avx512_kv Z int64_pack Z (rev (seqZ 0 19)) (seqZ 100 19)
      1 19 7 0 0 = Ok (keys', indexes', p, s', b')
    ∧ 1 ≤ p ≤ 19
    ∧ length keys' = length (rev (seqZ 0 19))
    ∧ length indexes' = length (seqZ 100 19)
    ∧ Forall (λ x, x ≤ 7) (seg keys' 1 p)
    ∧ Forall (λ x, 7 ≤ x) (seg keys' p 19)
    ∧ seg (zip keys' indexes') 1 19
      ≡ₚ seg (zip (rev (seqZ 0 19)) (seqZ 100 19)) 1 19
    ∧ take (Z.to_nat 1) (zip keys' indexes')
      = take (Z.to_nat 1) (zip (rev (seqZ 0 19)) (seqZ 100 19))
    ∧ drop (Z.to_nat 19) (zip keys' indexes')
      = drop (Z.to_nat 19) (zip (rev (seqZ 0 19)) (seqZ 100 19)).
Proof.
  apply (@partition_avx512_kv_partitions Z Z int64_pack int64_pack_ok
           (rev (seqZ 0 19)) (seqZ 100 19) 1 19 7 0 0).
  - reflexivity.
  - lia.
  - lia.
  - vm_compute. congruence.
  - vm_compute. reflexivity.
  - apply Forall_forall. intros x _. reflexivity.
  - reflexivity.
Defined.

(** X18: with seeds that are no NaN, the key-value [partition_avx512]
    returns the least and the greatest key of the range, each combined with
    its seed, on every path: for a range of exactly one register too, where
    it reduces the two registers of extremes before it returns. *)
Theorem partition_avx512_kv_extremes {T I : Type} `{V : zmm_vector T}
    `{!zmm_vector_ok T} (keys : list T) (indexes : list I)
    (left right : Z) (P s b : T) :
  length indexes = length keys →
  0 ≤ left → left ≤ right → right ≤ len keys → len keys < 2 ^ 64 →
  numeric (seg keys left right) →
  isnan P = false → isnan s = false → isnan b = false →
  ∃ keys' indexes' p s' b',
    partition_avx512_kv keys indexes left right P s b
    = Ok (keys', indexes', p, s', b')
    ∧ isnan s' = false ∧ isnan b' = false
    ∧ key s' = kmin (key s) (seg keys left right)
    ∧ key b' = kmax (key b) (seg keys left right).
Proof.
  intros Hli Hl Hlr Hr Hlen Hnum HP Hs Hb.
  destruct (partition_avx512_kv_range keys indexes left right P s b)
    as (keys' & indexes' & p & s' & b' & Hrun & _ & _ & _ & _ & _ & _ & _
        & _ & Hext); try done.
  { split; [apply numlanes_pos | apply numlanes_le]. }
  destruct (Hext Hs Hb) as (Hs' & Hns' & Hb' & Hnb').
  by exists keys', indexes', p, s', b'.
Qed.

Lemma partition_avx512_kv_extremes_witness :
  ∃ keys' indexes' p s' b',
    @partition_avx512_kv Z int64_pack Z [4; 1; 9; 5; 3; 7; 6; 2]
      [0; 1; 2; 3; 4; 5; 6; 7] 0 8 5 (2 ^ 63 - 1) (- 2 ^ 63)
    = Ok (keys', indexes', p, s', b')
    ∧ false = false ∧ false = false
    ∧ s' = @kmin Z int64_pack (2 ^ 63 - 1)
             (seg [4; 1; 9; 5; 3; 7; 6; 2] 0 8)
    ∧ b' = @kmax Z int64_pack (- 2 ^ 63)
             (seg [4; 1; 9; 5; 3; 7; 6; 2] 0 8).
Proof.
  apply (@partition_avx512_kv_extremes Z Z int64_pack int64_pack_ok
           [4; 1; 9; 5; 3; 7; 6; 2] [0; 1; 2; 3; 4; 5; 6; 7] 0 8 5).
  - reflexivity.
  - lia.
  - lia.
  - vm_compute. congruence.
  - vm_compute. reflexivity.
  - apply Forall_forall. intros x _. reflexivity.
  - reflexivity.
  - reflexivity.
  - reflexivity.
Defined.
